(** * someip-test-service: the lifecycle manager, the echo stub and the
      logging utilities, embedded from
      [cpp/service/src/{utils,service,manager}.hpp] and [lib.cpp].

    The service talks to an external runtime (CommonAPI) and loops until the
    runtime answers as wanted, so its functions are interaction trees: a call
    into the runtime, the logger or the clock is an event, the runtime's
    answer is the value the tree continues with, and a [while] loop is
    [ITree.iter].  What a function does is read off its traces: the lists
    of answered events along the finite paths of its tree. *)

From Stdlib Require Import ZArith List Ascii String Lia Bool Arith.
From ITree Require Import ITree.
Import ListNotations.
Import ITreeNotations.
Local Open Scope Z_scope.
Local Open Scope list_scope.
Local Open Scope itree_scope.

(** * Part I: the embedding *)

(** ** [std::string] and [size_t]

    A [std::string] is a list of characters; string literals of the source are
    written with [str].  [size_t] is an unsigned 64-bit integer: a [Z] with its
    wrap-around written out. *)

Definition std_string : Type := list ascii.

Definition str (s : string) : std_string := list_ascii_of_string s.

Module StdString.

Definition size_t_modulus : Z := 2 ^ 64.

(** [std::string::npos], that is [size_t(-1)]. *)
Definition npos : Z := size_t_modulus - 1.

(** Arithmetic on [size_t] is modulo [2^64]. *)
Definition wrap (z : Z) : Z := z mod size_t_modulus.

Definition size (s : std_string) : Z := Z.of_nat (List.length s).

(** [starts_with needle s]: [needle] occurs in [s] at offset 0. *)
Fixpoint starts_with (needle s : std_string) : bool :=
  match needle, s with
  | [], _ => true
  | _ :: _, [] => false
  | a :: needle', b :: s' => Ascii.eqb a b && starts_with needle' s'
  end.

(** Offset of the first occurrence of [needle] in [s], if any. *)
Fixpoint first_occurrence (needle s : std_string) : option nat :=
  if starts_with needle s then Some O
  else match s with
       | [] => None
       | _ :: s' => option_map S (first_occurrence needle s')
       end.

(** Offset of the last occurrence of [needle] in [s], if any. *)
Fixpoint last_occurrence (needle s : std_string) : option nat :=
  match s with
  | [] => if starts_with needle [] then Some O else None
  | _ :: s' =>
      match last_occurrence needle s' with
      | Some i => Some (S i)
      | None => if starts_with needle s then Some O else None
      end
  end.

Definition to_size_t (o : option nat) : Z :=
  match o with
  | Some i => Z.of_nat i
  | None => npos
  end.

(** [s.find(needle)] and [s.rfind(needle)], with the default positions. *)
Definition find (s needle : std_string) : Z :=
  to_size_t (first_occurrence needle s).

Definition rfind (s needle : std_string) : Z :=
  to_size_t (last_occurrence needle s).

(** [s.substr(pos, n)]: throws [std::out_of_range] ([None]) when
    [pos > size()], and otherwise copies [min(n, size() - pos)] characters
    from [pos]. *)
Definition substr (s : std_string) (pos n : Z) : option std_string :=
  if size s <? pos then None
  else Some (firstn (Z.to_nat (Z.min n (size s - pos)))
                    (skipn (Z.to_nat pos) s)).

(** [needle] occurs somewhere in [s]. *)
Definition occurs (needle s : std_string) : Prop :=
  exists before after, s = before ++ needle ++ after.

End StdString.

(** ** Traces of an interaction tree

    [record] turns an event and the answer it got into an entry of the
    trace.  [trace_n n t tr res]: within [n] steps, [t] performs the answered
    events [tr] and then either returns [r] ([res = Some r]) or is still
    running ([res = None], a partial trace: a run may be watched up to any
    point, and a run that never returns is known by its partial traces). *)

Section Traces.

Context {E : Type -> Type} {Ev : Type}.
Variable record : forall X : Type, E X -> X -> Ev.

Fixpoint trace_n {R : Type} (n : nat) (t : itree E R)
                 (tr : list Ev) (res : option R) : Prop :=
  (tr = [] /\ res = None) \/
  match n with
  | O => False
  | S n' =>
      match observe t with
      | RetF r => tr = [] /\ res = Some r
      | TauF t' => trace_n n' t' tr res
      | VisF e k =>
          exists x tr', tr = record _ e x :: tr' /\ trace_n n' (k x) tr' res
      end
  end.

Definition is_trace {R : Type} (t : itree E R)
                    (tr : list Ev) (res : option R) : Prop :=
  exists n, trace_n n t tr res.

(** [t] returns [r] after the events [tr]. *)
Definition returns {R : Type} (t : itree E R) (tr : list Ev) (r : R) : Prop :=
  is_trace t tr (Some r).

(** Whatever [t] performs, in a run that returns or not, satisfies [P]. *)
Definition only_performs {R : Type} (P : Ev -> Prop) (t : itree E R) : Prop :=
  forall tr res, is_trace t tr res -> Forall P tr.

(** Wherever a run of [t] stands, some answers of the outside make it
    return: [t] has no point from which it can only go on for ever. *)
Definition can_always_return {R : Type} (t : itree E R) : Prop :=
  forall tr, is_trace t tr None -> exists tr' r, returns t (tr ++ tr') r.

End Traces.

(** [while (cond) { body }]. *)
Definition while_loop {E : Type -> Type}
                      (cond : itree E bool) (body : itree E unit)
  : itree E unit :=
  ITree.iter
    (fun _ : unit =>
       continue <- cond ;;
       if continue : bool then body ;; Ret (inl tt) else Ret (inr tt))
    tt.

(** The traces of [while (cond) { body }], spelled out: full iterations, then
    either the test that fails, or a run cut short in a test or in a body. *)
Inductive while_trace {E : Type -> Type} {Ev : Type}
          (record : forall X : Type, E X -> X -> Ev)
          (cond : itree E bool) (body : itree E unit)
  : list Ev -> option unit -> Prop :=
| while_exit tr :
    is_trace record cond tr (Some false) ->
    while_trace record cond body tr (Some tt)
| while_cut_cond tr :
    is_trace record cond tr None ->
    while_trace record cond body tr None
| while_cut_body tr1 tr2 :
    is_trace record cond tr1 (Some true) ->
    is_trace record body tr2 None ->
    while_trace record cond body (tr1 ++ tr2) None
| while_again tr1 tr2 tr3 res :
    is_trace record cond tr1 (Some true) ->
    is_trace record body tr2 (Some tt) ->
    while_trace record cond body tr3 res ->
    while_trace record cond body (tr1 ++ tr2 ++ tr3) res.

(** ** utils.hpp *)

(** What [COMMONAPI_INFO] is given: text, or an unsigned 64-bit number. *)
Inductive LogMessage : Type :=
| LogText (text : std_string)
| LogUInt64 (value : Z).

(** An event signature that can log. *)
Class Logging (E : Type -> Type) : Type :=
  COMMONAPI_INFO : LogMessage -> E unit.

(** The functions of the library that log their calls. *)
Inductive Function : Type :=
| Manager_launch_test_service
| Manager_terminate_test_service
| Manager_register_service
| Manager_unregister_service
| Manager_wait_service
| Stub_method (name : std_string).

Module Utils.
Import StdString.

(** [#define LOG(message) COMMONAPI_INFO(message)]. *)
Definition LOG {E : Type -> Type} `{Logging E} (message : LogMessage)
  : itree E unit :=
  ITree.trigger (COMMONAPI_INFO message).

(** [method_name]: takes the text of [__PRETTY_FUNCTION__] and strips the
    return type and the parameter list.  [None] is an exception leaving the
    function. *)
Definition method_name (prettyFunction : std_string) : option std_string :=
  let colons := find prettyFunction (str "::") in
  match substr prettyFunction 0 colons with
  | None => None
  | Some head =>
      let begin := wrap (rfind head (str " ") + 1) in
      let end_ := wrap (rfind prettyFunction (str "(") - begin) in
      match substr prettyFunction begin end_ with
      | None => None
      | Some name => Some (name ++ str "()")
      end
  end.

Section ScopedLogging.

Context {E : Type -> Type} `{Logging E}.

(** The compiler's [__PRETTY_FUNCTION__] in each function. *)
Variable __PRETTY_FUNCTION__ : Function -> std_string.

(** [#define __METHOD_NAME__ method_name(__PRETTY_FUNCTION__)].  The
    [None] branch is dead: [method_name] never throws (lemma
    [method_name_never_throws]). *)
Definition __METHOD_NAME__ (f : Function) : std_string :=
  match method_name (__PRETTY_FUNCTION__ f) with
  | Some name => name
  | None => []
  end.

(** [class ScopedFunctionLogger]: the constructor logs ENTER, the destructor,
    run when the enclosing scope ends, logs EXIT. *)
Definition ScopedFunctionLogger {R : Type} (method_name_to_log : std_string)
                                (scope : itree E R) : itree E R :=
  LOG (LogText (str "[" ++ method_name_to_log ++ str "] ENTER")) ;;
  r <- scope ;;
  LOG (LogText (str "[" ++ method_name_to_log ++ str "] EXIT")) ;;
  Ret r.

(** [LOG_FUNCTION_CALL()] on the first line of function [f], whose remaining
    body is [scope]. *)
Definition LOG_FUNCTION_CALL {R : Type} (f : Function) (scope : itree E R)
  : itree E R :=
  ScopedFunctionLogger (__METHOD_NAME__ f) scope.

End ScopedLogging.

End Utils.

(** ** service.hpp: [TestServiceStubImpl] *)

Module StubImpl.
Import Utils.

(** [std::shared_ptr<CommonAPI::ClientId>]: the address it holds. *)
Definition ClientId : Type := nat.

(** Fixed-width integers are carried as the integer they denote, and [float]
    and [double] as their bit patterns: the stub does no arithmetic on any of
    them. *)
Definition int8_t : Type := Z.
Definition int16_t : Type := Z.
Definition int32_t : Type := Z.
Definition int64_t : Type := Z.
Definition uint8_t : Type := Z.
Definition uint16_t : Type := Z.
Definition uint32_t : Type := Z.
Definition uint64_t : Type := Z.
Definition float : Type := Z.
Definition double : Type := Z.

(** Modelled from the spec: [v0::test::TestService::AllPrimitiveDataTypes]
    is generated from the interface description, which is not among the
    sources; the spec calls it a fixed-field aggregate of all the primitive
    types. *)
Record AllPrimitiveDataTypes : Type := {
  field_bool : bool;
  field_int8 : int8_t;
  field_int16 : int16_t;
  field_int32 : int32_t;
  field_int64 : int64_t;
  field_uint8 : uint8_t;
  field_uint16 : uint16_t;
  field_uint32 : uint32_t;
  field_uint64 : uint64_t;
  field_float : float;
  field_double : double
}.

(** What a stub method can do to the outside: log, and pass a value of the
    reply type [T] to the reply callback the runtime handed it. *)
Variant stubE (T : Type) : Type -> Type :=
| StubLog (message : LogMessage) : stubE T unit
| Reply (value : T) : stubE T unit.

Arguments StubLog {T} message.
Arguments Reply {T} value.

#[global] Instance stubE_Logging (T : Type) : Logging (stubE T) :=
  @StubLog T.

(** The entries of a stub method's trace. *)
Inductive StubEvent (T : Type) : Type :=
| StubLogged (message : LogMessage)
| Replied (value : T).

Arguments StubLogged {T} message.
Arguments Replied {T} value.

Definition record_stub (T : Type) (X : Type) (e : stubE T X) (_ : X)
  : StubEvent T :=
  match e with
  | StubLog message => StubLogged message
  | Reply value => Replied value
  end.

(** The two lines a [ScopedFunctionLogger] writes in method [f]. *)
Definition stub_entered (__PRETTY_FUNCTION__ : Function -> std_string)
                        {T : Type} (f : Function) : StubEvent T :=
  StubLogged (LogText (str "[" ++ __METHOD_NAME__ __PRETTY_FUNCTION__ f
                           ++ str "] ENTER")).

Definition stub_exited (__PRETTY_FUNCTION__ : Function -> std_string)
                       {T : Type} (f : Function) : StubEvent T :=
  StubLogged (LogText (str "[" ++ __METHOD_NAME__ __PRETTY_FUNCTION__ f
                           ++ str "] EXIT")).

(** The reply callback as the runtime's stub adapter passes it. *)
Definition reply_callback (T : Type) (value : T) : itree (stubE T) unit :=
  ITree.trigger (Reply value).

Section Methods.

Context {E : Type -> Type} `{Logging E}.
Variable __PRETTY_FUNCTION__ : Function -> std_string.

Definition test_bool (_client : ClientId) (_flag : bool)
                     (_reply : bool -> itree E unit) : itree E unit :=
  LOG_FUNCTION_CALL __PRETTY_FUNCTION__ (Stub_method (str "test_bool"))
    (_reply _flag).

Definition test_int8 (_client : ClientId) (_param : int8_t)
                     (_reply : int8_t -> itree E unit) : itree E unit :=
  LOG_FUNCTION_CALL __PRETTY_FUNCTION__ (Stub_method (str "test_int8"))
    (_reply _param).

Definition test_int16 (_client : ClientId) (_param : int16_t)
                      (_reply : int16_t -> itree E unit) : itree E unit :=
  LOG_FUNCTION_CALL __PRETTY_FUNCTION__ (Stub_method (str "test_int16"))
    (_reply _param).

Definition test_int32 (_client : ClientId) (_param : int32_t)
                      (_reply : int32_t -> itree E unit) : itree E unit :=
  LOG_FUNCTION_CALL __PRETTY_FUNCTION__ (Stub_method (str "test_int32"))
    (_reply _param).

Definition test_int64 (_client : ClientId) (_param : int64_t)
                      (_reply : int64_t -> itree E unit) : itree E unit :=
  LOG_FUNCTION_CALL __PRETTY_FUNCTION__ (Stub_method (str "test_int64"))
    (_reply _param).

Definition test_uint8 (_client : ClientId) (_param : uint8_t)
                      (_reply : uint8_t -> itree E unit) : itree E unit :=
  LOG_FUNCTION_CALL __PRETTY_FUNCTION__ (Stub_method (str "test_uint8"))
    (_reply _param).

Definition test_uint16 (_client : ClientId) (_param : uint16_t)
                       (_reply : uint16_t -> itree E unit) : itree E unit :=
  LOG_FUNCTION_CALL __PRETTY_FUNCTION__ (Stub_method (str "test_uint16"))
    (_reply _param).

Definition test_uint32 (_client : ClientId) (_param : uint32_t)
                       (_reply : uint32_t -> itree E unit) : itree E unit :=
  LOG_FUNCTION_CALL __PRETTY_FUNCTION__ (Stub_method (str "test_uint32"))
    (_reply _param).

Definition test_uint64 (_client : ClientId) (_param : uint64_t)
                       (_reply : uint64_t -> itree E unit) : itree E unit :=
  LOG_FUNCTION_CALL __PRETTY_FUNCTION__ (Stub_method (str "test_uint64"))
    (_reply _param).

Definition test_double (_client : ClientId) (_param : double)
                       (_reply : double -> itree E unit) : itree E unit :=
  LOG_FUNCTION_CALL __PRETTY_FUNCTION__ (Stub_method (str "test_double"))
    (_reply _param).

Definition test_float (_client : ClientId) (_param : float)
                      (_reply : float -> itree E unit) : itree E unit :=
  LOG_FUNCTION_CALL __PRETTY_FUNCTION__ (Stub_method (str "test_float"))
    (_reply _param).

Definition test_struct (_client : ClientId) (_request : AllPrimitiveDataTypes)
                       (_reply : AllPrimitiveDataTypes -> itree E unit)
  : itree E unit :=
  LOG_FUNCTION_CALL __PRETTY_FUNCTION__ (Stub_method (str "test_struct"))
    (_reply _request).

Definition test_utf16le_dynamic_length_string
    (_client : ClientId) (_param : std_string)
    (_reply : std_string -> itree E unit) : itree E unit :=
  LOG_FUNCTION_CALL __PRETTY_FUNCTION__
    (Stub_method (str "test_utf16le_dynamic_length_string")) (_reply _param).

Definition test_utf16be_dynamic_length_string
    (_client : ClientId) (_param : std_string)
    (_reply : std_string -> itree E unit) : itree E unit :=
  LOG_FUNCTION_CALL __PRETTY_FUNCTION__
    (Stub_method (str "test_utf16be_dynamic_length_string")) (_reply _param).

Definition test_utf8_dynamic_length_string
    (_client : ClientId) (_param : std_string)
    (_reply : std_string -> itree E unit) : itree E unit :=
  LOG_FUNCTION_CALL __PRETTY_FUNCTION__
    (Stub_method (str "test_utf8_dynamic_length_string")) (_reply _param).

Definition test_utf16le_fixed_length_string
    (_client : ClientId) (_param : std_string)
    (_reply : std_string -> itree E unit) : itree E unit :=
  LOG_FUNCTION_CALL __PRETTY_FUNCTION__
    (Stub_method (str "test_utf16le_fixed_length_string")) (_reply _param).

Definition test_utf16be_fixed_length_string
    (_client : ClientId) (_param : std_string)
    (_reply : std_string -> itree E unit) : itree E unit :=
  LOG_FUNCTION_CALL __PRETTY_FUNCTION__
    (Stub_method (str "test_utf16be_fixed_length_string")) (_reply _param).

Definition test_utf8_fixed_length_string
    (_client : ClientId) (_param : std_string)
    (_reply : std_string -> itree E unit) : itree E unit :=
  LOG_FUNCTION_CALL __PRETTY_FUNCTION__
    (Stub_method (str "test_utf8_fixed_length_string")) (_reply _param).

(** The one-way method: no reply callback, the parameter is logged. *)
Definition test_fire_and_forget_uint64 (_client : ClientId) (_param : uint64_t)
  : itree E unit :=
  LOG_FUNCTION_CALL __PRETTY_FUNCTION__
    (Stub_method (str "test_fire_and_forget_uint64"))
    (LOG (LogUInt64 _param)).

Definition test_fixed_length_array
    (_client : ClientId) (_param : list uint32_t)
    (_reply : list uint32_t -> itree E unit) : itree E unit :=
  LOG_FUNCTION_CALL __PRETTY_FUNCTION__
    (Stub_method (str "test_fixed_length_array")) (_reply _param).

Definition test_dynamic_length_1_byte_array
    (_client : ClientId) (_param : list uint32_t)
    (_reply : list uint32_t -> itree E unit) : itree E unit :=
  LOG_FUNCTION_CALL __PRETTY_FUNCTION__
    (Stub_method (str "test_dynamic_length_1_byte_array")) (_reply _param).

Definition test_dynamic_length_2_bytes_array
    (_client : ClientId) (_param : list uint32_t)
    (_reply : list uint32_t -> itree E unit) : itree E unit :=
  LOG_FUNCTION_CALL __PRETTY_FUNCTION__
    (Stub_method (str "test_dynamic_length_2_bytes_array")) (_reply _param).

Definition test_dynamic_length_4_bytes_array
    (_client : ClientId) (_param : list uint32_t)
    (_reply : list uint32_t -> itree E unit) : itree E unit :=
  LOG_FUNCTION_CALL __PRETTY_FUNCTION__
    (Stub_method (str "test_dynamic_length_4_bytes_array")) (_reply _param).

End Methods.

(** The two-way methods of the class, as a catalogue. *)
Inductive TwoWayMethod : Type :=
| M_test_bool
| M_test_int8 | M_test_int16 | M_test_int32 | M_test_int64
| M_test_uint8 | M_test_uint16 | M_test_uint32 | M_test_uint64
| M_test_double | M_test_float
| M_test_struct
| M_test_utf16le_dynamic_length_string
| M_test_utf16be_dynamic_length_string
| M_test_utf8_dynamic_length_string
| M_test_utf16le_fixed_length_string
| M_test_utf16be_fixed_length_string
| M_test_utf8_fixed_length_string
| M_test_fixed_length_array
| M_test_dynamic_length_1_byte_array
| M_test_dynamic_length_2_bytes_array
| M_test_dynamic_length_4_bytes_array.

(** The parameter type of each, which is its reply type too. *)
Definition parameter_type (m : TwoWayMethod) : Type :=
  match m with
  | M_test_bool => bool
  | M_test_int8 => int8_t
  | M_test_int16 => int16_t
  | M_test_int32 => int32_t
  | M_test_int64 => int64_t
  | M_test_uint8 => uint8_t
  | M_test_uint16 => uint16_t
  | M_test_uint32 => uint32_t
  | M_test_uint64 => uint64_t
  | M_test_double => double
  | M_test_float => float
  | M_test_struct => AllPrimitiveDataTypes
  | M_test_utf16le_dynamic_length_string
  | M_test_utf16be_dynamic_length_string
  | M_test_utf8_dynamic_length_string
  | M_test_utf16le_fixed_length_string
  | M_test_utf16be_fixed_length_string
  | M_test_utf8_fixed_length_string => std_string
  | M_test_fixed_length_array
  | M_test_dynamic_length_1_byte_array
  | M_test_dynamic_length_2_bytes_array
  | M_test_dynamic_length_4_bytes_array => list uint32_t
  end.

Definition method_id (m : TwoWayMethod) : Function :=
  Stub_method (str
    match m with
    | M_test_bool => "test_bool"
    | M_test_int8 => "test_int8"
    | M_test_int16 => "test_int16"
    | M_test_int32 => "test_int32"
    | M_test_int64 => "test_int64"
    | M_test_uint8 => "test_uint8"
    | M_test_uint16 => "test_uint16"
    | M_test_uint32 => "test_uint32"
    | M_test_uint64 => "test_uint64"
    | M_test_double => "test_double"
    | M_test_float => "test_float"
    | M_test_struct => "test_struct"
    | M_test_utf16le_dynamic_length_string =>
        "test_utf16le_dynamic_length_string"
    | M_test_utf16be_dynamic_length_string =>
        "test_utf16be_dynamic_length_string"
    | M_test_utf8_dynamic_length_string => "test_utf8_dynamic_length_string"
    | M_test_utf16le_fixed_length_string => "test_utf16le_fixed_length_string"
    | M_test_utf16be_fixed_length_string => "test_utf16be_fixed_length_string"
    | M_test_utf8_fixed_length_string => "test_utf8_fixed_length_string"
    | M_test_fixed_length_array => "test_fixed_length_array"
    | M_test_dynamic_length_1_byte_array => "test_dynamic_length_1_byte_array"
    | M_test_dynamic_length_2_bytes_array =>
        "test_dynamic_length_2_bytes_array"
    | M_test_dynamic_length_4_bytes_array =>
        "test_dynamic_length_4_bytes_array"
    end).

(** A remote call of method [m]: the runtime's adapter calls the override
    with the decoded argument and its reply callback. *)
Definition dispatch (__PRETTY_FUNCTION__ : Function -> std_string)
                    (m : TwoWayMethod) (_client : ClientId)
  : parameter_type m ->
    itree (stubE (parameter_type m)) unit :=
  match m return parameter_type m -> itree (stubE (parameter_type m)) unit with
  | M_test_bool => fun x =>
      test_bool __PRETTY_FUNCTION__ _client x (reply_callback _)
  | M_test_int8 => fun x =>
      test_int8 __PRETTY_FUNCTION__ _client x (reply_callback _)
  | M_test_int16 => fun x =>
      test_int16 __PRETTY_FUNCTION__ _client x (reply_callback _)
  | M_test_int32 => fun x =>
      test_int32 __PRETTY_FUNCTION__ _client x (reply_callback _)
  | M_test_int64 => fun x =>
      test_int64 __PRETTY_FUNCTION__ _client x (reply_callback _)
  | M_test_uint8 => fun x =>
      test_uint8 __PRETTY_FUNCTION__ _client x (reply_callback _)
  | M_test_uint16 => fun x =>
      test_uint16 __PRETTY_FUNCTION__ _client x (reply_callback _)
  | M_test_uint32 => fun x =>
      test_uint32 __PRETTY_FUNCTION__ _client x (reply_callback _)
  | M_test_uint64 => fun x =>
      test_uint64 __PRETTY_FUNCTION__ _client x (reply_callback _)
  | M_test_double => fun x =>
      test_double __PRETTY_FUNCTION__ _client x (reply_callback _)
  | M_test_float => fun x =>
      test_float __PRETTY_FUNCTION__ _client x (reply_callback _)
  | M_test_struct => fun x =>
      test_struct __PRETTY_FUNCTION__ _client x (reply_callback _)
  | M_test_utf16le_dynamic_length_string => fun x =>
      test_utf16le_dynamic_length_string __PRETTY_FUNCTION__ _client x
        (reply_callback _)
  | M_test_utf16be_dynamic_length_string => fun x =>
      test_utf16be_dynamic_length_string __PRETTY_FUNCTION__ _client x
        (reply_callback _)
  | M_test_utf8_dynamic_length_string => fun x =>
      test_utf8_dynamic_length_string __PRETTY_FUNCTION__ _client x
        (reply_callback _)
  | M_test_utf16le_fixed_length_string => fun x =>
      test_utf16le_fixed_length_string __PRETTY_FUNCTION__ _client x
        (reply_callback _)
  | M_test_utf16be_fixed_length_string => fun x =>
      test_utf16be_fixed_length_string __PRETTY_FUNCTION__ _client x
        (reply_callback _)
  | M_test_utf8_fixed_length_string => fun x =>
      test_utf8_fixed_length_string __PRETTY_FUNCTION__ _client x
        (reply_callback _)
  | M_test_fixed_length_array => fun x =>
      test_fixed_length_array __PRETTY_FUNCTION__ _client x (reply_callback _)
  | M_test_dynamic_length_1_byte_array => fun x =>
      test_dynamic_length_1_byte_array __PRETTY_FUNCTION__ _client x
        (reply_callback _)
  | M_test_dynamic_length_2_bytes_array => fun x =>
      test_dynamic_length_2_bytes_array __PRETTY_FUNCTION__ _client x
        (reply_callback _)
  | M_test_dynamic_length_4_bytes_array => fun x =>
      test_dynamic_length_4_bytes_array __PRETTY_FUNCTION__ _client x
        (reply_callback _)
  end.

End StubImpl.

(** ** manager.hpp: [Manager] *)

Module ManagerImpl.
Import Utils.

(** [std::shared_ptr<TestServiceStubImpl>] and the proxy [buildProxy] returns:
    the addresses they hold. *)
Definition StubPtr : Type := nat.
Definition ProxyPtr : Type := nat.

(** What the manager and [lib.cpp] call outside themselves: the logger, the
    CommonAPI runtime and the proxy it builds, the allocator, the clock and
    the mutex.  The index is the type of the answer. *)
Variant runtimeE : Type -> Type :=
| Log (message : LogMessage) : runtimeE unit
| Runtime_setProperty (name value : std_string) : runtimeE unit
| Runtime_get : runtimeE unit
| make_shared_TestServiceStubImpl : runtimeE StubPtr
| registerService (domain instance : std_string) (handle : StubPtr)
                  (connection : std_string) : runtimeE bool
| unregisterService (domain interface instance : std_string) : runtimeE bool
| buildProxy (domain instance connection : std_string) : runtimeE ProxyPtr
| isAvailable (proxy : ProxyPtr) : runtimeE bool
| sleep_for (milliseconds : Z) : runtimeE unit
| mutex_lock : runtimeE unit
| mutex_unlock : runtimeE unit.

#[global] Instance runtimeE_Logging : Logging runtimeE := Log.

(** The entries of a trace: each call with the answer it got. *)
Inductive Event : Type :=
| Logged (message : LogMessage)
| PropertySet (name value : std_string)
| RuntimeGot
| StubMade (handle : StubPtr)
| Registered (domain instance : std_string) (handle : StubPtr)
             (connection : std_string) (ok : bool)
| Unregistered (domain interface instance : std_string) (ok : bool)
| ProxyBuilt (domain instance connection : std_string) (proxy : ProxyPtr)
| AvailabilityRead (proxy : ProxyPtr) (available : bool)
| Slept (milliseconds : Z)
| Locked
| Unlocked.

Definition record (X : Type) (e : runtimeE X) : X -> Event :=
  match e in runtimeE X return X -> Event with
  | Log message => fun _ => Logged message
  | Runtime_setProperty name value => fun _ => PropertySet name value
  | Runtime_get => fun _ => RuntimeGot
  | make_shared_TestServiceStubImpl => fun handle => StubMade handle
  | registerService domain instance handle connection =>
      fun ok => Registered domain instance handle connection ok
  | unregisterService domain interface instance =>
      fun ok => Unregistered domain interface instance ok
  | buildProxy domain instance connection =>
      fun proxy => ProxyBuilt domain instance connection proxy
  | isAvailable proxy => fun available => AvailabilityRead proxy available
  | sleep_for milliseconds => fun _ => Slept milliseconds
  | mutex_lock => fun _ => Locked
  | mutex_unlock => fun _ => Unlocked
  end.

(** *** Runtime and service configuration *)

Definition SOMEIP_GEN_LIBRARY_NAME_BASE : std_string :=
  str "someip-test-service".

(** [std::chrono::milliseconds(100)]. *)
Definition RETRY_TIMEOUT : Z := 100.

Definition SERVICE_DOMAIN : std_string := str "local".
Definition SERVICE_INSTANCE : std_string := str "test.TestService".
Definition SERVICE_INTERFACE : std_string := str "test.TestService:v0_1".
Definition SERVICE_CONNECTION : std_string := str "test-service".

(** *** The class *)

Record Meta : Type := {
  domain : std_string;
  instance : std_string;
  interface : std_string;
  connection : std_string
}.

Record Service : Type := {
  meta : Meta;
  handle : StubPtr
}.

(** The object: its one field, [std::optional<Service> running_service]. *)
Record Manager : Type := {
  running_service : option Service
}.

(** [running_service.has_value()]. *)
Definition has_value (this : Manager) : bool :=
  match running_service this with
  | Some _ => true
  | None => false
  end.

(** The lifecycle state the spec speaks of.  The class keeps no such field:
    the state is read off the slot. *)
Inductive LifecycleState : Type := Stopped | Running.

Definition state (this : Manager) : LifecycleState :=
  if has_value this then Running else Stopped.

Section Methods.

Variable __PRETTY_FUNCTION__ : Function -> std_string.

Local Abbreviation LOG_FUNCTION_CALL :=
  (Utils.LOG_FUNCTION_CALL __PRETTY_FUNCTION__).

(** [std::this_thread::sleep_for(RETRY_TIMEOUT)]. *)
Definition sleep : itree runtimeE unit :=
  ITree.trigger (sleep_for RETRY_TIMEOUT).

Definition configure_common_api_runtime : itree runtimeE unit :=
  ITree.trigger
    (Runtime_setProperty (str "LibraryBase") SOMEIP_GEN_LIBRARY_NAME_BASE) ;;
  ITree.trigger Runtime_get.

Definition create_service : itree runtimeE Service :=
  let meta := {| domain := SERVICE_DOMAIN;
                 instance := SERVICE_INSTANCE;
                 interface := SERVICE_INTERFACE;
                 connection := SERVICE_CONNECTION |} in
  handle <- ITree.trigger make_shared_TestServiceStubImpl ;;
  Ret {| meta := meta; handle := handle |}.

Definition register_service (service : Service) : itree runtimeE unit :=
  LOG_FUNCTION_CALL Manager_register_service
    (ITree.trigger Runtime_get ;;
     let '(Build_Meta domain instance _ connection) := meta service in
     while_loop
       (ok <- ITree.trigger
                (registerService domain instance (handle service) connection) ;;
        Ret (negb ok))
       (LOG (LogText (str "Couldn't register service, trying again...")) ;;
        sleep)).

Definition unregister_service (service : Service) : itree runtimeE unit :=
  LOG_FUNCTION_CALL Manager_unregister_service
    (ITree.trigger Runtime_get ;;
     let '(Build_Meta domain instance interface _) := meta service in
     while_loop
       (ok <- ITree.trigger (unregisterService domain interface instance) ;;
        Ret (negb ok))
       (LOG (LogText (str "Couldn't unregister service, trying again...")) ;;
        sleep)).

(** Blocks until the service becomes available or unavailable. *)
Definition wait_service (service : Service) (to_be_available : bool)
  : itree runtimeE unit :=
  LOG_FUNCTION_CALL Manager_wait_service
    (ITree.trigger Runtime_get ;;
     let '(Build_Meta domain instance _ connection) := meta service in
     proxy <- ITree.trigger (buildProxy domain instance connection) ;;
     while_loop
       (available <- ITree.trigger (isAvailable proxy) ;;
        Ret (negb (Bool.eqb available to_be_available)))
       sleep).

(** The methods that change the object return it as they leave it. *)
Definition launch_test_service (this : Manager) : itree runtimeE Manager :=
  LOG_FUNCTION_CALL Manager_launch_test_service
    (if negb (has_value this) then
       service <- create_service ;;
       register_service service ;;
       wait_service service true ;;
       Ret {| running_service := Some service |}
     else
       LOG (LogText
         (str "Ignoring an attempt to launch - service is already launched.")) ;;
       Ret this).

Definition terminate_test_service (this : Manager) : itree runtimeE Manager :=
  LOG_FUNCTION_CALL Manager_terminate_test_service
    (match running_service this with
     | Some service =>
         unregister_service service ;;
         wait_service service false ;;
         Ret {| running_service := None |}
     | None =>
         LOG (LogText
           (str "Ignoring an attempt to terminate - service hasn't been launched.")) ;;
         Ret this
     end).

(** [Manager()]. *)
Definition Manager_ctor : itree runtimeE Manager :=
  configure_common_api_runtime ;;
  Ret {| running_service := None |}.

(** [~Manager()]. *)
Definition Manager_dtor (this : Manager) : itree runtimeE Manager :=
  terminate_test_service this.

(** [Manager::instance()]: the function-local static is constructed by the
    first call.  [static_manager] is that static: [None] before. *)
Definition instance_ (static_manager : option Manager)
  : itree runtimeE Manager :=
  match static_manager with
  | Some manager => Ret manager
  | None => Manager_ctor
  end.

(** *** lib.cpp

    The two exported functions; each returns the static as it leaves it.
    The [std::lock_guard] locks [test_service_manager_mutex] where it is
    declared and unlocks it when the function's scope ends. *)

Definition launch (static_manager : option Manager)
  : itree runtimeE (option Manager) :=
  ITree.trigger mutex_lock ;;
  manager <- instance_ static_manager ;;
  manager <- launch_test_service manager ;;
  ITree.trigger mutex_unlock ;;
  Ret (Some manager).

Definition terminate (static_manager : option Manager)
  : itree runtimeE (option Manager) :=
  ITree.trigger mutex_lock ;;
  manager <- instance_ static_manager ;;
  manager <- terminate_test_service manager ;;
  ITree.trigger mutex_unlock ;;
  Ret (Some manager).

(** The shape the two have in common: a method called under the lock
    guard, on the instance. *)
Definition under_lock (method : Manager -> itree runtimeE Manager)
                      (static_manager : option Manager)
  : itree runtimeE (option Manager) :=
  ITree.trigger mutex_lock ;;
  manager <- instance_ static_manager ;;
  manager <- method manager ;;
  ITree.trigger mutex_unlock ;;
  Ret (Some manager).

(** A caller's calls of the two methods, one after the other on one
    thread. *)
Inductive Call : Type := Launch | Terminate.

Definition call (c : Call) (this : Manager) : itree runtimeE Manager :=
  match c with
  | Launch => launch_test_service this
  | Terminate => terminate_test_service this
  end.

Fixpoint calls (cs : list Call) (this : Manager) : itree runtimeE Manager :=
  match cs with
  | [] => Ret this
  | c :: cs' => this' <- call c this ;; calls cs' this'
  end.

End Methods.

(** *** Running a method against a scripted runtime

    A script holds what the runtime will answer: to the registration
    attempts, to the unregistration attempts and to the availability polls,
    in order (a call past the end of its list is answered [true]), and the
    addresses the allocator and [buildProxy] will give. *)

Record Script : Type := {
  register_answers : list bool;
  unregister_answers : list bool;
  availability_answers : list bool;
  stub_address : StubPtr;
  proxy_address : ProxyPtr
}.

Definition next_answer (answers : list bool) : bool * list bool :=
  match answers with
  | [] => (true, [])
  | answer :: answers' => (answer, answers')
  end.

Definition answer (script : Script) (X : Type) (e : runtimeE X)
  : X * Script :=
  match e in runtimeE X return X * Script with
  | Log _ => (tt, script)
  | Runtime_setProperty _ _ => (tt, script)
  | Runtime_get => (tt, script)
  | make_shared_TestServiceStubImpl => (stub_address script, script)
  | registerService _ _ _ _ =>
      let (ok, rest) := next_answer (register_answers script) in
      (ok, {| register_answers := rest;
              unregister_answers := unregister_answers script;
              availability_answers := availability_answers script;
              stub_address := stub_address script;
              proxy_address := proxy_address script |})
  | unregisterService _ _ _ =>
      let (ok, rest) := next_answer (unregister_answers script) in
      (ok, {| register_answers := register_answers script;
              unregister_answers := rest;
              availability_answers := availability_answers script;
              stub_address := stub_address script;
              proxy_address := proxy_address script |})
  | buildProxy _ _ _ => (proxy_address script, script)
  | isAvailable _ =>
      let (available, rest) := next_answer (availability_answers script) in
      (available, {| register_answers := register_answers script;
                     unregister_answers := unregister_answers script;
                     availability_answers := rest;
                     stub_address := stub_address script;
                     proxy_address := proxy_address script |})
  | sleep_for _ => (tt, script)
  | mutex_lock => (tt, script)
  | mutex_unlock => (tt, script)
  end.

(** [run fuel script t]: the trace, the result and the rest of the script
    when [t] returns within [fuel] steps; [None] when the fuel runs out. *)
Fixpoint run {R : Type} (fuel : nat) (script : Script) (t : itree runtimeE R)
  : option (list Event * R * Script) :=
  match fuel with
  | O => None
  | S fuel' =>
      match observe t with
      | RetF r => Some ([], r, script)
      | TauF t' => run fuel' script t'
      | VisF e k =>
          let (x, script') := answer script _ e in
          match run fuel' script' (k x) with
          | Some (tr, r, script'') => Some (record _ e x :: tr, r, script'')
          | None => None
          end
      end
  end.

(** [t], run against [script], returns [r] after the events [tr]. *)
Definition runs_to {R : Type} (fuel : nat) (script : Script)
                   (t : itree runtimeE R) (tr : list Event) (r : R) : Prop :=
  match run fuel script t with
  | Some (tr', r', _) => tr' = tr /\ r' = r
  | None => False
  end.

End ManagerImpl.

(** ** Vocabulary for the properties

    Names for the traces the functions turn out to have, and for the kinds of
    events the properties speak of. *)

Module Shapes.
Import Utils ManagerImpl.

(** A registration or an unregistration attempt, failed or not. *)
Definition is_registration (ev : Event) : bool :=
  match ev with Registered _ _ _ _ _ => true | _ => false end.

Definition is_unregistration (ev : Event) : bool :=
  match ev with Unregistered _ _ _ _ => true | _ => false end.

(** A poll of the availability probe. *)
Definition is_poll (ev : Event) : bool :=
  match ev with AvailabilityRead _ _ => true | _ => false end.

(** A poll that reports available, and one that reports unavailable. *)
Definition is_available_poll (ev : Event) : bool :=
  match ev with AvailabilityRead _ true => true | _ => false end.

Definition is_unavailable_poll (ev : Event) : bool :=
  match ev with AvailabilityRead _ false => true | _ => false end.

Definition is_sleep (ev : Event) : bool :=
  match ev with Slept _ => true | _ => false end.

Definition is_log (ev : Event) : bool :=
  match ev with Logged _ => true | _ => false end.

(** A call into the external runtime or its proxy: anything but logging,
    allocating, sleeping and locking. *)
Definition is_runtime_call (ev : Event) : bool :=
  match ev with
  | PropertySet _ _ | RuntimeGot | Registered _ _ _ _ _ | Unregistered _ _ _ _
  | ProxyBuilt _ _ _ _ | AvailabilityRead _ _ => true
  | Logged _ | StubMade _ | Slept _ | Locked | Unlocked => false
  end.

Definition count (kind : Event -> bool) (tr : list Event) : nat :=
  List.length (filter kind tr).

(** The answers a trace holds to the calls of one kind, in order: [answer]
    picks the calls of that kind. *)
Definition answers (answer : Event -> option bool) (tr : list Event)
  : list bool :=
  flat_map (fun ev => match answer ev with Some b => [b] | None => [] end) tr.

Definition registration_answer (ev : Event) : option bool :=
  match ev with Registered _ _ _ _ ok => Some ok | _ => None end.

Definition unregistration_answer (ev : Event) : option bool :=
  match ev with Unregistered _ _ _ ok => Some ok | _ => None end.

Definition poll_answer (ev : Event) : option bool :=
  match ev with AvailabilityRead _ available => Some available | _ => None end.

(** What the runtime said to the registration attempts, to the
    unregistration attempts, and to the polls of a trace. *)
Definition registration_answers : list Event -> list bool :=
  answers registration_answer.

Definition unregistration_answers : list Event -> list bool :=
  answers unregistration_answer.

Definition poll_answers : list Event -> list bool :=
  answers poll_answer.

(** An example of [__PRETTY_FUNCTION__]: the texts GCC gives.  The properties
    below hold whatever the compiler gives; this one serves to run them. *)
Definition gcc_pretty_function (f : Function) : std_string :=
  match f with
  | Manager_launch_test_service =>
      str "void test_service::Manager::launch_test_service()"
  | Manager_terminate_test_service =>
      str "void test_service::Manager::terminate_test_service()"
  | Manager_register_service =>
      str "void test_service::Manager::register_service(const test_service::Manager::Service&) const"
  | Manager_unregister_service =>
      str "void test_service::Manager::unregister_service(const test_service::Manager::Service&)"
  | Manager_wait_service =>
      str "void test_service::Manager::wait_service(const test_service::Manager::Service&, bool) const"
  | Stub_method name =>
      str "virtual void test_service::TestServiceStubImpl::" ++ name
      ++ str "(std::shared_ptr<CommonAPI::ClientId>)"
  end.

(** The transitions a trace shows: [true] for a registration the runtime
    accepted, [false] for an unregistration it accepted. *)
Definition transitions (tr : list Event) : list bool :=
  flat_map (fun ev => match ev with
                      | Registered _ _ _ _ true => [true]
                      | Unregistered _ _ _ true => [false]
                      | _ => []
                      end) tr.

(** [alternating next l]: [l] is [next], then its negation, and so on. *)
Fixpoint alternating (next : bool) (l : list bool) : Prop :=
  match l with
  | [] => True
  | b :: l' => b = next /\ alternating (negb next) l'
  end.

Definition is_lock_event (ev : Event) : bool :=
  match ev with Locked | Unlocked => true | _ => false end.

(** What [Manager::instance()] performs and returns, by the static it
    finds. *)
Definition construction_trace (static_manager : option Manager)
  : list Event :=
  match static_manager with
  | Some _ => []
  | None => [PropertySet (str "LibraryBase") SOMEIP_GEN_LIBRARY_NAME_BASE;
             RuntimeGot]
  end.

Definition manager_of (static_manager : option Manager) : Manager :=
  match static_manager with
  | Some manager => manager
  | None => {| running_service := None |}
  end.

(** Addresses for the examples. *)
Definition example_handle : StubPtr := 7%nat.
Definition example_proxy : ProxyPtr := 3%nat.

(** A runtime that refuses [K] registrations and [K'] unregistrations, and
    shows the availabilities [polls], at the example addresses. *)
Definition example_script (K K' : nat) (polls : list bool) : Script :=
  {| register_answers := repeat false K ++ [true];
     unregister_answers := repeat false K' ++ [true];
     availability_answers := polls;
     stub_address := example_handle;
     proxy_address := example_proxy |}.

(** A service whose four identity fields differ. *)
Definition example_service : Service :=
  {| meta := {| domain := str "d"; instance := str "i";
                interface := str "f"; connection := str "c" |};
     handle := example_handle |}.

(** A manager right after its constructor, and one that runs [service]. *)
Definition stopped_manager : Manager := {| running_service := None |}.

Definition running_manager (service : Service) : Manager :=
  {| running_service := Some service |}.

(** The [Service] that [create_service] returns when the allocator gives
    [handle]. *)
Definition created_service (handle : StubPtr) : Service :=
  {| meta := {| domain := SERVICE_DOMAIN;
                instance := SERVICE_INSTANCE;
                interface := SERVICE_INTERFACE;
                connection := SERVICE_CONNECTION |};
     handle := handle |}.

Definition register_call (service : Service) (ok : bool) : Event :=
  Registered (domain (meta service)) (instance (meta service))
             (handle service) (connection (meta service)) ok.

Definition unregister_call (service : Service) (ok : bool) : Event :=
  Unregistered (domain (meta service)) (interface (meta service))
               (instance (meta service)) ok.

Definition build_proxy_call (service : Service) (proxy : ProxyPtr) : Event :=
  ProxyBuilt (domain (meta service)) (instance (meta service))
             (connection (meta service)) proxy.

(** One failed attempt with what follows it: the log line and the sleep. *)
Definition failed_register_round (service : Service) : list Event :=
  [register_call service false;
   Logged (LogText (str "Couldn't register service, trying again..."));
   Slept RETRY_TIMEOUT].

Definition failed_unregister_round (service : Service) : list Event :=
  [unregister_call service false;
   Logged (LogText (str "Couldn't unregister service, trying again..."));
   Slept RETRY_TIMEOUT].

(** One poll that does not show the awaited value, and the sleep after it. *)
Definition failed_poll_round (proxy : ProxyPtr) (to_be_available : bool)
  : list Event :=
  [AvailabilityRead proxy (negb to_be_available); Slept RETRY_TIMEOUT].

(** [rounds K round]: [round], [K] times over. *)
Definition rounds (K : nat) (round : list Event) : list Event :=
  List.concat (repeat round K).

Section Scoped.

Variable __PRETTY_FUNCTION__ : Function -> std_string.

(** The two lines a [ScopedFunctionLogger] writes in function [f]. *)
Definition entered (f : Function) : Event :=
  Logged (LogText (str "[" ++ __METHOD_NAME__ __PRETTY_FUNCTION__ f
                       ++ str "] ENTER")).

Definition exited (f : Function) : Event :=
  Logged (LogText (str "[" ++ __METHOD_NAME__ __PRETTY_FUNCTION__ f
                       ++ str "] EXIT")).

(** [register_service] when the runtime refuses [K] times and then accepts. *)
Definition register_service_trace (service : Service) (K : nat)
  : list Event :=
  [entered Manager_register_service; RuntimeGot]
  ++ rounds K (failed_register_round service)
  ++ [register_call service true; exited Manager_register_service].

Definition unregister_service_trace (service : Service) (K : nat)
  : list Event :=
  [entered Manager_unregister_service; RuntimeGot]
  ++ rounds K (failed_unregister_round service)
  ++ [unregister_call service true; exited Manager_unregister_service].

(** [wait_service] when the runtime builds [proxy], and the awaited value
    shows at poll [J + 1]. *)
Definition wait_service_trace (service : Service) (to_be_available : bool)
                              (proxy : ProxyPtr) (J : nat) : list Event :=
  [entered Manager_wait_service; RuntimeGot; build_proxy_call service proxy]
  ++ rounds J (failed_poll_round proxy to_be_available)
  ++ [AvailabilityRead proxy to_be_available; exited Manager_wait_service].

(** [launch_test_service] from an empty slot. *)
Definition launch_trace (handle : StubPtr) (K : nat)
                        (proxy : ProxyPtr) (J : nat) : list Event :=
  [entered Manager_launch_test_service; StubMade handle]
  ++ register_service_trace (created_service handle) K
  ++ wait_service_trace (created_service handle) true proxy J
  ++ [exited Manager_launch_test_service].

(** [terminate_test_service] from a slot that holds [service]. *)
Definition terminate_trace (service : Service) (K : nat)
                           (proxy : ProxyPtr) (J : nat) : list Event :=
  [entered Manager_terminate_test_service]
  ++ unregister_service_trace service K
  ++ wait_service_trace service false proxy J
  ++ [exited Manager_terminate_test_service].

(** The beginning of [launch_trace] up to the registration the runtime
    accepts, and of [terminate_trace] up to the accepted unregistration. *)
Definition launch_until_registered (handle : StubPtr) (K : nat)
  : list Event :=
  [entered Manager_launch_test_service; StubMade handle;
   entered Manager_register_service; RuntimeGot]
  ++ rounds K (failed_register_round (created_service handle))
  ++ [register_call (created_service handle) true].

Definition terminate_until_unregistered (service : Service) (K : nat)
  : list Event :=
  [entered Manager_terminate_test_service;
   entered Manager_unregister_service; RuntimeGot]
  ++ rounds K (failed_unregister_round service)
  ++ [unregister_call service true].

(** The two calls that find nothing to do. *)
Definition ignored_launch_trace : list Event :=
  [entered Manager_launch_test_service;
   Logged (LogText
     (str "Ignoring an attempt to launch - service is already launched."));
   exited Manager_launch_test_service].

Definition ignored_terminate_trace : list Event :=
  [entered Manager_terminate_test_service;
   Logged (LogText
     (str "Ignoring an attempt to terminate - service hasn't been launched."));
   exited Manager_terminate_test_service].

(** The managers a caller can get to from a fresh one. *)
Definition reachable (this : Manager) : Prop :=
  exists cs tr,
    returns record (calls __PRETTY_FUNCTION__ cs {| running_service := None |})
            tr this.

End Scoped.

End Shapes.

(** ** More vocabulary: the log read back, what the runtime hands out,
       the time asleep, and a caller's session *)

Module LogReading.
Import Utils ManagerImpl StubImpl.

(** A log line is the ENTER line or the EXIT line of a
    [ScopedFunctionLogger], with the name it holds, or another line. *)
Inductive LineKind : Type :=
| EnterLine (name : std_string)
| ExitLine (name : std_string)
| OtherLine.

(** [s] without [prefix] at its beginning, if it begins with it. *)
Fixpoint strip_prefix (prefix s : std_string) : option std_string :=
  match prefix, s with
  | [], _ => Some s
  | _ :: _, [] => None
  | a :: prefix', b :: s' =>
      if Ascii.eqb a b then strip_prefix prefix' s' else None
  end.

Definition strip_suffix (suffix s : std_string) : option std_string :=
  option_map (@rev ascii) (strip_prefix (rev suffix) (rev s)).

Definition line_kind (message : LogMessage) : LineKind :=
  match message with
  | LogText text =>
      match strip_prefix (str "[") text with
      | Some rest =>
          match strip_suffix (str "] ENTER") rest with
          | Some name => EnterLine name
          | None =>
              match strip_suffix (str "] EXIT") rest with
              | Some name => ExitLine name
              | None => OtherLine
              end
          end
      | None => OtherLine
      end
  | LogUInt64 _ => OtherLine
  end.

(** The scopes a log leaves open, innermost first, when it starts with
    the scopes [stack] open; [None] when an EXIT line does not close the
    innermost open scope. *)
Fixpoint open_scopes (stack : list std_string) (log : list LogMessage)
  : option (list std_string) :=
  match log with
  | [] => Some stack
  | message :: log' =>
      match line_kind message with
      | EnterLine name => open_scopes (name :: stack) log'
      | ExitLine name =>
          match stack with
          | innermost :: stack' =>
              if list_eq_dec ascii_dec name innermost
              then open_scopes stack' log'
              else None
          | [] => None
          end
      | OtherLine => open_scopes stack log'
      end
  end.

(** The log lines of a trace of the manager, and of a trace of the stub. *)
Definition log_of (tr : list Event) : list LogMessage :=
  flat_map (fun ev => match ev with Logged message => [message] | _ => [] end)
           tr.

Definition stub_log_of {T : Type} (tr : list (StubEvent T))
  : list LogMessage :=
  flat_map (fun ev => match ev with
                      | StubLogged message => [message]
                      | Replied _ => []
                      end) tr.

End LogReading.

Module Accounting.
Import ManagerImpl Shapes.

(** The allocation of a stub, and the building of a probe. *)
Definition is_allocation (ev : Event) : bool :=
  match ev with StubMade _ => true | _ => false end.

Definition is_proxy_build (ev : Event) : bool :=
  match ev with ProxyBuilt _ _ _ _ => true | _ => false end.

(** What makes a loop of the manager go round once more: an attempt the
    runtime refused, or a poll that does not show the awaited value. *)
Definition is_failure (to_be_available : bool) (ev : Event) : bool :=
  match ev with
  | Registered _ _ _ _ ok => negb ok
  | Unregistered _ _ _ ok => negb ok
  | AvailabilityRead _ available => negb (Bool.eqb available to_be_available)
  | _ => false
  end.

(** The milliseconds a trace spends asleep. *)
Definition time_slept (tr : list Event) : Z :=
  fold_right (fun ev total => match ev with
                              | Slept milliseconds => milliseconds + total
                              | _ => total
                              end) 0 tr.

(** The sleep still owed for the failures so far: a failure adds
    [RETRY_TIMEOUT], a sleep takes its length off. *)
Definition owed_after (to_be_available : bool) (owed : Z) (ev : Event) : Z :=
  owed + (if is_failure to_be_available ev then RETRY_TIMEOUT else 0)
       - match ev with Slept milliseconds => milliseconds | _ => 0 end.

(** [keeps_pace b owed tr]: all along [tr], the sleep owed stays between
    nothing and one [RETRY_TIMEOUT]. *)
Fixpoint keeps_pace (to_be_available : bool) (owed : Z) (tr : list Event)
  : Prop :=
  match tr with
  | [] => True
  | ev :: tr' =>
      0 <= owed_after to_be_available owed ev <= RETRY_TIMEOUT
      /\ keeps_pace to_be_available (owed_after to_be_available owed ev) tr'
  end.

(** The sleep owed after a trace that starts with [owed]. *)
Definition owed_at_end (to_be_available : bool) (owed : Z) (tr : list Event)
  : Z :=
  owed + RETRY_TIMEOUT * Z.of_nat (count (is_failure to_be_available) tr)
  - time_slept tr.

(** A stretch of a trace that keeps pace and owes nothing at its end. *)
Definition settled (to_be_available : bool) (tr : list Event) : Prop :=
  keeps_pace to_be_available 0 tr /\ owed_at_end to_be_available 0 tr = 0.

End Accounting.

Module Callers.
Import Utils ManagerImpl.

Section Exported.

Variable __PRETTY_FUNCTION__ : Function -> std_string.

(** A caller's calls of the two exported functions, one after the other on
    one thread; the function-local static goes from each call to the
    next. *)
Definition exported (c : Call) (static_manager : option Manager)
  : itree runtimeE (option Manager) :=
  match c with
  | Launch => launch __PRETTY_FUNCTION__ static_manager
  | Terminate => terminate __PRETTY_FUNCTION__ static_manager
  end.

Fixpoint session (cs : list Call) (static_manager : option Manager)
  : itree runtimeE (option Manager) :=
  match cs with
  | [] => Ret static_manager
  | c :: cs' =>
      static_manager' <- exported c static_manager ;;
      session cs' static_manager'
  end.

End Exported.

End Callers.

(** ** Threads: the exported functions called concurrently

    Two threads share the function-local static and the mutex of [lib.cpp].
    A thread that calls an exported function goes through the function's
    statements: it takes the lock when the lock is free, runs
    [Manager::instance()] on the static as it is then, runs the method on the
    manager, and releases the lock when the scope ends.  What a statement
    does to the shared object is seen by the other thread when the statement
    returns.  The destructor of the static, run when the process exits, is
    the one statement of [~Manager()]. *)

Module Threads.
Import Utils ManagerImpl Callers.

Definition ThreadId : Type := bool.

(** What a thread is there for: a call of an exported function, or the
    destruction of the static. *)
Variant Job : Type :=
| Exported (c : Call)
| Destructor.

(** The statements whose callee is itself a run of events. *)
Variant Statement : Type :=
| InInstance (c : Call)
| InMethod
| InDestructor.

(** Where a thread stands: before the [lock_guard] of [launch] or
    [terminate]; within a statement, with what is left of its callee; at the
    end of the scope, where the [lock_guard] unlocks; before [~Manager()];
    done. *)
Inductive Phase : Type :=
| AtLock (c : Call)
| Running (statement : Statement) (t : itree runtimeE Manager)
| AtUnlock
| AtDestructor
| Finished.

Record Machine : Type := {
  shared_static : option Manager;
  lock_holder : option ThreadId;
  phase : ThreadId -> Phase
}.

Definition update (phases : ThreadId -> Phase) (tid : ThreadId) (p : Phase)
  : ThreadId -> Phase :=
  fun i => if Bool.eqb i tid then p else phases i.

(** [std::mutex]: [lock] goes through when no thread holds the mutex,
    [unlock] is for the thread that holds it. *)
Definition allowed (holder : option ThreadId) (tid : ThreadId)
                   {X : Type} (e : runtimeE X) : Prop :=
  match e with
  | mutex_lock => holder = None
  | mutex_unlock => holder = Some tid
  | _ => True
  end.

Definition holder_after (holder : option ThreadId) (tid : ThreadId)
                        {X : Type} (e : runtimeE X) : option ThreadId :=
  match e with
  | mutex_lock => Some tid
  | mutex_unlock => None
  | _ => holder
  end.

Section Steps.

Variable __PRETTY_FUNCTION__ : Function -> std_string.

(** What follows a statement that returned the manager [m]. *)
Definition next (statement : Statement) (m : Manager) : Phase :=
  match statement with
  | InInstance c => Running InMethod (call __PRETTY_FUNCTION__ c m)
  | InMethod => AtUnlock
  | InDestructor => Finished
  end.

(** One step of thread [tid]; the label is the event the step performs, if
    any.  [step_lock]: the [lock_guard] of lib.cpp 9 and 15 is constructed,
    and [Manager::instance()] of lines 10 and 16 is entered on the static as
    it is now.  [step_tau], [step_call], [step_return]: the callee's next
    step; a call is answered by the outside; when [instance()] returns, the
    static is constructed and the method of lines 11 and 17 is entered on
    it, and when the method returns, the manager is as the method left it.
    [step_unlock]: the scope ends at lines 12 and 18.  [step_destroy]:
    [~Manager()], manager.hpp 104, enters [terminate_test_service] on the
    static, if it was ever constructed. *)
Inductive thread_step (tid : ThreadId) (M : Machine)
  : option Event -> Machine -> Prop :=
| step_lock c :
    phase M tid = AtLock c ->
    lock_holder M = None ->
    thread_step tid M (Some Locked)
      {| shared_static := shared_static M;
         lock_holder := Some tid;
         phase := update (phase M) tid
                    (Running (InInstance c) (instance_ (shared_static M))) |}
| step_tau statement t t' :
    phase M tid = Running statement t ->
    observe t = TauF t' ->
    thread_step tid M None
      {| shared_static := shared_static M;
         lock_holder := lock_holder M;
         phase := update (phase M) tid (Running statement t') |}
| step_call statement t (X : Type) (e : runtimeE X) k (x : X) :
    phase M tid = Running statement t ->
    observe t = VisF e k ->
    allowed (lock_holder M) tid e ->
    thread_step tid M (Some (record X e x))
      {| shared_static := shared_static M;
         lock_holder := holder_after (lock_holder M) tid e;
         phase := update (phase M) tid (Running statement (k x)) |}
| step_return statement t m :
    phase M tid = Running statement t ->
    observe t = RetF m ->
    thread_step tid M None
      {| shared_static := Some m;
         lock_holder := lock_holder M;
         phase := update (phase M) tid (next statement m) |}
| step_unlock :
    phase M tid = AtUnlock ->
    lock_holder M = Some tid ->
    thread_step tid M (Some Unlocked)
      {| shared_static := shared_static M;
         lock_holder := None;
         phase := update (phase M) tid Finished |}
| step_destroy :
    phase M tid = AtDestructor ->
    thread_step tid M None
      {| shared_static := shared_static M;
         lock_holder := lock_holder M;
         phase := update (phase M) tid
                    match shared_static M with
                    | Some m =>
                        Running InDestructor (Manager_dtor __PRETTY_FUNCTION__ m)
                    | None => Finished
                    end |}.

(** The events [tr], all of thread [tid]. *)
Definition tag (tid : ThreadId) (tr : list Event) : list (ThreadId * Event) :=
  map (pair tid) tr.

Definition tagged (tid : ThreadId) (label : option Event)
  : list (ThreadId * Event) :=
  match label with
  | Some ev => [(tid, ev)]
  | None => []
  end.

(** [reaches M0 g M]: the threads, scheduled in some way, take the machine
    from [M0] to [M], performing the events [g], each with its thread. *)
Inductive reaches (M0 : Machine) : list (ThreadId * Event) -> Machine -> Prop :=
| reaches_start : reaches M0 [] M0
| reaches_step g M tid label M' :
    reaches M0 g M ->
    thread_step tid M label M' ->
    reaches M0 (g ++ tagged tid label) M'.

(** What the trace [tr] of a thread within a call of [c] tells, when the
    call found the static [s]: where the thread stands, and the static as
    the thread's statements have left it. *)
Inductive within_call (c : Call) (s : option Manager)
  : Phase -> list Event -> option Manager -> Prop :=
| within_instance t tri :
    (forall tr' res, is_trace record t tr' res ->
                     is_trace record (instance_ s) (tri ++ tr') res) ->
    within_call c s (Running (InInstance c) t) (Locked :: tri) s
| within_method m t tri trm :
    returns record (instance_ s) tri m ->
    (forall tr' res, is_trace record t tr' res ->
                     is_trace record (call __PRETTY_FUNCTION__ c m)
                              (trm ++ tr') res) ->
    within_call c s (Running InMethod t) (Locked :: tri ++ trm) (Some m)
| within_unlock m m' tri trm :
    returns record (instance_ s) tri m ->
    returns record (call __PRETTY_FUNCTION__ c m) trm m' ->
    within_call c s AtUnlock (Locked :: tri ++ trm) (Some m').

End Steps.

Definition first_phase (job : Job) : Phase :=
  match job with
  | Exported c => AtLock c
  | Destructor => AtDestructor
  end.

(** The machine before either thread has begun. *)
Definition start (jobs : ThreadId -> Job) (static_manager : option Manager)
  : Machine :=
  {| shared_static := static_manager;
     lock_holder := None;
     phase := fun tid => first_phase (jobs tid) |}.

(** A thread is in a lifecycle transition from its first statement to the
    end of its last. *)
Definition in_transition (p : Phase) : bool :=
  match p with
  | Running _ _ | AtUnlock => true
  | AtLock _ | AtDestructor | Finished => false
  end.

Section TwoCallers.

Variable __PRETTY_FUNCTION__ : Function -> std_string.
Variable c : ThreadId -> Call.
Variable s0 : option Manager.

Local Abbreviation exported := (exported __PRETTY_FUNCTION__).

(** Where two threads that each call an exported function can be, with the
    events [g] behind them: neither has begun; one, [first], is within its
    call and the other has not begun; [first] is done and the other has not
    begun; [first] is done and the other is within its call, which found the
    static as [first] left it; both are done. *)
Inductive serialized : list (ThreadId * Event) -> Machine -> Prop :=
| neither_begun M :
    (forall tid, phase M tid = AtLock (c tid)) ->
    lock_holder M = None ->
    shared_static M = s0 ->
    serialized [] M
| first_within first tr1 M :
    within_call __PRETTY_FUNCTION__ (c first) s0
                (phase M first) tr1 (shared_static M) ->
    phase M (negb first) = AtLock (c (negb first)) ->
    lock_holder M = Some first ->
    serialized (tag first tr1) M
| first_done first tr1 M :
    returns record (exported (c first) s0) tr1 (shared_static M) ->
    phase M first = Finished ->
    phase M (negb first) = AtLock (c (negb first)) ->
    lock_holder M = None ->
    serialized (tag first tr1) M
| second_within first tr1 s1 tr2 M :
    returns record (exported (c first) s0) tr1 s1 ->
    phase M first = Finished ->
    within_call __PRETTY_FUNCTION__ (c (negb first)) s1
                (phase M (negb first)) tr2 (shared_static M) ->
    lock_holder M = Some (negb first) ->
    serialized (tag first tr1 ++ tag (negb first) tr2) M
| both_done first tr1 s1 tr2 M :
    returns record (exported (c first) s0) tr1 s1 ->
    returns record (exported (c (negb first)) s1) tr2 (shared_static M) ->
    (forall tid, phase M tid = Finished) ->
    lock_holder M = None ->
    serialized (tag first tr1 ++ tag (negb first) tr2) M.

End TwoCallers.

End Threads.

(** * Part II: the properties *)

(** ** Traces: how they compose *)

Section TraceFacts.

Context {E : Type -> Type} {Ev : Type}.
Variable record : forall X : Type, E X -> X -> Ev.

Local Abbreviation trace_n := (trace_n record).
Local Abbreviation is_trace := (is_trace record).
Local Abbreviation returns := (returns record).

Lemma trace_n_start {R} n (t : itree E R) : trace_n n t [] None.
Proof. destruct n; left; auto. Qed.

Lemma trace_n_S {R} n (t : itree E R) tr res :
  trace_n n t tr res -> trace_n (S n) t tr res.
Proof.
  revert t tr res. induction n as [|n IH]; intros t tr res H.
  - destruct H as [H|[]]. left; exact H.
  - destruct H as [H|H]; [left; exact H|right].
    change (match observe t with
            | RetF r => tr = [] /\ res = Some r
            | TauF t' => trace_n (S n) t' tr res
            | VisF e k => exists x tr', tr = record _ e x :: tr'
                                        /\ trace_n (S n) (k x) tr' res
            end).
    destruct (observe t) as [r|t'|X e k].
    + exact H.
    + apply IH, H.
    + destruct H as (x & tr' & -> & H). exists x, tr'. split; auto.
Qed.

Lemma trace_n_le {R} n m (t : itree E R) tr res :
  (n <= m)%nat -> trace_n n t tr res -> trace_n m t tr res.
Proof. induction 1; auto using trace_n_S. Qed.

(** Only what [observe] shows of a tree matters. *)
Lemma trace_n_observe {R} n (t u : itree E R) tr res :
  observe t = observe u -> trace_n n t tr res -> trace_n n u tr res.
Proof.
  intros Hobs. destruct n; simpl; [tauto|]. rewrite Hobs. tauto.
Qed.

Lemma is_trace_observe {R} (t u : itree E R) tr res :
  observe t = observe u -> is_trace t tr res <-> is_trace u tr res.
Proof.
  intros Hobs; split; intros [n H]; exists n;
    [|symmetry in Hobs]; eapply trace_n_observe; eauto.
Qed.

Lemma is_trace_start {R} (t : itree E R) : is_trace t [] None.
Proof. exists O. apply trace_n_start. Qed.

(** One step of a run. *)
Lemma is_trace_step {R} (t : itree E R) tr res :
  is_trace t tr res <->
  (tr = [] /\ res = None) \/
  match observe t with
  | RetF r => tr = [] /\ res = Some r
  | TauF t' => is_trace t' tr res
  | VisF e k => exists x tr', tr = record _ e x :: tr' /\ is_trace (k x) tr' res
  end.
Proof.
  split.
  - intros [n H]. destruct n as [|n]; destruct H as [H|H]; auto; [easy|].
    right. destruct (observe t) as [r|t'|X e k].
    + exact H.
    + exists n; exact H.
    + destruct H as (x & tr' & -> & H). exists x, tr'. split; auto. exists n; auto.
  - intros [[-> ->]|H]; [apply is_trace_start|].
    destruct (observe t) as [r|t'|X e k] eqn:Hobs.
    + exists 1%nat. right. rewrite Hobs. exact H.
    + destruct H as [n H]. exists (S n). right. rewrite Hobs. exact H.
    + destruct H as (x & tr' & -> & [n H]). exists (S n). right. rewrite Hobs.
      exists x, tr'. auto.
Qed.

Lemma is_trace_Ret {R} (r : R) tr res :
  is_trace (Ret r) tr res <-> tr = [] /\ (res = None \/ res = Some r).
Proof. rewrite is_trace_step. cbn. tauto. Qed.

Lemma is_trace_Tau {R} (t : itree E R) tr res :
  is_trace (Tau t) tr res <-> is_trace t tr res.
Proof.
  rewrite is_trace_step. cbn. split; [|auto].
  intros [[-> ->]|H]; auto using is_trace_start.
Qed.

Lemma is_trace_trigger {X} (e : E X) tr res :
  is_trace (ITree.trigger e) tr res <->
  (tr = [] /\ res = None) \/
  exists x, tr = [record _ e x] /\ (res = None \/ res = Some x).
Proof.
  rewrite is_trace_step. cbn. split; (intros [H|H]; [left; exact H|right]).
  - destruct H as (x & tr' & -> & H). apply is_trace_Ret in H.
    destruct H as [-> H]. eauto.
  - destruct H as (x & -> & H). exists x, []. split; auto.
    apply is_trace_Ret. auto.
Qed.

(** A run can be watched up to any point. *)
Lemma trace_n_cut {R} n (t : itree E R) tr1 tr2 res :
  trace_n n t (tr1 ++ tr2) res -> trace_n n t tr1 None.
Proof.
  revert t tr1 tr2 res. induction n as [|n IH]; intros t tr1 tr2 res H.
  - destruct H as [[H _]|[]]. apply app_eq_nil in H as [-> _]. left; auto.
  - destruct tr1 as [|ev tr1]; [left; auto|].
    destruct H as [[H _]|H]; [discriminate H|right].
    destruct (observe t) as [r|t'|X e k].
    + destruct H as [H _]; discriminate H.
    + eapply IH, H.
    + destruct H as (x & tr' & Heq & H). injection Heq as -> <-.
      exists x, tr1. split; auto. eapply IH, H.
Qed.

Lemma is_trace_cut {R} (t : itree E R) tr1 tr2 res :
  is_trace t (tr1 ++ tr2) res -> is_trace t tr1 None.
Proof. intros [n H]. exists n. eapply trace_n_cut, H. Qed.

Lemma returns_cut {R} (t : itree E R) tr r :
  returns t tr r -> is_trace t tr None.
Proof. intros H. apply is_trace_cut with (tr2 := []) (res := Some r).
       rewrite app_nil_r. exact H. Qed.

(** *** Sequencing *)

Lemma observe_bind {R T} (t : itree E R) (k : R -> itree E T) :
  observe (ITree.bind t k) =
  observe (match observe t with
           | RetF r => k r
           | TauF t' => Tau (ITree.bind t' k)
           | VisF e h => Vis e (fun x => ITree.bind (h x) k)
           end).
Proof. reflexivity. Qed.

Lemma trace_n_bind {R T} n m (t : itree E R) (k : R -> itree E T)
      tr1 r tr2 res :
  trace_n n t tr1 (Some r) -> trace_n m (k r) tr2 res ->
  trace_n (n + m) (ITree.bind t k) (tr1 ++ tr2) res.
Proof.
  revert t tr1. induction n as [|n IH]; intros t tr1 Ht Hk.
  - destruct Ht as [[_ H]|[]]; discriminate H.
  - destruct Ht as [[_ H]|Ht]; [discriminate H|].
    eapply trace_n_observe; [symmetry; apply observe_bind|].
    destruct (observe t) as [r0|t'|X e h].
    + destruct Ht as [-> Heq]. injection Heq as <-.
      apply trace_n_le with (n := m); [lia|exact Hk].
    + right. cbn. apply IH; assumption.
    + destruct Ht as (x & tr' & -> & Ht). right. cbn.
      exists x, (tr' ++ tr2). split; [reflexivity|]. apply IH; assumption.
Qed.

Lemma trace_n_bind_cut {R T} n (t : itree E R) (k : R -> itree E T) tr :
  trace_n n t tr None -> trace_n n (ITree.bind t k) tr None.
Proof.
  revert t tr. induction n as [|n IH]; intros t tr Ht.
  - destruct Ht as [[-> _]|[]]. left; auto.
  - destruct Ht as [[-> _]|Ht]; [left; auto|].
    eapply trace_n_observe; [symmetry; apply observe_bind|].
    destruct (observe t) as [r0|t'|X e h].
    + destruct Ht as [_ H]; discriminate H.
    + right. cbn. apply IH, Ht.
    + destruct Ht as (x & tr' & -> & Ht). right. cbn.
      exists x, tr'. split; [reflexivity|]. apply IH, Ht.
Qed.

Lemma trace_n_bind_inv {R T} n (t : itree E R) (k : R -> itree E T) tr res :
  trace_n n (ITree.bind t k) tr res ->
  (res = None /\ trace_n n t tr None) \/
  exists r tr1 tr2, tr = tr1 ++ tr2 /\ trace_n n t tr1 (Some r)
                    /\ trace_n n (k r) tr2 res.
Proof.
  revert t tr. induction n as [|n IH]; intros t tr H.
  - destruct H as [[-> ->]|[]]. left. split; [reflexivity|apply trace_n_start].
  - destruct H as [[-> ->]|H].
    { left. split; [reflexivity|apply trace_n_start]. }
    assert (H' : trace_n (S n)
                   (match observe t with
                    | RetF r => k r
                    | TauF t' => Tau (ITree.bind t' k)
                    | VisF e h => Vis e (fun x => ITree.bind (h x) k)
                    end) tr res).
    { eapply trace_n_observe; [apply observe_bind|]. right. exact H. }
    clear H. destruct (observe t) as [r0|t'|X e h] eqn:Hobs.
    + right. exists r0, [], tr. repeat split; [|exact H'].
      right. rewrite Hobs. auto.
    + destruct H' as [[-> ->]|H'].
      { left. split; [reflexivity|apply trace_n_start]. }
      cbn in H'. apply IH in H'.
      destruct H' as [[-> Ht]|(r & tr1 & tr2 & -> & Ht & Hk)].
      * left. split; [reflexivity|]. right. rewrite Hobs. exact Ht.
      * right. exists r, tr1, tr2. repeat split.
        -- right. rewrite Hobs. exact Ht.
        -- apply trace_n_S, Hk.
    + destruct H' as [[-> ->]|H'].
      { left. split; [reflexivity|apply trace_n_start]. }
      cbn in H'. destruct H' as (x & tr' & -> & H'). apply IH in H'.
      destruct H' as [[-> Ht]|(r & tr1 & tr2 & -> & Ht & Hk)].
      * left. split; [reflexivity|]. right. rewrite Hobs. eauto.
      * right. exists r, (record _ e x :: tr1), tr2. repeat split.
        -- right. rewrite Hobs. eauto.
        -- apply trace_n_S, Hk.
Qed.

Lemma is_trace_bind {R T} (t : itree E R) (k : R -> itree E T) tr res :
  is_trace (ITree.bind t k) tr res <->
  (res = None /\ is_trace t tr None) \/
  exists r tr1 tr2, tr = tr1 ++ tr2 /\ returns t tr1 r
                    /\ is_trace (k r) tr2 res.
Proof.
  split.
  - intros [n H]. apply trace_n_bind_inv in H.
    destruct H as [[-> H]|(r & tr1 & tr2 & -> & Ht & Hk)].
    + left. split; [reflexivity|exists n; exact H].
    + right. exists r, tr1, tr2. repeat split; exists n; assumption.
  - intros [[-> [n H]]|(r & tr1 & tr2 & -> & [n Ht] & [m Hk])].
    + exists n. apply trace_n_bind_cut, H.
    + exists (n + m)%nat. eapply trace_n_bind; eassumption.
Qed.

Lemma returns_Ret {R} (r r' : R) tr :
  returns (Ret r) tr r' <-> tr = [] /\ r' = r.
Proof.
  unfold returns. rewrite is_trace_Ret.
  split; intros [-> H]; split; auto.
  - destruct H as [H|H]; [discriminate H|]. injection H; auto.
  - right; congruence.
Qed.

Lemma returns_trigger {X} (e : E X) tr (x : X) :
  returns (ITree.trigger e) tr x <-> tr = [record _ e x].
Proof.
  unfold returns. rewrite is_trace_trigger. split.
  - intros [[_ H]|(x' & -> & [H|H])]; try discriminate H.
    injection H as ->. reflexivity.
  - intros ->. right. exists x. auto.
Qed.

Lemma returns_bind {R T} (t : itree E R) (k : R -> itree E T) tr s :
  returns (ITree.bind t k) tr s <->
  exists r tr1 tr2, tr = tr1 ++ tr2 /\ returns t tr1 r /\ returns (k r) tr2 s.
Proof.
  unfold returns at 1. rewrite is_trace_bind. split.
  - intros [[H _]|H]; [discriminate H|exact H].
  - intros H. right. exact H.
Qed.

(** *** Loops *)

Lemma observe_while (cond : itree E bool) (body : itree E unit) :
  observe (while_loop cond body) =
  observe (ITree.bind
             (continue <- cond ;;
              if continue : bool then body ;; Ret (inl tt) else Ret (inr tt))
             (fun lr : unit + unit =>
                match lr with
                | inl l =>
                    Tau (ITree.iter
                           (fun _ : unit =>
                              continue <- cond ;;
                              if continue : bool then body ;; Ret (inl tt)
                              else Ret (inr tt)) l)
                | inr r => Ret r
                end)).
Proof. reflexivity. Qed.

Lemma while_trace_start (cond : itree E bool) (body : itree E unit) :
  while_trace record cond body [] None.
Proof. apply while_cut_cond, is_trace_start. Qed.

Lemma trace_n_while (cond : itree E bool) (body : itree E unit) n :
  forall tr res,
    trace_n n (while_loop cond body) tr res ->
    while_trace record cond body tr res.
Proof.
  induction n as [|n IH]; intros tr res H.
  - destruct H as [[-> ->]|[]]. apply while_trace_start.
  - apply (trace_n_observe _ _ _ _ _ (observe_while cond body)) in H.
    apply trace_n_bind_inv in H.
    destruct H as [[-> H1]|(lr & tr1 & tr2 & -> & H1 & H2)].
    + (* cut short within this iteration *)
      assert (Hit : is_trace
                (continue <- cond ;;
                 if continue : bool then body ;; Ret (inl tt)
                 else Ret (inr tt)) tr (@None (unit + unit)))
        by (exists (S n); exact H1).
      apply is_trace_bind in Hit.
      destruct Hit as [[_ Hc]|(c & tra & trb & -> & Hc & Hb)].
      * apply while_cut_cond, Hc.
      * destruct c.
        -- apply is_trace_bind in Hb.
           destruct Hb as [[_ Hb]|(u & trx & try & -> & Hbx & Hby)].
           ++ apply while_cut_body; assumption.
           ++ apply is_trace_Ret in Hby as [-> _]. rewrite app_nil_r.
              apply while_cut_body; [assumption|].
              eapply returns_cut, Hbx.
        -- apply is_trace_Ret in Hb as [-> _]. rewrite app_nil_r.
           apply while_cut_cond. eapply returns_cut, Hc.
    + (* this iteration ran to its end *)
      assert (Hit : returns
                (continue <- cond ;;
                 if continue : bool then body ;; Ret (inl tt)
                 else Ret (inr tt)) tr1 lr)
        by (exists (S n); exact H1).
      apply returns_bind in Hit.
      destruct Hit as (c & tra & trb & -> & Hc & Hb).
      destruct c.
      * apply returns_bind in Hb.
        destruct Hb as (u & trx & try & -> & Hbx & Hby).
        apply returns_Ret in Hby as [-> ->]. destruct u.
        rewrite app_nil_r, <- app_assoc.
        apply while_again; try assumption.
        destruct H2 as [[-> ->]|H2]; [apply while_trace_start|].
        cbn in H2. apply IH, H2.
      * apply returns_Ret in Hb as [-> ->]. rewrite app_nil_r.
        assert (Hk : is_trace (Ret tt) tr2 res) by (exists (S n); exact H2).
        apply is_trace_Ret in Hk as [-> Hres]. rewrite app_nil_r.
        destruct Hres as [->| ->].
        -- apply while_cut_cond. eapply returns_cut, Hc.
        -- apply while_exit, Hc.
Qed.

Lemma while_trace_is_trace (cond : itree E bool) (body : itree E unit) tr res :
  while_trace record cond body tr res ->
  is_trace (while_loop cond body) tr res.
Proof.
  induction 1 as [tr Hc|tr Hc|tr1 tr2 Hc Hb|tr1 tr2 tr3 res Hc Hb _ IH];
    apply (is_trace_observe _ _ _ _ (observe_while cond body));
    apply is_trace_bind.
  - right. exists (inr tt), tr, []. rewrite app_nil_r.
    repeat split; [|apply is_trace_Ret; auto].
    apply returns_bind. exists false, tr, []. rewrite app_nil_r.
    repeat split; [assumption|]. apply returns_Ret; auto.
  - left. split; [reflexivity|]. apply is_trace_bind. left. auto.
  - left. split; [reflexivity|]. apply is_trace_bind. right.
    exists true, tr1, tr2. repeat split; [assumption|].
    apply is_trace_bind. left. auto.
  - right. exists (inl tt), (tr1 ++ tr2), tr3. rewrite <- app_assoc.
    repeat split; [|apply is_trace_Tau, IH].
    apply returns_bind. exists true, tr1, tr2.
    repeat split; [assumption|].
    apply returns_bind. exists tt, tr2, []. rewrite app_nil_r.
    repeat split; [assumption|]. apply returns_Ret; auto.
Qed.

Lemma is_trace_while (cond : itree E bool) (body : itree E unit) tr res :
  is_trace (while_loop cond body) tr res <->
  while_trace record cond body tr res.
Proof.
  split.
  - intros [n H]. eapply trace_n_while, H.
  - apply while_trace_is_trace.
Qed.

(** A loop whose test and body each have one way to run: it returns after
    any number of rounds "test holds, body" and one test that fails. *)
Lemma returns_while (cond : itree E bool) (body : itree E unit)
      (holds fails round : list Ev) :
  (forall tr b, returns cond tr b <-> tr = if b : bool then holds else fails) ->
  (forall tr u, returns body tr u <-> tr = round) ->
  forall tr u,
    returns (while_loop cond body) tr u <->
    exists K : nat, tr = List.concat (repeat (holds ++ round) K) ++ fails.
Proof.
  intros Hcond Hbody tr u. unfold returns at 1. rewrite is_trace_while. split.
  - intros H. remember (Some u) as res eqn:Hres.
    induction H as [tr Hc|tr Hc|tr1 tr2 Hc Hb|tr1 tr2 tr3 res Hc Hb _ IH];
      try discriminate Hres.
    + exists O. apply Hcond in Hc. exact Hc.
    + destruct (IH Hres) as [K ->]. exists (S K).
      apply Hcond in Hc. apply Hbody in Hb. subst tr1 tr2.
      cbn. rewrite <- !app_assoc. reflexivity.
  - intros [K ->]. destruct u. induction K as [|K IH].
    + apply while_exit, Hcond. reflexivity.
    + cbn. rewrite <- !app_assoc. apply while_again; [| |exact IH].
      * apply Hcond. reflexivity.
      * apply (Hbody _ tt). reflexivity.
Qed.

(** *** What a tree can perform at all *)

Lemma only_performs_Ret {R} (P : Ev -> Prop) (r : R) :
  only_performs record P (Ret r : itree E R).
Proof. intros tr res H. apply is_trace_Ret in H as [-> _]. constructor. Qed.

Lemma only_performs_trigger {X} (P : Ev -> Prop) (e : E X) :
  (forall x, P (record _ e x)) -> only_performs record P (ITree.trigger e).
Proof.
  intros HP tr res H. apply is_trace_trigger in H.
  destruct H as [[-> _]|(x & -> & _)]; repeat constructor. apply HP.
Qed.

Lemma only_performs_bind {R T} (P : Ev -> Prop)
      (t : itree E R) (k : R -> itree E T) :
  only_performs record P t -> (forall r, only_performs record P (k r)) ->
  only_performs record P (ITree.bind t k).
Proof.
  intros Ht Hk tr res H. apply is_trace_bind in H.
  destruct H as [[_ H]|(r & tr1 & tr2 & -> & H1 & H2)].
  - eapply Ht, H.
  - apply Forall_app. split; [eapply Ht, H1|eapply Hk, H2].
Qed.

Lemma only_performs_while (P : Ev -> Prop)
      (cond : itree E bool) (body : itree E unit) :
  only_performs record P cond -> only_performs record P body ->
  only_performs record P (while_loop cond body).
Proof.
  intros Hc Hb tr res H. apply is_trace_while in H.
  induction H; repeat (apply Forall_app; split); eauto.
Qed.

(** *** Runs that can still return *)

Lemma can_always_return_Ret {R} (r : R) :
  can_always_return record (Ret r : itree E R).
Proof.
  intros tr H. apply is_trace_Ret in H as [-> _].
  exists [], r. apply returns_Ret. auto.
Qed.

Lemma can_always_return_trigger {X} (e : E X) (x0 : X) :
  can_always_return record (ITree.trigger e).
Proof.
  intros tr H. apply is_trace_trigger in H.
  destruct H as [[-> _]|(x & -> & _)].
  - exists [record _ e x0], x0. apply returns_trigger. reflexivity.
  - exists [], x. apply returns_trigger. reflexivity.
Qed.

Lemma can_always_return_bind {R T} (t : itree E R) (k : R -> itree E T) :
  can_always_return record t ->
  (forall r, can_always_return record (k r)) ->
  can_always_return record (ITree.bind t k).
Proof.
  intros Ht Hk tr H. apply is_trace_bind in H.
  destruct H as [[_ H]|(r & tr1 & tr2 & -> & H1 & H2)].
  - destruct (Ht _ H) as (tr' & r & Hr).
    destruct (Hk r [] (is_trace_start _)) as (tr'' & s & Hs).
    exists (tr' ++ tr''), s. apply returns_bind.
    exists r, (tr ++ tr'), tr''. rewrite app_assoc. auto.
  - destruct (Hk r _ H2) as (tr' & s & Hs).
    exists tr', s. apply returns_bind.
    exists r, tr1, (tr2 ++ tr'). rewrite app_assoc. auto.
Qed.

Lemma can_always_return_while (cond : itree E bool) (body : itree E unit) :
  can_always_return record cond ->
  can_always_return record body ->
  (exists tr, returns cond tr false) ->
  can_always_return record (while_loop cond body).
Proof.
  intros Hc Hb [trf Hf] tr H. apply is_trace_while in H.
  assert (Hexit : returns (while_loop cond body) trf tt)
    by (apply is_trace_while, while_exit, Hf).
  destruct (Hb [] (is_trace_start _)) as (trb & [] & Hbody).
  remember (@None unit) as res eqn:Hres.
  induction H as [tr Hx|tr Hx|tr1 tr2 Hx Hy|tr1 tr2 tr3 res Hx Hy Hw IH].
  - discriminate Hres.
  - destruct (Hc _ Hx) as (tr' & b & Hb').
    destruct b.
    + exists (tr' ++ trb ++ trf), tt. apply is_trace_while.
      rewrite app_assoc. apply while_again; try assumption.
      apply is_trace_while, Hexit.
    + exists tr', tt. apply is_trace_while, while_exit, Hb'.
  - destruct (Hb _ Hy) as (tr' & [] & Hy').
    exists (tr' ++ trf), tt. apply is_trace_while.
    rewrite <- app_assoc, (app_assoc tr2).
    apply while_again; try assumption. apply is_trace_while, Hexit.
  - destruct (IH Hres) as (tr' & [] & Hr).
    exists tr', tt. apply is_trace_while.
    rewrite <- !app_assoc. apply while_again; try assumption.
    apply is_trace_while, Hr.
Qed.

(** Every trace of such a tree is the beginning of a run that returns. *)
Lemma is_trace_extends {R} (t : itree E R) tr res :
  can_always_return record t -> is_trace t tr res ->
  exists tr' r, returns t (tr ++ tr') r.
Proof.
  intros Ht H. destruct res as [r|]; [|apply Ht, H].
  exists [], r. rewrite app_nil_r. exact H.
Qed.

(** What holds of every event of every returning run holds of every event. *)
Lemma only_performs_returning {R} (P : Ev -> Prop) (t : itree E R) :
  can_always_return record t ->
  (forall tr r, returns t tr r -> Forall P tr) ->
  only_performs record P t.
Proof.
  intros Ht HP tr res H.
  destruct (is_trace_extends _ _ _ Ht H) as (tr' & r & Hr).
  apply HP in Hr. apply Forall_app in Hr. tauto.
Qed.

End TraceFacts.

(** ** [std::string]: searching and slicing *)

Module StdStringFacts.
Import StdString.

Lemma starts_with_app needle rest : starts_with needle (needle ++ rest) = true.
Proof.
  induction needle as [|a needle IH]; cbn; [reflexivity|].
  rewrite Ascii.eqb_refl. exact IH.
Qed.

Lemma starts_with_true needle s :
  starts_with needle s = true -> exists rest, s = needle ++ rest.
Proof.
  revert s. induction needle as [|a needle IH]; intros s H.
  - exists s. reflexivity.
  - destruct s as [|b s]; [discriminate H|]. cbn in H.
    apply andb_true_iff in H as [Hab H]. apply Ascii.eqb_eq in Hab as ->.
    destruct (IH _ H) as [rest ->]. exists rest. reflexivity.
Qed.

Lemma first_occurrence_occurs needle s i :
  first_occurrence needle s = Some i ->
  exists after, skipn i s = needle ++ after.
Proof.
  revert i. induction s as [|c s IH]; intros i H; cbn in H.
  - destruct (starts_with needle []) eqn:Hs; [|discriminate H].
    injection H as <-. apply starts_with_true, Hs.
  - destruct (starts_with needle (c :: s)) eqn:Hs.
    + injection H as <-. apply starts_with_true, Hs.
    + destruct (first_occurrence needle s) as [j|]; [|discriminate H].
      injection H as <-. apply IH. reflexivity.
Qed.

Lemma first_occurrence_None needle s :
  first_occurrence needle s = None <-> ~ occurs needle s.
Proof.
  split.
  - intros H (before & after & ->). revert H.
    induction before as [|c before IH]; intros H.
    + cbn [app] in H. destruct (needle ++ after) eqn:Heq; cbn in H;
        rewrite <- ?Heq, starts_with_app in H; discriminate H.
    + cbn in H.
      destruct (starts_with needle (c :: before ++ needle ++ after));
        [discriminate H|].
      destruct (first_occurrence needle (before ++ needle ++ after));
        [discriminate H|]. apply IH. reflexivity.
  - intros H. destruct (first_occurrence needle s) as [i|] eqn:Hi; [|reflexivity].
    exfalso. apply H. apply first_occurrence_occurs in Hi as [after Hi].
    exists (firstn i s), after. rewrite <- Hi. symmetry. apply firstn_skipn.
Qed.

Lemma occurs_cons needle c s : occurs needle s -> occurs needle (c :: s).
Proof. intros (before & after & ->). exists (c :: before), after. reflexivity. Qed.

(** The occurrence of a two-character needle that no earlier one overlaps is
    the first. *)
Lemma first_occurrence_two a b before after :
  ~ occurs [a; b] (before ++ [a]) ->
  first_occurrence [a; b] (before ++ a :: b :: after)
  = Some (List.length before).
Proof.
  induction before as [|c before IH]; intros Hfirst.
  - cbn. rewrite !Ascii.eqb_refl. reflexivity.
  - cbn [app first_occurrence List.length].
    destruct (starts_with [a; b] (c :: before ++ a :: b :: after)) eqn:Hs.
    + exfalso. apply Hfirst. cbn in Hs.
      apply andb_true_iff in Hs as [Hc Hs]. apply Ascii.eqb_eq in Hc as <-.
      destruct before as [|d before]; cbn in Hs.
      * rewrite andb_true_r in Hs. apply Ascii.eqb_eq in Hs as <-.
        exists [], []. reflexivity.
      * rewrite andb_true_r in Hs. apply Ascii.eqb_eq in Hs as <-.
        exists [], (before ++ [a]). reflexivity.
    + rewrite IH; [reflexivity|].
      intros Ho. apply Hfirst. cbn. apply occurs_cons, Ho.
Qed.

Lemma last_occurrence_absent c s :
  ~ In c s -> last_occurrence [c] s = None.
Proof.
  induction s as [|d s IH]; intros Hc; cbn; [reflexivity|].
  rewrite IH by (intros H; apply Hc; right; exact H).
  destruct (Ascii.eqb c d) eqn:Hcd; [|reflexivity].
  apply Ascii.eqb_eq in Hcd. exfalso. apply Hc. left. auto.
Qed.

(** The occurrence of a character that none follows is the last. *)
Lemma last_occurrence_char c before after :
  ~ In c after ->
  last_occurrence [c] (before ++ c :: after) = Some (List.length before).
Proof.
  intros Hc. induction before as [|d before IH].
  - cbn. rewrite last_occurrence_absent by exact Hc.
    rewrite Ascii.eqb_refl. reflexivity.
  - cbn [app last_occurrence List.length]. rewrite IH. reflexivity.
Qed.

Lemma last_occurrence_lt c s i :
  last_occurrence [c] s = Some i -> (i < List.length s)%nat.
Proof.
  revert i. induction s as [|d s IH]; intros i H; cbn in H; [discriminate H|].
  destruct (last_occurrence [c] s) as [j|].
  - injection H as <-. cbn. specialize (IH j eq_refl). lia.
  - destruct (Ascii.eqb c d); [|discriminate H]. injection H as <-. cbn. lia.
Qed.

Lemma size_app s1 s2 : size (s1 ++ s2) = size s1 + size s2.
Proof. unfold size. rewrite length_app. lia. Qed.

Lemma size_nonneg s : 0 <= size s.
Proof. unfold size. lia. Qed.

(** [substr] cuts the middle out of [before ++ middle ++ after]. *)
Lemma substr_middle before middle after :
  substr (before ++ middle ++ after) (size before) (size middle)
  = Some middle.
Proof.
  unfold substr. rewrite !size_app.
  pose proof (size_nonneg middle). pose proof (size_nonneg after).
  destruct (Z.ltb_spec (size before + (size middle + size after)) (size before));
    [lia|].
  f_equal. unfold size. rewrite Nat2Z.id.
  rewrite skipn_app, skipn_all, Nat.sub_diag. cbn [app skipn].
  rewrite Z.min_l by lia. rewrite Nat2Z.id.
  rewrite firstn_app, firstn_all, Nat.sub_diag. cbn. apply app_nil_r.
Qed.

Lemma substr_prefix head rest :
  substr (head ++ rest) 0 (size head) = Some head.
Proof. apply (substr_middle [] head rest). Qed.

(** [substr] does not throw from a position within the string. *)
Lemma substr_within s pos n :
  pos <= size s -> exists r, substr s pos n = Some r.
Proof.
  intros H. unfold substr. destruct (Z.ltb_spec (size s) pos); [lia|]. eauto.
Qed.

Lemma substr_size s pos n r :
  0 <= pos -> substr s pos n = Some r -> size r <= size s - pos.
Proof.
  unfold substr. intros Hpos H.
  destruct (Z.ltb_spec (size s) pos); [discriminate H|]. injection H as <-.
  unfold size in *. rewrite length_firstn, length_skipn. lia.
Qed.

Lemma wrap_small z : 0 <= z < size_t_modulus -> wrap z = z.
Proof. apply Z.mod_small. Qed.

Lemma wrap_le z : 0 <= z -> 0 <= wrap z <= z.
Proof.
  intros H. unfold wrap. split.
  - apply Z.mod_pos_bound. reflexivity.
  - apply Z.mod_le; [exact H|reflexivity].
Qed.

End StdStringFacts.

(** ** utils.hpp: [method_name] *)

Module UtilsFacts.
Import StdString StdStringFacts Utils.

(** No input makes [method_name] throw: [begin] never lies past the end. *)
Lemma method_name_never_throws prettyFunction :
  exists name, method_name prettyFunction = Some name.
Proof.
  unfold method_name.
  destruct (substr_within prettyFunction 0
              (find prettyFunction (str "::")) (size_nonneg _)) as [head Hhead].
  rewrite Hhead.
  assert (Hbegin : wrap (rfind head (str " ") + 1) <= size prettyFunction).
  { apply substr_size in Hhead; [|lia].
    unfold rfind. cbn [str list_ascii_of_string].
    destruct (last_occurrence _ head) as [i|] eqn:Hi; cbn [to_size_t].
    - apply last_occurrence_lt in Hi.
      pose proof (wrap_le (Z.of_nat i + 1) ltac:(lia)). unfold size in *. lia.
    - pose proof (size_nonneg prettyFunction). vm_compute (wrap (npos + 1)). lia. }
  destruct (substr_within prettyFunction _
              (wrap (rfind prettyFunction (str "(")
                     - wrap (rfind head (str " ") + 1))) Hbegin) as [name ->].
  eauto.
Qed.

(** C9.  On a text [pre ++ " " ++ q ++ "::" ++ rest ++ "(" ++ tail] in which
    the space shown is the last one before the first "::" ([q] has no space,
    and no "::" starts before the one shown) and the "(" shown is the last
    one, [method_name] returns what stands between that space and that "(",
    followed by "()": [q ++ "::" ++ rest ++ "()"].  A [std::string] holds
    fewer than [2^64] characters. *)
Theorem method_name_strips_return_type_and_parameters
        (pre q rest tail : std_string) :
  size (pre ++ str " " ++ q ++ str "::" ++ rest ++ str "(" ++ tail)
    < size_t_modulus ->
  ~ In " "%char q ->
  ~ occurs (str "::") (pre ++ str " " ++ q ++ str ":") ->
  ~ In "("%char tail ->
  method_name (pre ++ str " " ++ q ++ str "::" ++ rest ++ str "(" ++ tail)
  = Some (q ++ str "::" ++ rest ++ str "()").
Proof.
  cbn [str list_ascii_of_string]. intros Hsize Hq Hfirst Htail.
  set (head := pre ++ [" "%char] ++ q).
  set (name := q ++ [":"; ":"]%char ++ rest).
  assert (Hs1 : pre ++ [" "%char] ++ q ++ [":"; ":"]%char ++ rest
                    ++ ["("%char] ++ tail
                = head ++ ":"%char :: ":"%char :: (rest ++ "("%char :: tail)).
  { unfold head. rewrite <- !app_assoc. reflexivity. }
  assert (Hs2 : pre ++ [" "%char] ++ q ++ [":"; ":"]%char ++ rest
                    ++ ["("%char] ++ tail
                = (pre ++ [" "%char]) ++ name ++ ("("%char :: tail)).
  { unfold name. rewrite <- !app_assoc. reflexivity. }
  assert (Hs3 : pre ++ [" "%char] ++ q ++ [":"; ":"]%char ++ rest
                    ++ ["("%char] ++ tail
                = ((pre ++ [" "%char]) ++ name) ++ "("%char :: tail).
  { rewrite Hs2, <- !app_assoc. reflexivity. }
  assert (Hcolons : find (pre ++ [" "%char] ++ q ++ [":"; ":"]%char ++ rest
                             ++ ["("%char] ++ tail) [":"; ":"]%char
                    = size head).
  { unfold find. rewrite Hs1, first_occurrence_two; [reflexivity|].
    unfold head. rewrite <- !app_assoc. exact Hfirst. }
  assert (Hspace : rfind head [" "%char] = size pre).
  { unfold rfind, head. cbn [app].
    rewrite last_occurrence_char by exact Hq. reflexivity. }
  assert (Hparen : rfind (pre ++ [" "%char] ++ q ++ [":"; ":"]%char ++ rest
                             ++ ["("%char] ++ tail) ["("%char]
                   = size ((pre ++ [" "%char]) ++ name)).
  { unfold rfind. rewrite Hs3.
    rewrite last_occurrence_char by exact Htail. reflexivity. }
  unfold method_name. cbn [str list_ascii_of_string].
  rewrite Hcolons.
  replace (substr _ 0 (size head)) with (Some head)
    by (rewrite Hs1; symmetry; apply substr_prefix).
  rewrite Hspace, Hparen.
  rewrite Hs2, !size_app in Hsize. rewrite !size_app.
  change (size [" "%char]) with 1 in *. change (size ("("%char :: tail))
    with (Z.pos (Pos.of_succ_nat (List.length tail))) in Hsize.
  pose proof (size_nonneg pre). pose proof (size_nonneg name).
  rewrite (wrap_small (size pre + 1)) by lia.
  replace (size pre + 1 + size name - (size pre + 1)) with (size name) by lia.
  rewrite wrap_small by lia.
  replace (size pre + 1) with (size (pre ++ [" "%char]))
    by (rewrite size_app; reflexivity).
  rewrite Hs2, substr_middle.
  unfold name. rewrite <- !app_assoc. reflexivity.
Qed.

(** The text GCC gives [Manager::launch_test_service], as an instance. *)
Lemma method_name_launch_test_service :
  method_name (str "void test_service::Manager::launch_test_service()")
  = Some (str "test_service::Manager::launch_test_service()").
Proof.
  apply (method_name_strips_return_type_and_parameters
           (str "void") (str "test_service")
           (str "Manager::launch_test_service") (str ")")).
  - vm_compute. reflexivity.
  - cbn. intuition discriminate.
  - apply first_occurrence_None. vm_compute. reflexivity.
  - cbn. intuition discriminate.
Defined.

End UtilsFacts.

(** ** utils.hpp: [method_name] on any text *)

Module UtilsEdgeFacts.
Import StdString StdStringFacts Utils.

Lemma last_occurrence_char_None c s :
  last_occurrence [c] s = None -> ~ In c s.
Proof.
  induction s as [|d s IH]; intros H Hin; [destruct Hin|]. cbn in H.
  destruct (last_occurrence [c] s); [discriminate H|].
  destruct (Ascii.eqb c d) eqn:Hcd; [discriminate H|].
  destruct Hin as [->|Hin]; [rewrite Ascii.eqb_refl in Hcd; discriminate Hcd|].
  exact (IH eq_refl Hin).
Qed.

(** The last occurrence of a character splits the string around it. *)
Lemma last_occurrence_char_split c s i :
  last_occurrence [c] s = Some i ->
  exists s1 s2, s = s1 ++ c :: s2 /\ List.length s1 = i /\ ~ In c s2.
Proof.
  revert i. induction s as [|d s IH]; intros i H; cbn in H; [discriminate H|].
  destruct (last_occurrence [c] s) as [j|] eqn:Hj.
  - injection H as <-. destruct (IH j eq_refl) as (s1 & s2 & -> & <- & Hs2).
    exists (d :: s1), s2. auto.
  - destruct (Ascii.eqb c d) eqn:Hcd; [|discriminate H]. injection H as <-.
    apply Ascii.eqb_eq in Hcd as <-. exists [], s. repeat split.
    apply last_occurrence_char_None, Hj.
Qed.

(** A negative difference of two [size_t] wraps around by [2^64]. *)
Lemma wrap_negative z :
  - size_t_modulus <= z < 0 -> wrap z = z + size_t_modulus.
Proof.
  intros Hz. unfold wrap. symmetry.
  apply Z.mod_unique with (q := -1); [left|]; unfold size_t_modulus in *; lia.
Qed.

(** [substr] with a count that reaches past the end copies up to the end. *)
Lemma substr_to_the_end before rest n :
  size rest <= n ->
  substr (before ++ rest) (size before) n = Some rest.
Proof.
  intros Hn. unfold substr. rewrite size_app.
  pose proof (size_nonneg rest).
  destruct (Z.ltb_spec (size before + size rest) (size before)); [lia|].
  f_equal. rewrite Z.min_r by lia.
  replace (size before + size rest - size before) with (size rest) by lia.
  unfold size. rewrite !Nat2Z.id.
  rewrite skipn_app, skipn_all, Nat.sub_diag. cbn [app skipn].
  rewrite firstn_all. reflexivity.
Qed.

(** What [method_name] searches for the space in: the text before the first
    "::", or all of the text when it has none. *)
Lemma head_of_the_text s :
  size s < size_t_modulus ->
  exists head tl,
    s = head ++ tl /\
    substr s 0 (find s (str "::")) = Some head /\
    (forall x y, s = x ++ str "::" ++ y ->
                 ~ occurs (str "::") (x ++ str ":") -> head = x) /\
    (~ occurs (str "::") s -> tl = []).
Proof.
  intros Hsize. cbn [str list_ascii_of_string].
  unfold find.
  destruct (first_occurrence [":"; ":"]%char s) as [c|] eqn:Hc;
    cbn [to_size_t].
  - destruct (first_occurrence_occurs _ _ _ Hc) as [y Hy].
    assert (Hlen : (c <= List.length s)%nat).
    { destruct (Nat.le_gt_cases c (List.length s)) as [Hle|Hgt]; [exact Hle|].
      rewrite skipn_all2 in Hy by lia. discriminate Hy. }
    exists (firstn c s), (skipn c s).
    split; [symmetry; apply firstn_skipn|]. split.
    + rewrite <- (firstn_skipn c s) at 1.
      replace (Z.of_nat c) with (size (firstn c s))
        by (unfold size; rewrite length_firstn; lia).
      apply substr_prefix.
    + split.
      * intros x y' Hs Hfirst. cbn [app] in Hs. subst s.
        rewrite first_occurrence_two in Hc by exact Hfirst.
        injection Hc as <-. rewrite firstn_app, firstn_all, Nat.sub_diag.
        cbn. apply app_nil_r.
      * intros Hno. exfalso. apply Hno. exists (firstn c s), y.
        rewrite <- Hy. symmetry. apply firstn_skipn.
  - exists s, []. split; [symmetry; apply app_nil_r|]. split.
    + rewrite <- (app_nil_r s) at 1.
      replace (substr (s ++ []) 0 npos) with (substr ([] ++ s) (size []) npos)
        by (rewrite app_nil_r; reflexivity).
      apply substr_to_the_end. unfold npos. lia.
    + split; [|reflexivity].
      intros x y Hs _. exfalso.
      apply first_occurrence_None in Hc. apply Hc. exists x, y. exact Hs.
Qed.

(** Where the name begins: right after the last space of the head, or, the
    search failing, at [npos + 1], which is 0. *)
Lemma begin_of_the_name head :
  size head < size_t_modulus ->
  exists before q,
    head = before ++ q /\
    wrap (rfind head (str " ") + 1) = size before /\
    (before = [] \/ exists b, before = b ++ str " ") /\
    ~ In " "%char q.
Proof.
  intros Hsize. cbn [str list_ascii_of_string]. unfold rfind.
  destruct (last_occurrence [" "%char] head) as [i|] eqn:Hi; cbn [to_size_t].
  - destruct (last_occurrence_char_split _ _ _ Hi) as (b & q & -> & <- & Hq).
    exists (b ++ [" "%char]), q. rewrite <- app_assoc. split; [reflexivity|].
    rewrite !size_app in *. change (size [" "%char]) with 1.
    pose proof (size_nonneg b). pose proof (size_nonneg (" "%char :: q)).
    split; [apply wrap_small; unfold size in *; cbn [List.length] in *; lia|].
    split; [|exact Hq].
    right. exists b. reflexivity.
  - exists [], head. split; [reflexivity|]. split; [reflexivity|].
    split; [left; reflexivity|]. apply last_occurrence_char_None, Hi.
Qed.

(** Where the name ends: right before the last "(" when that one does not
    lie before the beginning of the name, and at the end of the text
    otherwise, the count having wrapped around. *)
Lemma end_of_the_name before rest :
  size (before ++ rest) < size_t_modulus ->
  exists piece after,
    rest = piece ++ after /\
    substr (before ++ rest) (size before)
           (wrap (rfind (before ++ rest) (str "(") - size before))
    = Some piece /\
    (after = [] /\ ~ In "("%char piece \/
     exists a, after = str "(" ++ a /\ ~ In "("%char a).
Proof.
  intros Hsize. cbn [str list_ascii_of_string]. unfold rfind.
  pose proof (size_nonneg before) as Hb. pose proof (size_nonneg rest) as Hr.
  rewrite size_app in Hsize.
  destruct (last_occurrence ["("%char] (before ++ rest)) as [p|] eqn:Hp;
    cbn [to_size_t].
  - destruct (last_occurrence_char_split _ _ _ Hp) as (t1 & t2 & Hs & <- & Ht2).
    assert (Hlen : size before + size rest = size t1 + 1 + size t2).
    { rewrite <- size_app, Hs, size_app. unfold size. cbn [List.length]. lia. }
    pose proof (size_nonneg t2) as Ht.
    apply app_eq_app in Hs as [l [[-> Hl]|[-> Hl]]].
    + destruct l as [|c l].
      * cbn in Hl. subst rest. rewrite app_nil_r.
        exists [], ("("%char :: t2). split; [reflexivity|]. split.
        -- replace (Z.of_nat (List.length t1) - size t1) with 0
             by (unfold size; lia).
           change (wrap 0) with (size []).
           apply (substr_middle t1 [] ("("%char :: t2)).
        -- right. exists t2. auto.
      * cbn in Hl. injection Hl as <- ->.
        exists rest, []. split; [symmetry; apply app_nil_r|]. split.
        -- apply substr_to_the_end.
           rewrite !size_app in *.
           rewrite wrap_negative.
           ++ unfold size in *. cbn [List.length] in *. lia.
           ++ unfold size in *. cbn [List.length] in *. lia.
        -- left. split; [reflexivity|].
           intros Hin. apply Ht2. apply in_or_app. right. exact Hin.
    + exists l, ("("%char :: t2). split; [exact Hl|]. split.
      * subst rest.
        replace (Z.of_nat (List.length (before ++ l)) - size before)
          with (size l) by (unfold size; rewrite length_app; lia).
        rewrite wrap_small
          by (rewrite !size_app in *; pose proof (size_nonneg l);
              unfold size in *; cbn [List.length] in *; lia).
        apply substr_middle.
      * right. exists t2. auto.
  - apply last_occurrence_char_None in Hp.
    exists rest, []. split; [symmetry; apply app_nil_r|]. split.
    + apply substr_to_the_end. rewrite wrap_small; unfold npos; lia.
    + left. split; [reflexivity|].
      intros Hin. apply Hp. apply in_or_app. right. exact Hin.
Qed.

(** X10.  Whatever the text (of fewer than [2^64] characters),
    [method_name] returns a contiguous piece of it followed by "()".  The
    piece begins right after the last space that stands before the first
    "::" (before the end of the text, when it has no "::"), or at the
    beginning of the text when no such space exists; it ends right before
    the last "(" of the text, or at the end of the text when no "(" stands
    at or after its beginning. *)
Theorem method_name_returns_a_piece_of_the_text (s : std_string) :
  size s < size_t_modulus ->
  exists before piece after,
    s = before ++ piece ++ after /\
    method_name s = Some (piece ++ str "()") /\
    (before = [] \/ exists b, before = b ++ str " ") /\
    (forall x y, s = x ++ str "::" ++ y ->
                 ~ occurs (str "::") (x ++ str ":") ->
                 exists q, x = before ++ q /\ ~ In " "%char q) /\
    (~ occurs (str "::") s -> ~ In " "%char (piece ++ after)) /\
    (after = [] /\ ~ In "("%char piece \/
     exists a, after = str "(" ++ a /\ ~ In "("%char a).
Proof.
  intros Hsize.
  destruct (head_of_the_text s Hsize) as (head & tl & Hs & Hhead & Hx & Htl).
  assert (Hsize' : size head < size_t_modulus).
  { rewrite Hs, size_app in Hsize. pose proof (size_nonneg tl). lia. }
  destruct (begin_of_the_name head Hsize')
    as (before & q & Hq & Hbegin & Hbefore & Hspace).
  assert (Hs' : s = before ++ (q ++ tl)).
  { rewrite Hs, Hq, <- app_assoc. reflexivity. }
  destruct (end_of_the_name before (q ++ tl))
    as (piece & after & Hrest & Hname & Hafter).
  { rewrite <- Hs'. exact Hsize. }
  exists before, piece, after.
  split; [rewrite <- Hrest; exact Hs'|]. split.
  - unfold method_name. rewrite Hhead, Hbegin. rewrite <- Hs' in Hname.
    rewrite Hname. reflexivity.
  - split; [exact Hbefore|]. split; [|split; [|exact Hafter]].
    + intros x y Hxy Hfirst. exists q. rewrite <- Hq.
      split; [symmetry; exact (Hx x y Hxy Hfirst)|exact Hspace].
    + intros Hno. rewrite <- Hrest, (Htl Hno), app_nil_r. exact Hspace.
Qed.

(** X12.  A text with no space and no "(" comes back whole, followed by
    "()": both searches fail with [npos]; [npos + 1] wraps to 0, and the
    count [npos - 0] is cut down to the length of the text. *)
Theorem method_name_without_markers (s : std_string) :
  size s < size_t_modulus ->
  ~ In " "%char s -> ~ In "("%char s ->
  method_name s = Some (s ++ str "()").
Proof.
  intros Hsize Hspace Hparen.
  destruct (head_of_the_text s Hsize) as (head & tl & Hs & Hhead & _ & _).
  assert (Hsize' : size head < size_t_modulus).
  { rewrite Hs, size_app in Hsize. pose proof (size_nonneg tl). lia. }
  destruct (begin_of_the_name head Hsize')
    as (before & q & Hq & Hbegin & Hbefore & _).
  assert (Hs' : s = before ++ (q ++ tl)).
  { rewrite Hs, Hq, <- app_assoc. reflexivity. }
  destruct (end_of_the_name before (q ++ tl))
    as (piece & after & Hrest & Hname & Hafter).
  { rewrite <- Hs'. exact Hsize. }
  unfold method_name. rewrite Hhead, Hbegin. rewrite <- Hs' in Hname.
  rewrite Hname. do 2 f_equal.
  destruct Hbefore as [->|[b ->]].
  - destruct Hafter as [[-> _]|(a & -> & _)].
    + rewrite app_nil_r in Hrest. rewrite Hs', Hrest. reflexivity.
    + exfalso. apply Hparen. rewrite Hs', Hrest.
      apply in_or_app. right. apply in_or_app. right. left. reflexivity.
  - exfalso. apply Hspace. rewrite Hs'.
    apply in_or_app. left. apply in_or_app. right. left. reflexivity.
Qed.

(** X11.  A text with no return type, as the compiler gives for a
    constructor: when no space stands before the first "::", the name
    begins at the beginning of the text. *)
Theorem method_name_without_return_type (q rest tail : std_string) :
  size (q ++ str "::" ++ rest ++ str "(" ++ tail) < size_t_modulus ->
  ~ In " "%char q ->
  ~ occurs (str "::") (q ++ str ":") ->
  ~ In "("%char tail ->
  method_name (q ++ str "::" ++ rest ++ str "(" ++ tail)
  = Some (q ++ str "::" ++ rest ++ str "()").
Proof.
  intros Hsize Hq Hfirst Htail.
  set (s := q ++ str "::" ++ rest ++ str "(" ++ tail) in *.
  destruct (head_of_the_text s Hsize) as (head & tl & Hs & Hhead & Hx & _).
  specialize (Hx q (rest ++ str "(" ++ tail) eq_refl Hfirst). subst head.
  assert (Hspace : rfind q (str " ") = npos).
  { unfold rfind. cbn [str list_ascii_of_string].
    rewrite (last_occurrence_absent _ _ Hq). reflexivity. }
  unfold method_name. rewrite Hhead, Hspace.
  cbn [str list_ascii_of_string].
  change (wrap (npos + 1)) with (size []).
  assert (Hs3 : s = [] ++ (q ++ [":"; ":"]%char ++ rest) ++ "("%char :: tail).
  { unfold s. cbn [str list_ascii_of_string app]. rewrite <- !app_assoc.
    reflexivity. }
  assert (Hparen : rfind s ["("%char] = size (q ++ [":"; ":"]%char ++ rest)).
  { unfold rfind. rewrite Hs3. cbn [app].
    rewrite last_occurrence_char by exact Htail. reflexivity. }
  rewrite Hparen. change (size []) with 0. rewrite Z.sub_0_r.
  rewrite wrap_small.
  - rewrite Hs3 at 1. change 0 with (size []). rewrite substr_middle.
    cbn [str list_ascii_of_string]. rewrite <- !app_assoc. reflexivity.
  - rewrite Hs3, !size_app in Hsize. rewrite !size_app.
    unfold size in *. cbn [List.length] in *. lia.
Qed.

(** X12 at work. *)
Lemma method_name_of_a_bare_word :
  method_name (str "main") = Some (str "main()").
Proof.
  apply (method_name_without_markers (str "main")).
  - vm_compute. reflexivity.
  - cbn. intuition discriminate.
  - cbn. intuition discriminate.
Defined.

(** X11 at work: the text GCC gives the constructor of [Manager]. *)
Lemma method_name_of_a_constructor :
  method_name (str "test_service::Manager::Manager()")
  = Some (str "test_service::Manager::Manager()").
Proof.
  apply (method_name_without_return_type
           (str "test_service") (str "Manager::Manager") (str ")")).
  - vm_compute. reflexivity.
  - cbn. intuition discriminate.
  - apply first_occurrence_None. vm_compute. reflexivity.
  - cbn. intuition discriminate.
Defined.

(** X10 at work, on a text whose parameter list holds a "(": the piece
    runs up to that one. *)
Lemma method_name_cuts_at_the_last_parenthesis :
  exists before piece after,
    str "void ns::f(std::function<void(int)>)" = before ++ piece ++ after /\
    method_name (str "void ns::f(std::function<void(int)>)")
    = Some (piece ++ str "()") /\
    (before = [] \/ exists b, before = b ++ str " ") /\
    (forall x y, str "void ns::f(std::function<void(int)>)"
                 = x ++ str "::" ++ y ->
                 ~ occurs (str "::") (x ++ str ":") ->
                 exists q, x = before ++ q /\ ~ In " "%char q) /\
    (~ occurs (str "::") (str "void ns::f(std::function<void(int)>)") ->
     ~ In " "%char (piece ++ after)) /\
    (after = [] /\ ~ In "("%char piece \/
     exists a, after = str "(" ++ a /\ ~ In "("%char a).
Proof.
  apply (method_name_returns_a_piece_of_the_text
           (str "void ns::f(std::function<void(int)>)")).
  vm_compute. reflexivity.
Defined.

End UtilsEdgeFacts.

(** ** utils.hpp: the scoped logger *)

Section ScopedLoggerFacts.

Context {E : Type -> Type} {Ev : Type} `{Logging E}.
Variable record : forall X : Type, E X -> X -> Ev.
Variable __PRETTY_FUNCTION__ : Function -> std_string.

Local Abbreviation logged message :=
  (record unit (COMMONAPI_INFO message) tt).

Lemma returns_LOG message tr u :
  returns record (Utils.LOG message) tr u <-> tr = [logged message].
Proof. unfold Utils.LOG. rewrite returns_trigger. destruct u. reflexivity. Qed.

Lemma only_performs_LOG (P : Ev -> Prop) message :
  P (logged message) -> only_performs record P (Utils.LOG message).
Proof. intros HP. apply only_performs_trigger. intros []. exact HP. Qed.

Local Abbreviation enter_line f :=
  (logged (LogText (str "[" ++ Utils.__METHOD_NAME__ __PRETTY_FUNCTION__ f
                        ++ str "] ENTER"))).
Local Abbreviation exit_line f :=
  (logged (LogText (str "[" ++ Utils.__METHOD_NAME__ __PRETTY_FUNCTION__ f
                        ++ str "] EXIT"))).

(** A function that logs its call returns what its body returns, between the
    ENTER line and the EXIT line. *)
Lemma returns_LOG_FUNCTION_CALL {R} f (scope : itree E R) tr r :
  returns record (Utils.LOG_FUNCTION_CALL __PRETTY_FUNCTION__ f scope) tr r <->
  exists tr',
    tr = enter_line f :: tr' ++ [exit_line f] /\ returns record scope tr' r.
Proof.
  unfold Utils.LOG_FUNCTION_CALL, Utils.ScopedFunctionLogger.
  rewrite returns_bind. split.
  - intros (u & tr1 & tr2 & -> & H1 & H2).
    apply returns_LOG in H1 as ->.
    apply returns_bind in H2 as (r' & tr3 & tr4 & -> & H3 & H4).
    apply returns_bind in H4 as (u' & tr5 & tr6 & -> & H5 & H6).
    apply returns_LOG in H5 as ->. apply returns_Ret in H6 as [-> ->].
    exists tr3. split; [reflexivity|exact H3].
  - intros (tr' & -> & Hs).
    exists tt, [enter_line f], (tr' ++ [exit_line f]).
    split; [reflexivity|]. split; [apply returns_LOG; reflexivity|].
    apply returns_bind. exists r, tr', [exit_line f].
    split; [reflexivity|]. split; [exact Hs|].
    apply returns_bind. exists tt, [exit_line f], [].
    split; [reflexivity|]. split; [apply returns_LOG; reflexivity|].
    apply returns_Ret. auto.
Qed.

Lemma only_performs_LOG_FUNCTION_CALL {R} (P : Ev -> Prop) f
      (scope : itree E R) :
  (forall message, P (logged message)) ->
  only_performs record P scope ->
  only_performs record P
    (Utils.LOG_FUNCTION_CALL __PRETTY_FUNCTION__ f scope).
Proof.
  intros Hlog Hscope.
  unfold Utils.LOG_FUNCTION_CALL, Utils.ScopedFunctionLogger.
  apply only_performs_bind; [apply only_performs_LOG, Hlog|intros _].
  apply only_performs_bind; [exact Hscope|intros r].
  apply only_performs_bind; [apply only_performs_LOG, Hlog|intros _].
  apply only_performs_Ret.
Qed.

(** A call whose answer is handed on through [f]. *)
Lemma returns_trigger_then {X Y} (e : E X) (f : X -> Y) tr y :
  returns record (x <- ITree.trigger e ;; Ret (f x)) tr y <->
  exists x, tr = [record _ e x] /\ y = f x.
Proof.
  rewrite returns_bind. split.
  - intros (x & tr1 & tr2 & -> & H1 & H2). apply returns_trigger in H1 as ->.
    apply returns_Ret in H2 as [-> ->]. exists x. auto.
  - intros (x & -> & ->). exists x, [record _ e x], [].
    split; [reflexivity|]. split; [apply returns_trigger; reflexivity|].
    apply returns_Ret. auto.
Qed.

Lemma can_always_return_LOG message :
  can_always_return record (Utils.LOG message).
Proof. apply can_always_return_trigger. exact tt. Qed.

Lemma can_always_return_LOG_FUNCTION_CALL {R} f (scope : itree E R) :
  can_always_return record scope ->
  can_always_return record
    (Utils.LOG_FUNCTION_CALL __PRETTY_FUNCTION__ f scope).
Proof.
  intros Hscope.
  unfold Utils.LOG_FUNCTION_CALL, Utils.ScopedFunctionLogger.
  apply can_always_return_bind; [apply can_always_return_LOG|intros _].
  apply can_always_return_bind; [exact Hscope|intros r].
  apply can_always_return_bind; [apply can_always_return_LOG|intros _].
  apply can_always_return_Ret.
Qed.

End ScopedLoggerFacts.

(** ** Lists of events: rounds, answers, counts *)

Module ShapeFacts.
Import ManagerImpl Shapes.

Lemma rounds_S K round : rounds (S K) round = round ++ rounds K round.
Proof. reflexivity. Qed.

Lemma Forall_rounds (P : Event -> Prop) K round :
  Forall P round -> Forall P (rounds K round).
Proof.
  intros H. induction K as [|K IH]; [constructor|].
  rewrite rounds_S. apply Forall_app. auto.
Qed.

Lemma answers_app answer tr1 tr2 :
  answers answer (tr1 ++ tr2) = answers answer tr1 ++ answers answer tr2.
Proof. apply flat_map_app. Qed.

Lemma answers_cons answer ev tr :
  answers answer (ev :: tr)
  = match answer ev with Some b => [b] | None => [] end ++ answers answer tr.
Proof. reflexivity. Qed.

Lemma answers_rounds_none answer K round :
  answers answer round = [] -> answers answer (rounds K round) = [].
Proof.
  intros H. induction K as [|K IH]; [reflexivity|].
  rewrite rounds_S, answers_app, H, IH. reflexivity.
Qed.

Lemma answers_rounds_one answer K round b :
  answers answer round = [b] -> answers answer (rounds K round) = repeat b K.
Proof.
  intros H. induction K as [|K IH]; [reflexivity|].
  rewrite rounds_S, answers_app, H, IH. reflexivity.
Qed.

Lemma answers_none answer tr :
  Forall (fun ev => answer ev = None) tr -> answers answer tr = [].
Proof.
  induction 1 as [|ev tr Hev _ IH]; [reflexivity|].
  rewrite answers_cons, Hev. exact IH.
Qed.

Lemma count_app kind tr1 tr2 :
  count kind (tr1 ++ tr2) = (count kind tr1 + count kind tr2)%nat.
Proof. unfold count. rewrite filter_app, length_app. reflexivity. Qed.

Lemma count_rounds kind K round :
  count kind (rounds K round) = (K * count kind round)%nat.
Proof.
  induction K as [|K IH]; [reflexivity|].
  rewrite rounds_S, count_app, IH. reflexivity.
Qed.

Lemma filter_rounds (kind : Event -> bool) K round :
  filter kind (rounds K round) = rounds K (filter kind round).
Proof.
  induction K as [|K IH]; [reflexivity|].
  rewrite !rounds_S, filter_app, IH. reflexivity.
Qed.

Lemma repeat_false_not_true K K' (x : list bool) :
  repeat false K' = repeat false K ++ true :: x -> False.
Proof.
  intros H. assert (Hin : In true (repeat false K'))
    by (rewrite H; apply in_or_app; right; left; reflexivity).
  apply repeat_spec in Hin. discriminate Hin.
Qed.

Lemma repeat_false_true_inj K K' (x y : list bool) :
  repeat false K ++ true :: x = repeat false K' ++ true :: y ->
  K = K' /\ x = y.
Proof.
  revert K'. induction K as [|K IH]; intros [|K'] H; cbn in H.
  - injection H as ->. auto.
  - discriminate H.
  - discriminate H.
  - injection H as H. apply IH in H as [-> ->]. auto.
Qed.

(** A trace whose answers of some kind are [K] times no and then yes, and
    that begins a list [before ++ accepted :: after] in which [accepted] is
    the one yes: the trace has passed [accepted], after [K] times no. *)
Lemma answered_beginning answer tr rest before accepted after K K' :
  tr ++ rest = before ++ accepted :: after ->
  answers answer tr = repeat false K ++ [true] ->
  answers answer before = repeat false K' ->
  answer accepted = Some true ->
  answers answer after = [] ->
  K = K' /\ exists rest', tr = before ++ accepted :: rest'.
Proof.
  intros Heq Htr Hbefore Haccepted Hafter.
  apply app_eq_app in Heq as [l [[-> Hl]|[-> Hl]]].
  - destruct l as [|ev l].
    + rewrite app_nil_r, Hbefore in Htr.
      exfalso. eapply repeat_false_not_true, Htr.
    + cbn in Hl. injection Hl as <- ->.
      rewrite answers_app in Hafter. apply app_eq_nil in Hafter as [Hl _].
      rewrite answers_app, answers_cons, Hbefore, Haccepted, Hl in Htr.
      apply repeat_false_true_inj in Htr as [-> _]. eauto.
  - rewrite answers_app, Htr, <- app_assoc in Hbefore.
    exfalso. symmetry in Hbefore. eapply repeat_false_not_true, Hbefore.
Qed.

(** Where one element of a kind stands in a list, when it is the only one. *)
Lemma only_one_of_a_kind (kind : Event -> bool) l1 a l2 before b after :
  l1 ++ a :: l2 = before ++ b :: after ->
  kind a = true -> kind b = true ->
  Forall (fun ev => kind ev = false) before ->
  Forall (fun ev => kind ev = false) after ->
  l1 = before /\ a = b /\ l2 = after.
Proof.
  revert before. induction l1 as [|x l1 IH]; intros before Heq Ha Hb Hbefore Hafter.
  - destruct before as [|y before]; cbn in Heq.
    + injection Heq as -> ->. auto.
    + injection Heq as <- _. inversion Hbefore; congruence.
  - destruct before as [|y before]; cbn in Heq.
    + injection Heq as -> Hl.
      assert (Hin : In a after) by (rewrite <- Hl; apply in_elt).
      rewrite Forall_forall in Hafter. apply Hafter in Hin. congruence.
    + injection Heq as -> Heq. inversion Hbefore; subst.
      destruct (IH _ Heq Ha Hb) as (-> & -> & ->); auto.
Qed.

(** In a list that begins [quiet ++ first :: _], whatever stands before an
    element that is not in [quiet] includes [first]. *)
Lemma first_comes_first (loud : Event -> bool) pre ev post quiet first rest :
  pre ++ ev :: post = quiet ++ first :: rest ->
  loud ev = true -> loud first = false ->
  Forall (fun ev => loud ev = false) quiet ->
  In first pre.
Proof.
  revert pre. induction quiet as [|q quiet IH]; intros pre Heq Hev Hfirst Hquiet.
  - destruct pre as [|x pre]; cbn in Heq.
    + injection Heq as -> _. congruence.
    + injection Heq as -> _. left. reflexivity.
  - inversion Hquiet; subst. destruct pre as [|x pre]; cbn in Heq.
    + injection Heq as -> _. congruence.
    + injection Heq as -> Heq. right. eapply IH; eauto.
Qed.

End ShapeFacts.

(** ** manager.hpp: what each method does when it returns *)

Module ManagerFacts.
Import Utils ManagerImpl Shapes.

Section Returns.

Variable __PRETTY_FUNCTION__ : Function -> std_string.

Local Abbreviation returns := (returns record).
Local Abbreviation entered := (entered __PRETTY_FUNCTION__).
Local Abbreviation exited := (exited __PRETTY_FUNCTION__).

(** What the runner computes is a trace. *)
Lemma run_returns {R} fuel script (t : itree runtimeE R) tr r script' :
  run fuel script t = Some (tr, r, script') -> returns t tr r.
Proof.
  revert script t tr r script'.
  induction fuel as [|fuel IH]; intros script t tr r script' H;
    [discriminate H|].
  cbn in H. apply is_trace_step. right.
  destruct (observe t) as [r0|t'|X e k].
  - injection H as <- <- _. auto.
  - eapply IH, H.
  - destruct (answer script X e) as [x script1].
    destruct (run fuel script1 (k x)) as [[[tr1 r1] script2]|] eqn:Hrun;
      [|discriminate H].
    injection H as <- <- _. exists x, tr1. split; [reflexivity|].
    eapply IH, Hrun.
Qed.

Lemma runs_to_returns {R} fuel script (t : itree runtimeE R) tr r :
  runs_to fuel script t tr r -> returns t tr r.
Proof.
  unfold runs_to.
  destruct (run fuel script t) as [[[tr' r'] script']|] eqn:Hrun; [|easy].
  intros [<- <-]. eapply run_returns, Hrun.
Qed.

Lemma returns_sleep tr u : returns sleep tr u <-> tr = [Slept RETRY_TIMEOUT].
Proof. unfold sleep. rewrite returns_trigger. destruct u. reflexivity. Qed.

Lemma returns_retry_body message tr u :
  returns (LOG (LogText message) ;; sleep) tr u <->
  tr = [Logged (LogText message); Slept RETRY_TIMEOUT].
Proof.
  rewrite returns_bind. split.
  - intros (u' & tr1 & tr2 & -> & H1 & H2).
    apply returns_LOG in H1 as ->. apply returns_sleep in H2 as ->. reflexivity.
  - intros ->. exists tt, [Logged (LogText message)], [Slept RETRY_TIMEOUT].
    split; [reflexivity|]. split; [apply returns_LOG|apply returns_sleep];
      reflexivity.
Qed.

(** The test of a retry loop: one call, and the loop goes on when the call
    answers [false]. *)
Lemma returns_retry_test (e : runtimeE bool) tr b :
  returns (ok <- ITree.trigger e ;; Ret (negb ok)) tr b <->
  tr = if b then [record _ e false] else [record _ e true].
Proof.
  rewrite returns_trigger_then. split.
  - intros (ok & -> & ->). destruct ok; reflexivity.
  - intros ->. exists (negb b). destruct b; auto.
Qed.

Lemma returns_poll_test proxy to_be_available tr b :
  returns (available <- ITree.trigger (isAvailable proxy) ;;
           Ret (negb (Bool.eqb available to_be_available))) tr b <->
  tr = if b then [AvailabilityRead proxy (negb to_be_available)]
       else [AvailabilityRead proxy to_be_available].
Proof.
  rewrite returns_trigger_then. split.
  - intros (a & -> & ->). destruct a, to_be_available; reflexivity.
  - intros ->. exists (if b then negb to_be_available else to_be_available).
    destruct b, to_be_available; auto.
Qed.

Theorem returns_register_service service tr u :
  returns (register_service __PRETTY_FUNCTION__ service) tr u <->
  exists K, tr = register_service_trace __PRETTY_FUNCTION__ service K.
Proof.
  unfold register_service. rewrite returns_LOG_FUNCTION_CALL.
  destruct service as [[d i f c] h]. cbn [meta handle].
  split.
  - intros (tr' & -> & H).
    apply returns_bind in H as (u' & tr1 & tr2 & -> & H1 & H2).
    apply returns_trigger in H1 as ->.
    apply (returns_while record _ _ _ _ _
             (returns_retry_test (registerService d i h c))
             (returns_retry_body _)) in H2 as [K ->].
    exists K. unfold register_service_trace. cbn.
    rewrite <- !app_assoc. reflexivity.
  - intros [K ->]. eexists. split.
    2:{ apply returns_bind. exists tt, [RuntimeGot]. eexists.
        split; [reflexivity|]. split; [apply returns_trigger; reflexivity|].
        apply (returns_while record _ _ _ _ _
                 (returns_retry_test (registerService d i h c))
                 (returns_retry_body _)). exists K. reflexivity. }
    unfold register_service_trace. cbn. rewrite <- !app_assoc. reflexivity.
Qed.

Theorem returns_unregister_service service tr u :
  returns (unregister_service __PRETTY_FUNCTION__ service) tr u <->
  exists K, tr = unregister_service_trace __PRETTY_FUNCTION__ service K.
Proof.
  unfold unregister_service. rewrite returns_LOG_FUNCTION_CALL.
  destruct service as [[d i f c] h]. cbn [meta handle].
  split.
  - intros (tr' & -> & H).
    apply returns_bind in H as (u' & tr1 & tr2 & -> & H1 & H2).
    apply returns_trigger in H1 as ->.
    apply (returns_while record _ _ _ _ _
             (returns_retry_test (unregisterService d f i))
             (returns_retry_body _)) in H2 as [K ->].
    exists K. unfold unregister_service_trace. cbn.
    rewrite <- !app_assoc. reflexivity.
  - intros [K ->]. eexists. split.
    2:{ apply returns_bind. exists tt, [RuntimeGot]. eexists.
        split; [reflexivity|]. split; [apply returns_trigger; reflexivity|].
        apply (returns_while record _ _ _ _ _
                 (returns_retry_test (unregisterService d f i))
                 (returns_retry_body _)). exists K. reflexivity. }
    unfold unregister_service_trace. cbn. rewrite <- !app_assoc. reflexivity.
Qed.

Theorem returns_wait_service service to_be_available tr u :
  returns (wait_service __PRETTY_FUNCTION__ service to_be_available) tr u <->
  exists proxy J,
    tr = wait_service_trace __PRETTY_FUNCTION__ service to_be_available proxy J.
Proof.
  unfold wait_service. rewrite returns_LOG_FUNCTION_CALL.
  destruct service as [[d i f c] h]. cbn [meta handle].
  split.
  - intros (tr' & -> & H).
    apply returns_bind in H as (u' & tr1 & tr2 & -> & H1 & H2).
    apply returns_trigger in H1 as ->.
    apply returns_bind in H2 as (proxy & tr3 & tr4 & -> & H3 & H4).
    apply returns_trigger in H3 as ->.
    apply (returns_while record _ _ _ _ _
             (returns_poll_test proxy to_be_available)
             returns_sleep) in H4 as [J ->].
    exists proxy, J. unfold wait_service_trace. cbn.
    rewrite <- !app_assoc. reflexivity.
  - intros (proxy & J & ->). eexists. split.
    2:{ apply returns_bind. exists tt, [RuntimeGot]. eexists.
        split; [reflexivity|]. split; [apply returns_trigger; reflexivity|].
        apply returns_bind. exists proxy, [ProxyBuilt d i c proxy]. eexists.
        split; [reflexivity|]. split; [apply returns_trigger; reflexivity|].
        apply (returns_while record _ _ _ _ _
                 (returns_poll_test proxy to_be_available)
                 returns_sleep). exists J. reflexivity. }
    unfold wait_service_trace. cbn. rewrite <- !app_assoc. reflexivity.
Qed.

Lemma returns_create_service tr service :
  returns create_service tr service <->
  exists handle, tr = [StubMade handle] /\ service = created_service handle.
Proof. unfold create_service. apply returns_trigger_then. Qed.

(** [launch_test_service] returns either at once, from an occupied slot that
    it leaves as it is, or from an empty slot after registering and waiting,
    with the new service in the slot. *)
Theorem returns_launch_test_service this tr this' :
  returns (launch_test_service __PRETTY_FUNCTION__ this) tr this' <->
  (has_value this = true
   /\ tr = ignored_launch_trace __PRETTY_FUNCTION__ /\ this' = this)
  \/
  (has_value this = false
   /\ exists handle K proxy J,
        tr = launch_trace __PRETTY_FUNCTION__ handle K proxy J
        /\ this' = {| running_service := Some (created_service handle) |}).
Proof.
  unfold launch_test_service. rewrite returns_LOG_FUNCTION_CALL.
  destruct (has_value this); cbn [negb]; split.
  - intros (tr' & -> & H). left.
    apply returns_bind in H as (u & tr1 & tr2 & -> & H1 & H2).
    apply returns_LOG in H1 as ->. apply returns_Ret in H2 as [-> ->].
    auto.
  - intros [(_ & -> & ->)|(Hf & _)]; [|discriminate Hf].
    eexists. split.
    2:{ apply returns_bind. eexists tt, _, []. split; [reflexivity|].
        split; [apply returns_LOG; reflexivity|]. apply returns_Ret. auto. }
    reflexivity.
  - intros (tr' & -> & H). right. split; [reflexivity|].
    apply returns_bind in H as (service & tr1 & tr2 & -> & H1 & H2).
    apply returns_create_service in H1 as (handle & -> & ->).
    apply returns_bind in H2 as (u & tr3 & tr4 & -> & H3 & H4).
    apply returns_register_service in H3 as [K ->].
    apply returns_bind in H4 as (u' & tr5 & tr6 & -> & H5 & H6).
    apply returns_wait_service in H5 as (proxy & J & ->).
    apply returns_Ret in H6 as [-> ->].
    exists handle, K, proxy, J. split; [|reflexivity].
    unfold launch_trace. cbn [app]. rewrite app_nil_r, <- !app_assoc.
    reflexivity.
  - intros [(Hf & _)|(_ & handle & K & proxy & J & -> & ->)]; [discriminate Hf|].
    eexists. split.
    2:{ apply returns_bind. exists (created_service handle), [StubMade handle].
        eexists. split; [reflexivity|].
        split; [apply returns_create_service; eauto|].
        apply returns_bind. exists tt. eexists. eexists.
        split; [reflexivity|].
        split; [apply returns_register_service; exists K; reflexivity|].
        apply returns_bind. exists tt. eexists. exists [].
        split; [reflexivity|].
        split; [apply returns_wait_service; exists proxy, J; reflexivity|].
        apply returns_Ret. auto. }
    unfold launch_trace. cbn [app]. rewrite app_nil_r, <- !app_assoc.
    reflexivity.
Qed.

(** [terminate_test_service] returns either at once, from an empty slot, or
    from a slot that holds a service after unregistering it and waiting, with
    the slot emptied. *)
Theorem returns_terminate_test_service this tr this' :
  returns (terminate_test_service __PRETTY_FUNCTION__ this) tr this' <->
  (running_service this = None
   /\ tr = ignored_terminate_trace __PRETTY_FUNCTION__ /\ this' = this)
  \/
  (exists service K proxy J,
      running_service this = Some service
      /\ tr = terminate_trace __PRETTY_FUNCTION__ service K proxy J
      /\ this' = {| running_service := None |}).
Proof.
  unfold terminate_test_service. rewrite returns_LOG_FUNCTION_CALL.
  destruct (running_service this) as [service|]; split.
  - intros (tr' & -> & H). right.
    apply returns_bind in H as (u & tr3 & tr4 & -> & H3 & H4).
    apply returns_unregister_service in H3 as [K ->].
    apply returns_bind in H4 as (u' & tr5 & tr6 & -> & H5 & H6).
    apply returns_wait_service in H5 as (proxy & J & ->).
    apply returns_Ret in H6 as [-> ->].
    exists service, K, proxy, J. split; [reflexivity|]. split; [|reflexivity].
    unfold terminate_trace. cbn [app]. rewrite app_nil_r, <- !app_assoc.
    reflexivity.
  - intros [(Hn & _)|(service' & K & proxy & J & Hs & -> & ->)];
      [discriminate Hn|]. injection Hs as <-.
    eexists. split.
    2:{ apply returns_bind. exists tt. eexists. eexists.
        split; [reflexivity|].
        split; [apply returns_unregister_service; exists K; reflexivity|].
        apply returns_bind. exists tt. eexists. exists [].
        split; [reflexivity|].
        split; [apply returns_wait_service; exists proxy, J; reflexivity|].
        apply returns_Ret. auto. }
    unfold terminate_trace. cbn [app]. rewrite app_nil_r, <- !app_assoc.
    reflexivity.
  - intros (tr' & -> & H). left.
    apply returns_bind in H as (u & tr1 & tr2 & -> & H1 & H2).
    apply returns_LOG in H1 as ->. apply returns_Ret in H2 as [-> ->].
    auto.
  - intros [(_ & -> & ->)|(service & K & proxy & J & Hs & _)];
      [|discriminate Hs].
    eexists. split.
    2:{ apply returns_bind. eexists tt, _, []. split; [reflexivity|].
        split; [apply returns_LOG; reflexivity|]. apply returns_Ret. auto. }
    reflexivity.
Qed.

End Returns.

(** ** manager.hpp: every run is the beginning of one that returns *)

Section Runs.

Variable __PRETTY_FUNCTION__ : Function -> std_string.

Local Abbreviation returns := (returns record).
Local Abbreviation is_trace := (is_trace record).
Local Abbreviation can_always_return := (can_always_return record).

Lemma can_always_return_sleep : can_always_return sleep.
Proof. apply can_always_return_trigger. exact tt. Qed.

Lemma can_always_return_retry (e : runtimeE bool) message :
  can_always_return
    (while_loop (ok <- ITree.trigger e ;; Ret (negb ok))
                (LOG (LogText message) ;; sleep)).
Proof.
  apply can_always_return_while.
  - apply can_always_return_bind;
      [apply can_always_return_trigger; exact true|intros ok].
    apply can_always_return_Ret.
  - apply can_always_return_bind; [apply can_always_return_LOG|intros _].
    apply can_always_return_sleep.
  - eexists. apply returns_retry_test. reflexivity.
Qed.

Lemma can_always_return_register_service service :
  can_always_return (register_service __PRETTY_FUNCTION__ service).
Proof.
  unfold register_service. apply can_always_return_LOG_FUNCTION_CALL.
  apply can_always_return_bind;
    [apply can_always_return_trigger; exact tt|intros _].
  destruct (meta service). apply can_always_return_retry.
Qed.

Lemma can_always_return_unregister_service service :
  can_always_return (unregister_service __PRETTY_FUNCTION__ service).
Proof.
  unfold unregister_service. apply can_always_return_LOG_FUNCTION_CALL.
  apply can_always_return_bind;
    [apply can_always_return_trigger; exact tt|intros _].
  destruct (meta service). apply can_always_return_retry.
Qed.

Lemma can_always_return_wait_service service to_be_available :
  can_always_return
    (wait_service __PRETTY_FUNCTION__ service to_be_available).
Proof.
  unfold wait_service. apply can_always_return_LOG_FUNCTION_CALL.
  apply can_always_return_bind;
    [apply can_always_return_trigger; exact tt|intros _].
  destruct (meta service).
  apply can_always_return_bind;
    [apply can_always_return_trigger; exact O|intros proxy].
  apply can_always_return_while.
  - apply can_always_return_bind;
      [apply can_always_return_trigger; exact true|intros a].
    apply can_always_return_Ret.
  - apply can_always_return_sleep.
  - eexists. apply returns_poll_test. reflexivity.
Qed.

Lemma can_always_return_launch_test_service this :
  can_always_return (launch_test_service __PRETTY_FUNCTION__ this).
Proof.
  unfold launch_test_service. apply can_always_return_LOG_FUNCTION_CALL.
  destruct (has_value this); cbn [negb].
  - apply can_always_return_bind; [apply can_always_return_LOG|intros _].
    apply can_always_return_Ret.
  - apply can_always_return_bind.
    { unfold create_service. apply can_always_return_bind;
        [apply can_always_return_trigger; exact O|intros h].
      apply can_always_return_Ret. }
    intros service. apply can_always_return_bind;
      [apply can_always_return_register_service|intros _].
    apply can_always_return_bind;
      [apply can_always_return_wait_service|intros _].
    apply can_always_return_Ret.
Qed.

Lemma can_always_return_terminate_test_service this :
  can_always_return (terminate_test_service __PRETTY_FUNCTION__ this).
Proof.
  unfold terminate_test_service. apply can_always_return_LOG_FUNCTION_CALL.
  destruct (running_service this) as [service|].
  - apply can_always_return_bind;
      [apply can_always_return_unregister_service|intros _].
    apply can_always_return_bind;
      [apply can_always_return_wait_service|intros _].
    apply can_always_return_Ret.
  - apply can_always_return_bind; [apply can_always_return_LOG|intros _].
    apply can_always_return_Ret.
Qed.

(** Hence the traces of each method, returning or not, are the beginnings of
    the traces listed in [Shapes]. *)
Lemma register_service_runs service tr res :
  is_trace (register_service __PRETTY_FUNCTION__ service) tr res ->
  exists K rest,
    tr ++ rest = register_service_trace __PRETTY_FUNCTION__ service K.
Proof.
  intros H.
  destruct (is_trace_extends _ _ _ _
              (can_always_return_register_service service) H)
    as (rest & u & Hr).
  apply returns_register_service in Hr as [K Hr]. eauto.
Qed.

Lemma unregister_service_runs service tr res :
  is_trace (unregister_service __PRETTY_FUNCTION__ service) tr res ->
  exists K rest,
    tr ++ rest = unregister_service_trace __PRETTY_FUNCTION__ service K.
Proof.
  intros H.
  destruct (is_trace_extends _ _ _ _
              (can_always_return_unregister_service service) H)
    as (rest & u & Hr).
  apply returns_unregister_service in Hr as [K Hr]. eauto.
Qed.

Lemma wait_service_runs service to_be_available tr res :
  is_trace (wait_service __PRETTY_FUNCTION__ service to_be_available) tr res ->
  exists proxy J rest,
    tr ++ rest
    = wait_service_trace __PRETTY_FUNCTION__ service to_be_available proxy J.
Proof.
  intros H.
  destruct (is_trace_extends _ _ _ _
              (can_always_return_wait_service service to_be_available) H)
    as (rest & u & Hr).
  apply returns_wait_service in Hr as (proxy & J & Hr). eauto.
Qed.

Lemma launch_test_service_runs this tr res :
  has_value this = false ->
  is_trace (launch_test_service __PRETTY_FUNCTION__ this) tr res ->
  exists handle K proxy J rest,
    tr ++ rest = launch_trace __PRETTY_FUNCTION__ handle K proxy J.
Proof.
  intros Hslot H.
  destruct (is_trace_extends _ _ _ _
              (can_always_return_launch_test_service this) H)
    as (rest & this' & Hr).
  apply returns_launch_test_service in Hr
    as [(Hv & _)|(_ & handle & K & proxy & J & Hr & _)]; [congruence|].
  eauto 6.
Qed.

Lemma terminate_test_service_runs this service tr res :
  running_service this = Some service ->
  is_trace (terminate_test_service __PRETTY_FUNCTION__ this) tr res ->
  exists K proxy J rest,
    tr ++ rest = terminate_trace __PRETTY_FUNCTION__ service K proxy J.
Proof.
  intros Hslot H.
  destruct (is_trace_extends _ _ _ _
              (can_always_return_terminate_test_service this) H)
    as (rest & this' & Hr).
  apply returns_terminate_test_service in Hr
    as [(Hv & _)|(service' & K & proxy & J & Hs & Hr & _)]; [congruence|].
  assert (service' = service) as -> by congruence.
  eauto 6.
Qed.

End Runs.

End ManagerFacts.

(** ** manager.hpp: the lifecycle *)

Module Lifecycle.
Import Utils ManagerImpl Shapes ShapeFacts ManagerFacts.

(** Splits a property of all the events of a listed trace into one goal per
    event. *)
Ltac each_event :=
  repeat first
    [ apply Forall_nil
    | apply Forall_cons
    | apply Forall_app; split
    | apply Forall_rounds ].

Ltac unfold_traces :=
  unfold launch_trace, terminate_trace, ignored_launch_trace,
    ignored_terminate_trace, register_service_trace, unregister_service_trace,
    wait_service_trace, launch_until_registered, terminate_until_unregistered,
    failed_register_round, failed_unregister_round, failed_poll_round,
    register_call, unregister_call, build_proxy_call, entered, exited.

Section Properties.

Variable __PRETTY_FUNCTION__ : Function -> std_string.

Local Abbreviation returns := (returns record).
Local Abbreviation is_trace := (is_trace record).
Local Abbreviation only_performs := (only_performs record).
Local Abbreviation launch_test_service :=
  (launch_test_service __PRETTY_FUNCTION__).
Local Abbreviation terminate_test_service :=
  (terminate_test_service __PRETTY_FUNCTION__).
Local Abbreviation register_service :=
  (register_service __PRETTY_FUNCTION__).
Local Abbreviation unregister_service :=
  (unregister_service __PRETTY_FUNCTION__).
Local Abbreviation wait_service := (wait_service __PRETTY_FUNCTION__).
Local Abbreviation launch_trace := (launch_trace __PRETTY_FUNCTION__).
Local Abbreviation terminate_trace := (terminate_trace __PRETTY_FUNCTION__).

Lemma has_value_false this :
  has_value this = false <-> running_service this = None.
Proof. unfold has_value. destruct (running_service this); split; congruence. Qed.

(** C1.  The class keeps no state besides the slot: the lifecycle state is
    Running exactly when the slot holds a service, for every manager and so
    for every reachable one.  A method writes the slot only as its last step,
    so during a call the slot is as the call found it: whatever
    [launch_test_service] performs, in a run that returns or not, is a
    registration call only if the slot is empty, and never an
    unregistration call; whatever [terminate_test_service] performs is an
    unregistration call only if the slot is occupied, and never a
    registration call. *)
Theorem slot_tells_the_state_and_guards_the_calls this :
  (running_service this <> None <-> state this = Running)
  /\ (running_service this = None <-> state this = Stopped)
  /\ only_performs
       (fun ev => (is_registration ev = true -> state this = Stopped)
                  /\ is_unregistration ev = false)
       (launch_test_service this)
  /\ only_performs
       (fun ev => (is_unregistration ev = true -> state this = Running)
                  /\ is_registration ev = false)
       (terminate_test_service this).
Proof.
  split; [|split; [|split]].
  - unfold state, has_value. destruct (running_service this);
      split; congruence.
  - unfold state, has_value. destruct (running_service this);
      split; congruence.
  - apply only_performs_returning;
      [apply can_always_return_launch_test_service|].
    intros tr this' H. apply returns_launch_test_service in H.
    destruct H as [(_ & -> & _)|(Hv & h & K & p & J & -> & _)];
      unfold_traces; each_event; cbn; split; try reflexivity;
      try discriminate.
    all: intros _; unfold state; rewrite Hv; reflexivity.
  - apply only_performs_returning;
      [apply can_always_return_terminate_test_service|].
    intros tr this' H. apply returns_terminate_test_service in H.
    destruct H as [(_ & -> & _)|(s & K & p & J & Hs & -> & _)];
      unfold_traces; each_event; cbn; split; try reflexivity;
      try discriminate.
    all: intros _; unfold state, has_value; rewrite Hs; reflexivity.
Qed.

Lemma launch_trace_registration_answers handle K proxy J :
  registration_answers (launch_trace handle K proxy J)
  = repeat false K ++ [true].
Proof.
  unfold registration_answers. unfold_traces.
  rewrite !answers_app, (answers_rounds_one _ K _ false) by reflexivity.
  rewrite (answers_rounds_none _ J) by reflexivity.
  cbn. rewrite app_nil_r. reflexivity.
Qed.

Lemma terminate_trace_unregistration_answers service K proxy J :
  unregistration_answers (terminate_trace service K proxy J)
  = repeat false K ++ [true].
Proof.
  unfold unregistration_answers. unfold_traces.
  rewrite !answers_app, (answers_rounds_one _ K _ false) by reflexivity.
  rewrite (answers_rounds_none _ J) by reflexivity.
  cbn. rewrite app_nil_r. reflexivity.
Qed.

(** C2, amended.  [launch_test_service] on an occupied slot returns, after
    its log lines only, and leaves the object as it is; no run of it, returning
    or not, calls the runtime.  So of two calls in sequence from an empty
    slot the second adds no call: the registration calls are those of the
    first, [K] that the runtime refuses and then one that it accepts, and the
    state ends Running.  [terminate_test_service] on an empty slot likewise
    returns after its log lines, calls nothing and leaves the slot empty. *)
Theorem nothing_to_do_is_a_no_op :
  (forall this, state this = Running ->
     returns (launch_test_service this)
             (ignored_launch_trace __PRETTY_FUNCTION__) this
     /\ only_performs (fun ev => is_log ev = true) (launch_test_service this)
     /\ forall tr this', returns (launch_test_service this) tr this' ->
                         this' = this)
  /\ (forall this tr1 this1 tr2 this2,
        state this = Stopped ->
        returns (launch_test_service this) tr1 this1 ->
        returns (launch_test_service this1) tr2 this2 ->
        (exists K, registration_answers tr1 = repeat false K ++ [true])
        /\ count is_runtime_call tr2 = 0%nat
        /\ registration_answers (tr1 ++ tr2) = registration_answers tr1
        /\ this2 = this1 /\ state this2 = Running)
  /\ (forall this, state this = Stopped ->
        returns (terminate_test_service this)
                (ignored_terminate_trace __PRETTY_FUNCTION__) this
        /\ only_performs (fun ev => is_log ev = true)
                         (terminate_test_service this)
        /\ forall tr this', returns (terminate_test_service this) tr this' ->
                            this' = this /\ state this' = Stopped).
Proof.
  assert (Hrunning : forall this, state this = Running -> has_value this = true).
  { intros this. unfold state. destruct (has_value this); congruence. }
  assert (Hstopped : forall this, state this = Stopped -> has_value this = false).
  { intros this. unfold state. destruct (has_value this); congruence. }
  split; [|split].
  - intros this Hs. apply Hrunning in Hs. split; [|split].
    + apply returns_launch_test_service. left. auto.
    + apply only_performs_returning;
        [apply can_always_return_launch_test_service|].
      intros tr this' H. apply returns_launch_test_service in H.
      destruct H as [(_ & -> & _)|(Hv & _)]; [|congruence].
      unfold_traces. each_event; reflexivity.
    + intros tr this' H. apply returns_launch_test_service in H.
      destruct H as [(_ & _ & ->)|(Hv & _)]; [reflexivity|congruence].
  - intros this tr1 this1 tr2 this2 Hs H1 H2. apply Hstopped in Hs.
    apply returns_launch_test_service in H1.
    destruct H1 as [(Hv & _)|(_ & h & K & p & J & -> & ->)]; [congruence|].
    apply returns_launch_test_service in H2.
    destruct H2 as [(_ & -> & ->)|(Hv & _)]; [|discriminate Hv].
    split; [exists K; apply launch_trace_registration_answers|].
    split; [reflexivity|]. split; [|split; reflexivity].
    unfold registration_answers. rewrite answers_app. apply app_nil_r.
  - intros this Hs. pose proof (Hstopped _ Hs) as Hv.
    apply has_value_false in Hv. split; [|split].
    + apply returns_terminate_test_service. left. auto.
    + apply only_performs_returning;
        [apply can_always_return_terminate_test_service|].
      intros tr this' H. apply returns_terminate_test_service in H.
      destruct H as [(_ & -> & _)|(s & K & p & J & Hsome & _)]; [|congruence].
      unfold_traces. each_event; reflexivity.
    + intros tr this' H. apply returns_terminate_test_service in H.
      destruct H as [(_ & _ & ->)|(s & K & p & J & Hsome & _)];
        [auto|congruence].
Qed.

Local Abbreviation entered := (entered __PRETTY_FUNCTION__).
Local Abbreviation exited := (exited __PRETTY_FUNCTION__).
Local Abbreviation wait_service_trace :=
  (wait_service_trace __PRETTY_FUNCTION__).
Local Abbreviation launch_until_registered :=
  (launch_until_registered __PRETTY_FUNCTION__).
Local Abbreviation terminate_until_unregistered :=
  (terminate_until_unregistered __PRETTY_FUNCTION__).

(** [launch_trace], cut at the accepted registration. *)
Lemma launch_trace_cut handle K proxy J :
  launch_trace handle K proxy J
  = ([entered Manager_launch_test_service; StubMade handle;
      entered Manager_register_service; RuntimeGot]
     ++ rounds K (failed_register_round (created_service handle)))
    ++ register_call (created_service handle) true
    :: (exited Manager_register_service
        :: wait_service_trace (created_service handle) true proxy J
        ++ [exited Manager_launch_test_service]).
Proof.
  unfold launch_trace, Shapes.launch_trace, register_service_trace.
  cbn [app]. rewrite <- !app_assoc. reflexivity.
Qed.

Lemma terminate_trace_cut service K proxy J :
  terminate_trace service K proxy J
  = ([entered Manager_terminate_test_service;
      entered Manager_unregister_service; RuntimeGot]
     ++ rounds K (failed_unregister_round service))
    ++ unregister_call service true
    :: (exited Manager_unregister_service
        :: wait_service_trace service false proxy J
        ++ [exited Manager_terminate_test_service]).
Proof.
  unfold terminate_trace, Shapes.terminate_trace, unregister_service_trace.
  cbn [app]. rewrite <- !app_assoc. reflexivity.
Qed.

Lemma wait_service_trace_no_registration service b proxy J :
  registration_answers (wait_service_trace service b proxy J) = []
  /\ unregistration_answers (wait_service_trace service b proxy J) = [].
Proof.
  unfold registration_answers, unregistration_answers. unfold_traces.
  rewrite !answers_app, !(answers_rounds_none _ J) by reflexivity.
  split; reflexivity.
Qed.

(** C3.  From an empty slot, for every [K]: the run in which the runtime
    refuses the registration [K] times and then accepts it goes on to the
    availability wait and, whenever that ends, returns the running manager;
    no failure reaches the caller.  Every run, returning or not, in which the
    registration attempts were answered [K] times no and then yes began with
    [launch_until_registered]: [K] rounds of attempt, log line and sleep of
    [RETRY_TIMEOUT], then the accepted attempt, so [K + 1] attempts with one
    sleep between any two; what follows is the wait.  The same holds of
    [terminate_test_service] and the unregistration, from an occupied
    slot. *)
Theorem retries_until_the_runtime_accepts :
  (forall this K, state this = Stopped ->
     (forall handle proxy J,
         returns (launch_test_service this)
                 (launch_trace handle K proxy J)
                 (running_manager (created_service handle)))
     /\ forall tr res,
         is_trace (launch_test_service this) tr res ->
         registration_answers tr = repeat false K ++ [true] ->
         exists handle proxy J rest' rest,
           tr = launch_until_registered handle K ++ rest'
           /\ tr ++ rest = launch_trace handle K proxy J)
  /\ (forall this service K, running_service this = Some service ->
        (forall proxy J,
            returns (terminate_test_service this)
                    (terminate_trace service K proxy J) stopped_manager)
        /\ forall tr res,
            is_trace (terminate_test_service this) tr res ->
            unregistration_answers tr = repeat false K ++ [true] ->
            exists proxy J rest' rest,
              tr = terminate_until_unregistered service K ++ rest'
              /\ tr ++ rest = terminate_trace service K proxy J)
  /\ (forall handle K proxy J,
        launch_trace handle K proxy J
        = launch_until_registered handle K
          ++ [exited Manager_register_service]
          ++ wait_service_trace (created_service handle) true proxy J
          ++ [exited Manager_launch_test_service]
        /\ filter (fun ev => is_registration ev || is_sleep ev)
                  (launch_until_registered handle K)
           = rounds K [register_call (created_service handle) false;
                       Slept RETRY_TIMEOUT]
             ++ [register_call (created_service handle) true]
        /\ count is_registration (launch_until_registered handle K)
           = (K + 1)%nat
        /\ count is_sleep (launch_until_registered handle K) = K)
  /\ (forall service K proxy J,
        terminate_trace service K proxy J
        = terminate_until_unregistered service K
          ++ [exited Manager_unregister_service]
          ++ wait_service_trace service false proxy J
          ++ [exited Manager_terminate_test_service]
        /\ filter (fun ev => is_unregistration ev || is_sleep ev)
                  (terminate_until_unregistered service K)
           = rounds K [unregister_call service false; Slept RETRY_TIMEOUT]
             ++ [unregister_call service true]
        /\ count is_unregistration (terminate_until_unregistered service K)
           = (K + 1)%nat
        /\ count is_sleep (terminate_until_unregistered service K) = K).
Proof.
  split; [|split; [|split]].
  - intros this K Hs. assert (Hv : has_value this = false).
    { revert Hs. unfold state. destruct (has_value this); congruence. }
    split.
    + intros handle proxy J. apply returns_launch_test_service. right.
      split; [exact Hv|]. exists handle, K, proxy, J. auto.
    + intros tr res H Hanswers.
      destruct (launch_test_service_runs _ _ _ _ Hv H)
        as (handle & K' & proxy & J & rest & Heq).
      pose proof Heq as Hcut. rewrite launch_trace_cut in Hcut.
      destruct (wait_service_trace_no_registration
                  (created_service handle) true proxy J) as [Hwait _].
      eapply answered_beginning with (K' := K') in Hcut;
        [|exact Hanswers| | |].
      * destruct Hcut as [<- [rest' ->]].
        exists handle, proxy, J, rest', rest. split; [|exact Heq].
        unfold launch_until_registered, Shapes.launch_until_registered.
        rewrite <- !app_assoc. reflexivity.
      * rewrite answers_app, (answers_rounds_one _ K' _ false);
          reflexivity.
      * reflexivity.
      * rewrite answers_cons, answers_app.
        unfold registration_answers in Hwait. rewrite Hwait. reflexivity.
  - intros this service K Hs. split.
    + intros proxy J. apply returns_terminate_test_service. right.
      exists service, K, proxy, J. auto.
    + intros tr res H Hanswers.
      destruct (terminate_test_service_runs _ _ _ _ _ Hs H)
        as (K' & proxy & J & rest & Heq).
      pose proof Heq as Hcut. rewrite terminate_trace_cut in Hcut.
      destruct (wait_service_trace_no_registration
                  service false proxy J) as [_ Hwait].
      eapply answered_beginning with (K' := K') in Hcut;
        [|exact Hanswers| | |].
      * destruct Hcut as [<- [rest' ->]].
        exists proxy, J, rest', rest. split; [|exact Heq].
        unfold terminate_until_unregistered,
          Shapes.terminate_until_unregistered.
        rewrite <- !app_assoc. reflexivity.
      * rewrite answers_app, (answers_rounds_one _ K' _ false);
          reflexivity.
      * reflexivity.
      * rewrite answers_cons, answers_app.
        unfold unregistration_answers in Hwait. rewrite Hwait. reflexivity.
  - intros handle K proxy J. split; [|split; [|split]].
    + rewrite launch_trace_cut.
      unfold launch_until_registered, Shapes.launch_until_registered.
      rewrite <- !app_assoc. reflexivity.
    + unfold launch_until_registered, Shapes.launch_until_registered.
      rewrite !filter_app, filter_rounds. reflexivity.
    + unfold launch_until_registered, Shapes.launch_until_registered.
      rewrite !count_app, count_rounds. cbn. lia.
    + unfold launch_until_registered, Shapes.launch_until_registered.
      rewrite !count_app, count_rounds. cbn. lia.
  - intros service K proxy J. split; [|split; [|split]].
    + rewrite terminate_trace_cut.
      unfold terminate_until_unregistered,
        Shapes.terminate_until_unregistered.
      rewrite <- !app_assoc. reflexivity.
    + unfold terminate_until_unregistered,
        Shapes.terminate_until_unregistered.
      rewrite !filter_app, filter_rounds. reflexivity.
    + unfold terminate_until_unregistered,
        Shapes.terminate_until_unregistered.
      rewrite !count_app, count_rounds. cbn. lia.
    + unfold terminate_until_unregistered,
        Shapes.terminate_until_unregistered.
      rewrite !count_app, count_rounds. cbn. lia.
Qed.

Lemma launch_trace_poll_answers handle K proxy J :
  poll_answers (launch_trace handle K proxy J) = repeat false J ++ [true].
Proof.
  unfold poll_answers. unfold_traces.
  rewrite !answers_app, (answers_rounds_none _ K) by reflexivity.
  rewrite (answers_rounds_one _ J _ false) by reflexivity.
  cbn. rewrite ?app_nil_r. reflexivity.
Qed.

Lemma terminate_trace_poll_answers service K proxy J :
  poll_answers (terminate_trace service K proxy J) = repeat true J ++ [false].
Proof.
  unfold poll_answers. unfold_traces.
  rewrite !answers_app, (answers_rounds_none _ K) by reflexivity.
  rewrite (answers_rounds_one _ J _ true) by reflexivity.
  cbn. rewrite ?app_nil_r. reflexivity.
Qed.

(** [launch_trace], cut at the poll that reports available. *)
Lemma launch_trace_polls handle K proxy J :
  launch_trace handle K proxy J
  = (launch_until_registered handle K
     ++ [exited Manager_register_service; entered Manager_wait_service;
         RuntimeGot; build_proxy_call (created_service handle) proxy]
     ++ rounds J [AvailabilityRead proxy false; Slept RETRY_TIMEOUT])
    ++ AvailabilityRead proxy true
    :: [exited Manager_wait_service; exited Manager_launch_test_service].
Proof.
  unfold launch_trace, Shapes.launch_trace, register_service_trace,
    wait_service_trace, Shapes.wait_service_trace,
    launch_until_registered, Shapes.launch_until_registered,
    failed_poll_round.
  cbn [app negb]. rewrite <- !app_assoc. reflexivity.
Qed.

(** C4.  From an empty slot, [launch_test_service] does not return while the
    probe reports unavailable: a run in which no poll has reported available
    has not returned.  A run that returns has got the registration accepted,
    then built the probe and polled it, sleeping after each poll that
    reported unavailable, until a poll reported available; it returns the
    running manager.  In any run, after a poll that reports available come
    only log lines, at most the two EXIT lines: no sleep and no call.  And
    for every number [J] of polls that report unavailable, the run returns
    once the next reports available. *)
Theorem launch_returns_once_available this :
  state this = Stopped ->
  (forall tr res,
      is_trace (launch_test_service this) tr res ->
      ~ In true (poll_answers tr) -> res = None)
  /\ (forall tr this',
        returns (launch_test_service this) tr this' ->
        exists handle K proxy J,
          tr = launch_until_registered handle K
               ++ [exited Manager_register_service;
                   entered Manager_wait_service;
                   RuntimeGot;
                   build_proxy_call (created_service handle) proxy]
               ++ rounds J [AvailabilityRead proxy false; Slept RETRY_TIMEOUT]
               ++ [AvailabilityRead proxy true;
                   exited Manager_wait_service;
                   exited Manager_launch_test_service]
          /\ this' = running_manager (created_service handle)
          /\ state this' = Running)
  /\ (forall tr res pre proxy post,
        is_trace (launch_test_service this) tr res ->
        tr = pre ++ AvailabilityRead proxy true :: post ->
        Forall (fun ev => is_log ev = true) post
        /\ (List.length post <= 2)%nat)
  /\ (forall handle K proxy J,
        returns (launch_test_service this)
                (launch_trace handle K proxy J)
                (running_manager (created_service handle))).
Proof.
  intros Hs. assert (Hv : has_value this = false).
  { revert Hs. unfold state. destruct (has_value this); congruence. }
  split; [|split; [|split]].
  - intros tr [this'|] H Hno; [exfalso|reflexivity].
    apply returns_launch_test_service in H.
    destruct H as [(Hv' & _)|(_ & h & K & p & J & -> & _)]; [congruence|].
    apply Hno. rewrite launch_trace_poll_answers.
    apply in_or_app. right. left. reflexivity.
  - intros tr this' H. apply returns_launch_test_service in H.
    destruct H as [(Hv' & _)|(_ & h & K & p & J & -> & ->)]; [congruence|].
    exists h, K, p, J. split; [|split; reflexivity].
    rewrite launch_trace_polls, <- !app_assoc. reflexivity.
  - intros tr res pre proxy post H ->.
    destruct (launch_test_service_runs _ _ _ _ Hv H)
      as (h & K & p & J & rest & Heq).
    rewrite launch_trace_polls, <- app_assoc in Heq. cbn [app] in Heq.
    apply only_one_of_a_kind with (kind := is_available_poll) in Heq;
      try reflexivity.
    + destruct Heq as (_ & _ & Hpost).
      assert (Hlen : (List.length (post ++ rest) = 2)%nat)
        by (rewrite Hpost; reflexivity).
      assert (Hlog : Forall (fun ev => is_log ev = true) (post ++ rest))
        by (rewrite Hpost; repeat constructor).
      apply Forall_app in Hlog as [Hlog _]. rewrite length_app in Hlen.
      split; [exact Hlog|lia].
    + unfold_traces. each_event; reflexivity.
    + repeat constructor.
  - intros handle K proxy J. apply returns_launch_test_service. right.
    split; [exact Hv|]. exists handle, K, proxy, J. auto.
Qed.

(** [terminate_trace], spelled out. *)
Lemma terminate_trace_steps service K proxy J :
  terminate_trace service K proxy J
  = ([entered Manager_terminate_test_service;
      entered Manager_unregister_service; RuntimeGot]
     ++ rounds K (failed_unregister_round service))
    ++ unregister_call service true
    :: ([exited Manager_unregister_service; entered Manager_wait_service;
         RuntimeGot; build_proxy_call service proxy]
        ++ rounds J [AvailabilityRead proxy true; Slept RETRY_TIMEOUT]
        ++ [AvailabilityRead proxy false; exited Manager_wait_service;
            exited Manager_terminate_test_service]).
Proof.
  rewrite terminate_trace_cut.
  unfold wait_service_trace, Shapes.wait_service_trace, failed_poll_round.
  cbn [app negb]. rewrite <- !app_assoc. reflexivity.
Qed.

(** C5.  From a slot that holds [service], a run of
    [terminate_test_service] that returns has done, in this order: (a) the
    unregistration of [service]'s domain, interface and instance, again after
    each refusal until the runtime accepted it; (b) the polls of a probe
    built for [service], until one reported unavailable; and it returns (c)
    the manager with the slot empty, state Stopped.  In any run, returning
    or not, the probe is built and polled only after the accepted
    unregistration.  Such runs exist for all [K], [proxy] and [J]. *)
Theorem terminate_unregisters_waits_then_clears this service :
  running_service this = Some service ->
  (forall tr this',
      returns (terminate_test_service this) tr this' ->
      exists K proxy J,
        tr = [entered Manager_terminate_test_service;
              entered Manager_unregister_service; RuntimeGot]
             ++ rounds K (failed_unregister_round service)
             ++ [unregister_call service true;
                 exited Manager_unregister_service;
                 entered Manager_wait_service; RuntimeGot;
                 build_proxy_call service proxy]
             ++ rounds J [AvailabilityRead proxy true; Slept RETRY_TIMEOUT]
             ++ [AvailabilityRead proxy false;
                 exited Manager_wait_service;
                 exited Manager_terminate_test_service]
        /\ this' = stopped_manager
        /\ running_service this' = None
        /\ state this' = Stopped)
  /\ (forall tr res pre ev post,
        is_trace (terminate_test_service this) tr res ->
        tr = pre ++ ev :: post ->
        is_poll ev = true \/ (exists d i c p, ev = ProxyBuilt d i c p) ->
        In (unregister_call service true) pre)
  /\ (forall K proxy J,
        returns (terminate_test_service this)
                (terminate_trace service K proxy J) stopped_manager).
Proof.
  intros Hslot. split; [|split].
  - intros tr this' H. apply returns_terminate_test_service in H.
    destruct H as [(Hn & _)|(s & K & p & J & Hsome & -> & ->)];
      [congruence|].
    assert (s = service) as -> by congruence.
    exists K, p, J. split; [|auto].
    rewrite terminate_trace_steps, <- !app_assoc. reflexivity.
  - intros tr res pre ev post H -> Hev.
    destruct (terminate_test_service_runs _ _ _ _ _ Hslot H)
      as (K & p & J & rest & Heq).
    assert (Heq' : pre ++ ev :: (post ++ rest)
                   = terminate_trace service K p J)
      by (rewrite <- Heq, <- app_assoc; reflexivity).
    clear Heq. rename Heq' into Heq. rewrite terminate_trace_steps in Heq.
    eapply first_comes_first
      with (loud := fun ev => match ev with
                              | AvailabilityRead _ _ | ProxyBuilt _ _ _ _ => true
                              | _ => false
                              end); [exact Heq| |reflexivity|].
    + destruct Hev as [Hev|(d & i & c & p' & ->)]; [|reflexivity].
      destruct ev; try discriminate Hev; reflexivity.
    + unfold_traces. each_event; reflexivity.
  - intros K proxy J. apply returns_terminate_test_service. right.
    exists service, K, proxy, J. auto.
Qed.

Local Abbreviation register_service_trace :=
  (register_service_trace __PRETTY_FUNCTION__).
Local Abbreviation unregister_service_trace :=
  (unregister_service_trace __PRETTY_FUNCTION__).

Lemma register_service_trace_answers service K :
  registration_answers (register_service_trace service K)
  = repeat false K ++ [true].
Proof.
  unfold registration_answers. unfold_traces.
  rewrite !answers_app, (answers_rounds_one _ K _ false) by reflexivity.
  reflexivity.
Qed.

Lemma unregister_service_trace_answers service K :
  unregistration_answers (unregister_service_trace service K)
  = repeat false K ++ [true].
Proof.
  unfold unregistration_answers. unfold_traces.
  rewrite !answers_app, (answers_rounds_one _ K _ false) by reflexivity.
  reflexivity.
Qed.

Lemma wait_service_trace_answers service to_be_available proxy J :
  poll_answers (wait_service_trace service to_be_available proxy J)
  = repeat (negb to_be_available) J ++ [to_be_available].
Proof.
  unfold poll_answers. unfold_traces.
  rewrite !answers_app,
    (answers_rounds_one _ J _ (negb to_be_available)) by reflexivity.
  reflexivity.
Qed.

(** A trace that begins a list begins it at some length. *)
Lemma beginning_is_firstn (tr rest l : list Event) :
  tr ++ rest = l -> tr = firstn (List.length tr) l.
Proof. intros <-. rewrite firstn_app, firstn_all, Nat.sub_diag. cbn.
       symmetry. apply app_nil_r. Qed.

(** C10.  Each of the three loops tests before it sleeps.  The run of
    [register_service] or [unregister_service] in which the first attempt
    is accepted returns: it is the ENTER line, [Runtime::get()], the one
    attempt, the EXIT line.  The run of [wait_service] in which the first
    poll shows the awaited value returns: it is the ENTER line,
    [Runtime::get()], [buildProxy], the one poll, the EXIT line.  Any run,
    returning or not, whose first attempt is accepted (whose first poll
    shows the awaited value) is a beginning of that run, and all of it if
    it has returned: it holds one attempt of the loop's operation and no
    sleep.  And in any run an attempt stands before the first sleep. *)
Theorem no_delay_before_the_first_attempt service :
  (returns (register_service service)
     [entered Manager_register_service; RuntimeGot;
      register_call service true; exited Manager_register_service] tt
   /\ forall tr res,
       is_trace (register_service service) tr res ->
       hd_error (registration_answers tr) = Some true ->
       count is_registration tr = 1%nat /\ count is_sleep tr = 0%nat
       /\ exists rest,
           tr ++ rest
           = [entered Manager_register_service; RuntimeGot;
              register_call service true; exited Manager_register_service]
           /\ (res <> None -> rest = []))
  /\ (returns (unregister_service service)
        [entered Manager_unregister_service; RuntimeGot;
         unregister_call service true; exited Manager_unregister_service] tt
      /\ forall tr res,
          is_trace (unregister_service service) tr res ->
          hd_error (unregistration_answers tr) = Some true ->
          count is_unregistration tr = 1%nat /\ count is_sleep tr = 0%nat
          /\ exists rest,
              tr ++ rest
              = [entered Manager_unregister_service; RuntimeGot;
                 unregister_call service true;
                 exited Manager_unregister_service]
              /\ (res <> None -> rest = []))
  /\ (forall to_be_available,
        (forall proxy,
            returns (wait_service service to_be_available)
              [entered Manager_wait_service; RuntimeGot;
               build_proxy_call service proxy;
               AvailabilityRead proxy to_be_available;
               exited Manager_wait_service] tt)
        /\ forall tr res,
            is_trace (wait_service service to_be_available) tr res ->
            hd_error (poll_answers tr) = Some to_be_available ->
            count is_poll tr = 1%nat /\ count is_sleep tr = 0%nat
            /\ exists proxy rest,
                tr ++ rest
                = [entered Manager_wait_service; RuntimeGot;
                   build_proxy_call service proxy;
                   AvailabilityRead proxy to_be_available;
                   exited Manager_wait_service]
                /\ (res <> None -> rest = []))
  /\ (forall tr res pre ms post,
        is_trace (register_service service) tr res ->
        tr = pre ++ Slept ms :: post ->
        exists ev, In ev pre /\ is_registration ev = true)
  /\ (forall tr res pre ms post,
        is_trace (unregister_service service) tr res ->
        tr = pre ++ Slept ms :: post ->
        exists ev, In ev pre /\ is_unregistration ev = true)
  /\ (forall to_be_available tr res pre ms post,
        is_trace (wait_service service to_be_available) tr res ->
        tr = pre ++ Slept ms :: post ->
        exists ev, In ev pre /\ is_poll ev = true).
Proof.
  split; [|split; [|split; [|split; [|split]]]].
  - split.
    { apply returns_register_service. exists O. reflexivity. }
    intros tr [u|] H Hfirst.
    + apply returns_register_service in H as [K ->].
      rewrite register_service_trace_answers in Hfirst.
      destruct K as [|K]; [|discriminate Hfirst].
      split; [reflexivity|]. split; [reflexivity|].
      exists []. split; [apply app_nil_r|reflexivity].
    + destruct (register_service_runs _ _ _ _ H) as (K & rest & Heq).
      assert (HK : K = O).
      { pose proof (register_service_trace_answers service K) as Hall.
        rewrite <- Heq in Hall. unfold registration_answers in *.
        rewrite answers_app in Hall.
        destruct (answers registration_answer tr) as [|b l];
          [discriminate Hfirst|].
        injection Hfirst as ->. destruct K; [reflexivity|discriminate Hall]. }
      subst K. pose proof (beginning_is_firstn _ _ _ Heq) as Htr.
      split; [|split; [|exists rest; split; [exact Heq|congruence]]];
        rewrite Htr in Hfirst |- *;
        destruct (List.length tr) as [|[|[|[|[|n]]]]];
        try discriminate Hfirst; reflexivity.
  - split.
    { apply returns_unregister_service. exists O. reflexivity. }
    intros tr [u|] H Hfirst.
    + apply returns_unregister_service in H as [K ->].
      rewrite unregister_service_trace_answers in Hfirst.
      destruct K as [|K]; [|discriminate Hfirst].
      split; [reflexivity|]. split; [reflexivity|].
      exists []. split; [apply app_nil_r|reflexivity].
    + destruct (unregister_service_runs _ _ _ _ H) as (K & rest & Heq).
      assert (HK : K = O).
      { pose proof (unregister_service_trace_answers service K) as Hall.
        rewrite <- Heq in Hall. unfold unregistration_answers in *.
        rewrite answers_app in Hall.
        destruct (answers unregistration_answer tr) as [|b l];
          [discriminate Hfirst|].
        injection Hfirst as ->. destruct K; [reflexivity|discriminate Hall]. }
      subst K. pose proof (beginning_is_firstn _ _ _ Heq) as Htr.
      split; [|split; [|exists rest; split; [exact Heq|congruence]]];
        rewrite Htr in Hfirst |- *;
        destruct (List.length tr) as [|[|[|[|[|n]]]]];
        try discriminate Hfirst; reflexivity.
  - intros b. split.
    { intros proxy. apply returns_wait_service. exists proxy, O.
      reflexivity. }
    intros tr [u|] H Hfirst.
    + apply returns_wait_service in H as (proxy & J & ->).
      rewrite wait_service_trace_answers in Hfirst.
      destruct J as [|J]; [|destruct b; discriminate Hfirst].
      split; [reflexivity|]. split; [reflexivity|].
      exists proxy, []. split; [apply app_nil_r|reflexivity].
    + destruct (wait_service_runs _ _ _ _ _ H) as (proxy & J & rest & Heq).
      assert (HJ : J = O).
      { pose proof (wait_service_trace_answers service b proxy J) as Hall.
        rewrite <- Heq in Hall. unfold poll_answers in *.
        rewrite answers_app in Hall.
        destruct (answers poll_answer tr) as [|b' l];
          [discriminate Hfirst|].
        injection Hfirst as ->.
        destruct J; [reflexivity|destruct b; discriminate Hall]. }
      subst J. pose proof (beginning_is_firstn _ _ _ Heq) as Htr.
      split; [|split; [|exists proxy, rest; split; [exact Heq|congruence]]];
        rewrite Htr in Hfirst |- *;
        destruct (List.length tr) as [|[|[|[|[|[|n]]]]]];
        try discriminate Hfirst; reflexivity.
  - intros tr res pre ms post H ->.
    destruct (register_service_runs _ _ _ _ H) as (K & rest & Heq).
    assert (Heq' : pre ++ Slept ms :: (post ++ rest)
                   = register_service_trace service K)
      by (rewrite <- Heq, <- app_assoc; reflexivity).
    destruct K as [|K].
    + exists (register_call service true). split; [|reflexivity].
      eapply first_comes_first with (loud := is_sleep)
        (quiet := [entered Manager_register_service; RuntimeGot]);
        [exact Heq'|reflexivity|reflexivity|repeat constructor].
    + exists (register_call service false). split; [|reflexivity].
      eapply first_comes_first with (loud := is_sleep)
        (quiet := [entered Manager_register_service; RuntimeGot]);
        [exact Heq'|reflexivity|reflexivity|repeat constructor].
  - intros tr res pre ms post H ->.
    destruct (unregister_service_runs _ _ _ _ H) as (K & rest & Heq).
    assert (Heq' : pre ++ Slept ms :: (post ++ rest)
                   = unregister_service_trace service K)
      by (rewrite <- Heq, <- app_assoc; reflexivity).
    destruct K as [|K].
    + exists (unregister_call service true). split; [|reflexivity].
      eapply first_comes_first with (loud := is_sleep)
        (quiet := [entered Manager_unregister_service; RuntimeGot]);
        [exact Heq'|reflexivity|reflexivity|repeat constructor].
    + exists (unregister_call service false). split; [|reflexivity].
      eapply first_comes_first with (loud := is_sleep)
        (quiet := [entered Manager_unregister_service; RuntimeGot]);
        [exact Heq'|reflexivity|reflexivity|repeat constructor].
  - intros b tr res pre ms post H ->.
    destruct (wait_service_runs _ _ _ _ _ H) as (proxy & J & rest & Heq).
    assert (Heq' : pre ++ Slept ms :: (post ++ rest)
                   = wait_service_trace service b proxy J)
      by (rewrite <- Heq, <- app_assoc; reflexivity).
    destruct J as [|J].
    + exists (AvailabilityRead proxy b). split; [|reflexivity].
      eapply first_comes_first with (loud := is_sleep)
        (quiet := [entered Manager_wait_service; RuntimeGot;
                   build_proxy_call service proxy]);
        [exact Heq'|reflexivity|reflexivity|repeat constructor].
    + exists (AvailabilityRead proxy (negb b)). split; [|reflexivity].
      eapply first_comes_first with (loud := is_sleep)
        (quiet := [entered Manager_wait_service; RuntimeGot;
                   build_proxy_call service proxy]);
        [exact Heq'|reflexivity|reflexivity|repeat constructor].
Qed.

(** [launch_trace] and [terminate_trace], up to the building of the probe. *)
Lemma launch_trace_until_probe handle K proxy J :
  launch_trace handle K proxy J
  = ([entered Manager_launch_test_service; StubMade handle]
     ++ register_service_trace (created_service handle) K
     ++ [entered Manager_wait_service; RuntimeGot])
    ++ build_proxy_call (created_service handle) proxy
    :: (rounds J (failed_poll_round proxy true)
        ++ [AvailabilityRead proxy true; exited Manager_wait_service;
            exited Manager_launch_test_service]).
Proof.
  unfold Shapes.launch_trace, Shapes.wait_service_trace.
  rewrite <- !app_assoc. reflexivity.
Qed.

Lemma terminate_trace_until_probe service K proxy J :
  terminate_trace service K proxy J
  = ([entered Manager_terminate_test_service]
     ++ unregister_service_trace service K
     ++ [entered Manager_wait_service; RuntimeGot])
    ++ build_proxy_call service proxy
    :: (rounds J (failed_poll_round proxy false)
        ++ [AvailabilityRead proxy false; exited Manager_wait_service;
            exited Manager_terminate_test_service]).
Proof.
  unfold Shapes.terminate_trace, Shapes.wait_service_trace.
  rewrite <- !app_assoc. reflexivity.
Qed.

(** C7.  Of the four fields of a service's identity, the registration call
    gets the domain, the instance and the connection, with the stub handle;
    the unregistration call gets the domain, the interface and the instance;
    the probe is built from the domain, the instance and the connection.
    This holds of every such call in every run, returning or not, of the
    three functions, and every run of them that returns has made the call.
    In the two transitions: a launch from an empty slot returns, whatever
    the runtime answers and however often it refuses, having registered,
    under the domain, instance and connection of [create_service], the stub
    it allocated, the same in every attempt, having built the probe from
    those three fields, and with a service of that identity and that stub
    in the slot; in no run does it register a handle it has not allocated.
    A terminate from an occupied slot returns having unregistered the
    domain, interface and instance of the service in the slot and built the
    probe from its domain, instance and connection, with the slot empty. *)
Theorem identity_fields_are_routed :
  (forall service,
      only_performs
        (fun ev => forall d i h c ok,
             ev = Registered d i h c ok ->
             d = domain (meta service) /\ i = instance (meta service)
             /\ h = handle service /\ c = connection (meta service))
        (register_service service)
      /\ only_performs
           (fun ev => forall d f i ok,
                ev = Unregistered d f i ok ->
                d = domain (meta service) /\ f = interface (meta service)
                /\ i = instance (meta service))
           (unregister_service service)
      /\ (forall to_be_available,
             only_performs
               (fun ev => forall d i c p,
                    ev = ProxyBuilt d i c p ->
                    d = domain (meta service) /\ i = instance (meta service)
                    /\ c = connection (meta service))
               (wait_service service to_be_available))
      /\ (forall tr u, returns (register_service service) tr u ->
                       In (register_call service true) tr)
      /\ (forall tr u, returns (unregister_service service) tr u ->
                       In (unregister_call service true) tr)
      /\ (forall to_be_available tr u,
             returns (wait_service service to_be_available) tr u ->
             exists proxy, In (build_proxy_call service proxy) tr))
  /\ (forall this,
        only_performs
          (fun ev =>
             (forall d i h c ok,
                 ev = Registered d i h c ok ->
                 d = SERVICE_DOMAIN /\ i = SERVICE_INSTANCE
                 /\ c = SERVICE_CONNECTION)
             /\ (forall d i c p,
                    ev = ProxyBuilt d i c p ->
                    d = SERVICE_DOMAIN /\ i = SERVICE_INSTANCE
                    /\ c = SERVICE_CONNECTION))
          (launch_test_service this)
        /\ (state this = Stopped ->
            (forall tr res pre d i h c ok post,
                is_trace (launch_test_service this) tr res ->
                tr = pre ++ Registered d i h c ok :: post ->
                In (StubMade h) pre)
            /\ (forall tr this',
                   returns (launch_test_service this) tr this' ->
                   exists h p,
                     In (StubMade h) tr
                     /\ In (Registered SERVICE_DOMAIN SERVICE_INSTANCE h
                                       SERVICE_CONNECTION true) tr
                     /\ (forall d i h' c ok,
                            In (Registered d i h' c ok) tr -> h' = h)
                     /\ In (ProxyBuilt SERVICE_DOMAIN SERVICE_INSTANCE
                                       SERVICE_CONNECTION p) tr
                     /\ running_service this'
                        = Some {| meta := {| domain := SERVICE_DOMAIN;
                                             instance := SERVICE_INSTANCE;
                                             interface := SERVICE_INTERFACE;
                                             connection := SERVICE_CONNECTION |};
                                  handle := h |})
            /\ (forall h K p J,
                   returns (launch_test_service this) (launch_trace h K p J)
                           {| running_service := Some (created_service h) |})))
  /\ (forall this service,
        running_service this = Some service ->
        only_performs
          (fun ev =>
             (forall d f i ok,
                 ev = Unregistered d f i ok ->
                 d = domain (meta service) /\ f = interface (meta service)
                 /\ i = instance (meta service))
             /\ (forall d i c p,
                    ev = ProxyBuilt d i c p ->
                    d = domain (meta service) /\ i = instance (meta service)
                    /\ c = connection (meta service)))
          (terminate_test_service this)
        /\ (forall tr this',
               returns (terminate_test_service this) tr this' ->
               In (Unregistered (domain (meta service))
                                (interface (meta service))
                                (instance (meta service)) true) tr
               /\ (exists p,
                      In (ProxyBuilt (domain (meta service))
                                     (instance (meta service))
                                     (connection (meta service)) p) tr)
               /\ running_service this' = None)
        /\ (forall K p J,
               returns (terminate_test_service this)
                       (terminate_trace service K p J)
                       {| running_service := None |})).
Proof.
  split; [|split].
  - intros service. split; [|split; [|split; [|split; [|split]]]].
    + apply only_performs_returning;
        [apply can_always_return_register_service|].
      intros tr u H. apply returns_register_service in H as [K ->].
      unfold_traces. each_event; intros d i h c ok Heq;
        try discriminate Heq; injection Heq as <- <- <- <- _; auto.
    + apply only_performs_returning;
        [apply can_always_return_unregister_service|].
      intros tr u H. apply returns_unregister_service in H as [K ->].
      unfold_traces. each_event; intros d f i ok Heq;
        try discriminate Heq; injection Heq as <- <- <- _; auto.
    + intros b. apply only_performs_returning;
        [apply can_always_return_wait_service|].
      intros tr u H. apply returns_wait_service in H as (p & J & ->).
      unfold_traces. each_event; intros d i c p' Heq;
        try discriminate Heq; injection Heq as <- <- <- _; auto.
    + intros tr u H. apply returns_register_service in H as [K ->].
      unfold Shapes.register_service_trace. rewrite !in_app_iff.
      right. right. left. reflexivity.
    + intros tr u H. apply returns_unregister_service in H as [K ->].
      unfold Shapes.unregister_service_trace. rewrite !in_app_iff.
      right. right. left. reflexivity.
    + intros b tr u H. apply returns_wait_service in H as (p & J & ->).
      exists p. unfold Shapes.wait_service_trace. rewrite !in_app_iff.
      left. right. right. left. reflexivity.
  - intros this. split.
    { apply only_performs_returning;
        [apply can_always_return_launch_test_service|].
      intros tr this' H. apply returns_launch_test_service in H.
      destruct H as [(_ & -> & _)|(_ & h & K & p & J & -> & _)];
        unfold_traces; each_event; split; intros ? ? ? ?; intros;
        try discriminate;
        match goal with
        | Heq : _ = _ |- _ => injection Heq; intros; subst; auto
        end. }
    intros Hs.
    assert (Hv : has_value this = false).
    { unfold state in Hs. destruct (has_value this); [discriminate Hs|].
      reflexivity. }
    assert (Hsame : forall h K p J,
               Forall (fun ev => forall d i h' c ok,
                           ev = Registered d i h' c ok -> h' = h)
                      (launch_trace h K p J)).
    { intros h K p J. unfold_traces; each_event; intros d i h' c ok Hev;
        try discriminate Hev; injection Hev; intros; subst; reflexivity. }
    split; [|split].
    + intros tr res pre d i h c ok post H ->.
      destruct (launch_test_service_runs _ _ _ _ Hv H)
        as (h0 & K & p & J & rest & Heq).
      rewrite <- app_assoc in Heq. cbn [app] in Heq.
      assert (Hin : In (Registered d i h c ok) (launch_trace h0 K p J))
        by (rewrite <- Heq; apply in_elt).
      pose proof (Hsame h0 K p J) as HF. rewrite Forall_forall in HF.
      rewrite (HF _ Hin d i h c ok eq_refl).
      eapply (first_comes_first is_registration)
        with (quiet := [entered Manager_launch_test_service])
             (first := StubMade h0); [exact Heq|reflexivity|reflexivity|].
      repeat constructor.
    + intros tr this' H. apply returns_launch_test_service in H.
      destruct H as [(Hv' & _)|(_ & h & K & p & J & -> & ->)];
        [congruence|].
      exists h, p. split; [right; left; reflexivity|].
      split; [rewrite launch_trace_cut; apply in_elt|].
      split; [|split; [rewrite launch_trace_until_probe; apply in_elt
                      |reflexivity]].
      intros d i h' c ok Hin.
      pose proof (Hsame h K p J) as HF. rewrite Forall_forall in HF.
      exact (HF _ Hin d i h' c ok eq_refl).
    + intros h K p J. apply returns_launch_test_service. right.
      split; [exact Hv|]. exists h, K, p, J. auto.
  - intros this service Hslot. split; [|split].
    { apply only_performs_returning;
        [apply can_always_return_terminate_test_service|].
      intros tr this' H. apply returns_terminate_test_service in H.
      destruct H as [(Hn & _)|(s & K & p & J & Hsome & -> & _)];
        [congruence|].
      assert (s = service) as -> by congruence.
      unfold_traces; each_event; split; intros ? ? ? ?; intros;
        try discriminate;
        match goal with
        | Heq : _ = _ |- _ => injection Heq; intros; subst; auto
        end. }
    + intros tr this' H. apply returns_terminate_test_service in H.
      destruct H as [(Hn & _)|(s & K & p & J & Hsome & -> & ->)];
        [congruence|].
      assert (s = service) as -> by congruence.
      split; [rewrite terminate_trace_cut; apply in_elt|].
      split; [|reflexivity].
      exists p. rewrite terminate_trace_until_probe. apply in_elt.
    + intros K p J. apply returns_terminate_test_service. right.
      exists service, K, p, J. auto.
Qed.

(** *** lib.cpp: the exported functions *)

Local Abbreviation can_always_return := (can_always_return record).

Lemma returns_instance_ static_manager tr manager :
  returns (instance_ static_manager) tr manager <->
  tr = construction_trace static_manager
  /\ manager = manager_of static_manager.
Proof.
  destruct static_manager as [m|]; cbn [instance_ construction_trace manager_of].
  - apply returns_Ret.
  - unfold Manager_ctor, configure_common_api_runtime.
    rewrite returns_bind. split.
    + intros (u & tr1 & tr2 & -> & H1 & H2).
      apply returns_bind in H1 as (u1 & tr3 & tr4 & -> & H3 & H4).
      apply returns_trigger in H3 as ->. apply returns_trigger in H4 as ->.
      apply returns_Ret in H2 as [-> ->]. auto.
    + intros [-> ->].
      exists tt, [PropertySet (str "LibraryBase") SOMEIP_GEN_LIBRARY_NAME_BASE;
                  RuntimeGot], [].
      split; [reflexivity|]. split; [|apply returns_Ret; auto].
      apply returns_bind.
      exists tt, [PropertySet (str "LibraryBase") SOMEIP_GEN_LIBRARY_NAME_BASE],
        [RuntimeGot].
      split; [reflexivity|]. split; apply returns_trigger; reflexivity.
Qed.

Lemma can_always_return_instance_ static_manager :
  can_always_return (instance_ static_manager).
Proof.
  destruct static_manager as [m|]; cbn [instance_].
  - apply can_always_return_Ret.
  - unfold Manager_ctor, configure_common_api_runtime.
    apply can_always_return_bind; [|intros; apply can_always_return_Ret].
    apply can_always_return_bind; [|intros _];
      apply can_always_return_trigger; exact tt.
Qed.

Lemma returns_under_lock method static_manager tr static_manager' :
  returns (under_lock method static_manager) tr static_manager' <->
  exists inner this',
    returns (method (manager_of static_manager)) inner this'
    /\ tr = Locked :: construction_trace static_manager
                   ++ inner ++ [Unlocked]
    /\ static_manager' = Some this'.
Proof.
  unfold under_lock. rewrite returns_bind. split.
  - intros (u & tr1 & tr2 & -> & H1 & H2). apply returns_trigger in H1 as ->.
    apply returns_bind in H2 as (m & tr3 & tr4 & -> & H3 & H4).
    apply returns_instance_ in H3 as [-> ->].
    apply returns_bind in H4 as (m' & tr5 & tr6 & -> & H5 & H6).
    apply returns_bind in H6 as (u' & tr7 & tr8 & -> & H7 & H8).
    apply returns_trigger in H7 as ->. apply returns_Ret in H8 as [-> ->].
    exists tr5, m'. auto.
  - intros (inner & this' & Hinner & -> & ->).
    exists tt, [Locked],
      (construction_trace static_manager ++ inner ++ [Unlocked]).
    split; [reflexivity|]. split; [apply returns_trigger; reflexivity|].
    apply returns_bind.
    exists (manager_of static_manager), (construction_trace static_manager),
      (inner ++ [Unlocked]).
    split; [reflexivity|]. split; [apply returns_instance_; auto|].
    apply returns_bind. exists this', inner, [Unlocked].
    split; [reflexivity|]. split; [exact Hinner|].
    apply returns_bind. exists tt, [Unlocked], [].
    split; [reflexivity|]. split; [apply returns_trigger; reflexivity|].
    apply returns_Ret. auto.
Qed.

Lemma can_always_return_under_lock method static_manager :
  (forall this, can_always_return (method this)) ->
  can_always_return (under_lock method static_manager).
Proof.
  intros Hmethod. unfold under_lock.
  apply can_always_return_bind;
    [apply can_always_return_trigger; exact tt|intros _].
  apply can_always_return_bind;
    [apply can_always_return_instance_|intros m].
  apply can_always_return_bind; [apply Hmethod|intros m'].
  apply can_always_return_bind;
    [apply can_always_return_trigger; exact tt|intros _].
  apply can_always_return_Ret.
Qed.

Lemma launch_under_lock static_manager :
  launch __PRETTY_FUNCTION__ static_manager
  = under_lock launch_test_service static_manager.
Proof. reflexivity. Qed.

Lemma terminate_under_lock static_manager :
  terminate __PRETTY_FUNCTION__ static_manager
  = under_lock terminate_test_service static_manager.
Proof. reflexivity. Qed.

Lemma methods_take_no_lock this :
  only_performs (fun ev => is_lock_event ev = false)
                (launch_test_service this)
  /\ only_performs (fun ev => is_lock_event ev = false)
                   (terminate_test_service this).
Proof.
  split.
  - apply only_performs_returning;
      [apply can_always_return_launch_test_service|].
    intros tr this' H. apply returns_launch_test_service in H.
    destruct H as [(_ & -> & _)|(_ & h & K & p & J & -> & _)];
      unfold_traces; each_event; reflexivity.
  - apply only_performs_returning;
      [apply can_always_return_terminate_test_service|].
    intros tr this' H. apply returns_terminate_test_service in H.
    destruct H as [(_ & -> & _)|(service & K & p & J & _ & -> & _)];
      unfold_traces; each_event; reflexivity.
Qed.

Lemma construction_takes_no_lock static_manager :
  Forall (fun ev => is_lock_event ev = false)
         (construction_trace static_manager).
Proof. destruct static_manager; repeat constructor. Qed.

(** Between [Locked] and [Unlocked]: in a list [Locked :: inner ++
    [Unlocked]] whose [inner] has no lock event, whatever stands before an
    event that is not a lock event is [Locked] and then no lock event. *)
Lemma inside_the_lock pre ev post inner :
  pre ++ ev :: post = Locked :: inner ++ [Unlocked] ->
  is_lock_event ev = false ->
  Forall (fun ev => is_lock_event ev = false) inner ->
  exists pre', pre = Locked :: pre'
               /\ Forall (fun ev => is_lock_event ev = false) pre'.
Proof.
  intros Heq Hev Hinner. destruct pre as [|first pre'].
  - injection Heq as -> _. discriminate Hev.
  - injection Heq as -> Heq. exists pre'. split; [reflexivity|].
    apply app_eq_app in Heq as [l [[-> Hl]|[-> Hl]]].
    + destruct l as [|x l].
      * injection Hl as <- _. discriminate Hev.
      * injection Hl as _ Hl. destruct l; discriminate Hl.
    + apply Forall_app in Hinner. tauto.
Qed.

Lemma under_lock_holds_the_lock method static_manager :
  (forall this, can_always_return (method this)) ->
  (forall this, only_performs (fun ev => is_lock_event ev = false)
                              (method this)) ->
  (forall tr static_manager',
      returns (under_lock method static_manager) tr static_manager' ->
      exists inner,
        tr = Locked :: inner ++ [Unlocked]
        /\ Forall (fun ev => is_lock_event ev = false) inner)
  /\ (forall tr res pre ev post,
         is_trace (under_lock method static_manager) tr res ->
         tr = pre ++ ev :: post ->
         is_lock_event ev = false ->
         exists pre', pre = Locked :: pre'
                      /\ Forall (fun ev => is_lock_event ev = false) pre').
Proof.
  intros Hreturn Hquiet.
  assert (Hshape : forall tr static_manager',
             returns (under_lock method static_manager) tr static_manager' ->
             exists inner,
               tr = Locked :: inner ++ [Unlocked]
               /\ Forall (fun ev => is_lock_event ev = false) inner).
  { intros tr static_manager' H.
    apply returns_under_lock in H as (inner & this' & Hinner & -> & _).
    exists (construction_trace static_manager ++ inner).
    split; [rewrite <- app_assoc; reflexivity|].
    apply Forall_app. split; [apply construction_takes_no_lock|].
    eapply Hquiet, Hinner. }
  split; [exact Hshape|].
  intros tr res pre ev post H -> Hev.
  destruct (is_trace_extends record _ _ _
              (can_always_return_under_lock _ static_manager Hreturn) H)
    as (rest & static_manager' & Hr).
  apply Hshape in Hr as (inner & Heq & Hinner).
  rewrite <- app_assoc in Heq.
  eapply inside_the_lock; [exact Heq|exact Hev|exact Hinner].
Qed.

(** X2.  The exported [launch] and [terminate] hold the mutex for all they
    do: a run that returns is [Locked], then events that are no lock events,
    then [Unlocked]; and in any run, returning or not, whatever else than
    locking is performed comes after the one [Locked] and before any
    [Unlocked]. *)
Theorem lock_is_held_throughout static_manager :
  ((forall tr static_manager',
       returns (launch __PRETTY_FUNCTION__ static_manager)
               tr static_manager' ->
       exists inner,
         tr = Locked :: inner ++ [Unlocked]
         /\ Forall (fun ev => is_lock_event ev = false) inner)
   /\ (forall tr res pre ev post,
          is_trace (launch __PRETTY_FUNCTION__ static_manager) tr res ->
          tr = pre ++ ev :: post ->
          is_lock_event ev = false ->
          exists pre', pre = Locked :: pre'
                       /\ Forall (fun ev => is_lock_event ev = false) pre'))
  /\ ((forall tr static_manager',
          returns (terminate __PRETTY_FUNCTION__ static_manager)
                  tr static_manager' ->
          exists inner,
            tr = Locked :: inner ++ [Unlocked]
            /\ Forall (fun ev => is_lock_event ev = false) inner)
      /\ (forall tr res pre ev post,
             is_trace (terminate __PRETTY_FUNCTION__ static_manager) tr res ->
             tr = pre ++ ev :: post ->
             is_lock_event ev = false ->
             exists pre', pre = Locked :: pre'
                          /\ Forall (fun ev => is_lock_event ev = false)
                                    pre')).
Proof.
  split.
  - rewrite launch_under_lock. apply under_lock_holds_the_lock.
    + apply can_always_return_launch_test_service.
    + apply methods_take_no_lock.
  - rewrite terminate_under_lock. apply under_lock_holds_the_lock.
    + apply can_always_return_terminate_test_service.
    + apply methods_take_no_lock.
Qed.

(** X9.  What the exported functions add to the methods: [launch] returns
    exactly after the lock, the construction of the manager if this is the
    first call, a returning run of [launch_test_service] on the manager, and
    the unlock, and leaves the static holding the manager the method
    returned; [terminate] likewise with [terminate_test_service]. *)
Theorem exported_functions_wrap_the_methods static_manager tr static_manager' :
  (returns (launch __PRETTY_FUNCTION__ static_manager) tr static_manager' <->
   exists inner this',
     returns (launch_test_service (manager_of static_manager)) inner this'
     /\ tr = Locked :: construction_trace static_manager
                    ++ inner ++ [Unlocked]
     /\ static_manager' = Some this')
  /\ (returns (terminate __PRETTY_FUNCTION__ static_manager)
              tr static_manager' <->
      exists inner this',
        returns (terminate_test_service (manager_of static_manager))
                inner this'
        /\ tr = Locked :: construction_trace static_manager
                       ++ inner ++ [Unlocked]
        /\ static_manager' = Some this').
Proof.
  split.
  - rewrite launch_under_lock. apply returns_under_lock.
  - rewrite terminate_under_lock. apply returns_under_lock.
Qed.

(** X3.  [Manager::instance()] constructs the manager on the first call
    only: then it sets the LibraryBase property to "someip-test-service",
    gets the runtime, and returns a manager with an empty slot; on a later
    call it performs nothing and returns the manager as it is.  Either of
    the exported functions leaves the static constructed. *)
Theorem manager_is_constructed_by_the_first_call :
  (forall tr manager,
      returns (instance_ None) tr manager <->
      tr = [PropertySet (str "LibraryBase") (str "someip-test-service");
            RuntimeGot]
      /\ manager = stopped_manager)
  /\ (forall this tr manager,
         returns (instance_ (Some this)) tr manager <->
         tr = [] /\ manager = this)
  /\ (forall static_manager tr static_manager',
         returns (launch __PRETTY_FUNCTION__ static_manager)
                 tr static_manager' \/
         returns (terminate __PRETTY_FUNCTION__ static_manager)
                 tr static_manager' ->
         static_manager' <> None
         /\ count (fun ev => match ev with PropertySet _ _ => true
                                      | _ => false end) tr
            = match static_manager with None => 1%nat | Some _ => 0%nat end).
Proof.
  split; [|split].
  - intros tr manager. apply (returns_instance_ None).
  - intros this tr manager. apply (returns_instance_ (Some this)).
  - assert (Hmethods : forall this tr this',
              returns (launch_test_service this) tr this'
              \/ returns (terminate_test_service this) tr this' ->
              count (fun ev => match ev with PropertySet _ _ => true
                                        | _ => false end) tr = 0%nat).
    { intros this tr this' [H|H].
      - apply returns_launch_test_service in H.
        destruct H as [(_ & -> & _)|(_ & h & K & p & J & -> & _)];
          unfold_traces; rewrite ?count_app, ?count_rounds; cbn; lia.
      - apply returns_terminate_test_service in H.
        destruct H as [(_ & -> & _)|(service & K & p & J & _ & -> & _)];
          unfold_traces; rewrite ?count_app, ?count_rounds; cbn; lia. }
    intros static_manager tr static_manager' [H|H].
    + rewrite launch_under_lock in H.
      apply returns_under_lock in H as (inner & this' & Hinner & -> & ->).
      split; [discriminate|].
      change (Locked :: construction_trace static_manager
                     ++ inner ++ [Unlocked])
        with ([Locked] ++ construction_trace static_manager
                       ++ inner ++ [Unlocked]).
      rewrite !count_app, (Hmethods _ _ _ (or_introl Hinner)).
      destruct static_manager; reflexivity.
    + rewrite terminate_under_lock in H.
      apply returns_under_lock in H as (inner & this' & Hinner & -> & ->).
      split; [discriminate|].
      change (Locked :: construction_trace static_manager
                     ++ inner ++ [Unlocked])
        with ([Locked] ++ construction_trace static_manager
                       ++ inner ++ [Unlocked]).
      rewrite !count_app, (Hmethods _ _ _ (or_intror Hinner)).
      destruct static_manager; reflexivity.
Qed.

Lemma transitions_app tr1 tr2 :
  transitions (tr1 ++ tr2) = transitions tr1 ++ transitions tr2.
Proof. apply flat_map_app. Qed.

Lemma transitions_rounds_none K round :
  transitions round = [] -> transitions (rounds K round) = [].
Proof.
  intros H. induction K as [|K IH]; [reflexivity|].
  rewrite rounds_S, transitions_app, H, IH. reflexivity.
Qed.

Lemma launch_trace_transitions handle K proxy J :
  transitions (launch_trace handle K proxy J) = [true].
Proof.
  unfold_traces. rewrite !transitions_app,
    (transitions_rounds_none K), (transitions_rounds_none J) by reflexivity.
  reflexivity.
Qed.

Lemma terminate_trace_transitions service K proxy J :
  transitions (terminate_trace service K proxy J) = [false].
Proof.
  unfold_traces. rewrite !transitions_app,
    (transitions_rounds_none K), (transitions_rounds_none J) by reflexivity.
  reflexivity.
Qed.

Lemma method_transition c this tr this' :
  returns (call __PRETTY_FUNCTION__ c this) tr this' ->
  (transitions tr = [] /\ this' = this)
  \/ (transitions tr = [negb (has_value this)]
      /\ has_value this' = negb (has_value this)
      /\ (has_value this' = true ->
          exists handle,
            running_service this' = Some (created_service handle))).
Proof.
  destruct c; cbn [call]; intros H.
  - apply returns_launch_test_service in H.
    destruct H as [(_ & -> & ->)|(Hv & h & K & p & J & -> & ->)].
    + left. auto.
    + right. rewrite launch_trace_transitions, Hv.
      split; [reflexivity|]. split; [reflexivity|].
      intros _. exists h. reflexivity.
  - apply returns_terminate_test_service in H.
    destruct H as [(_ & -> & ->)|(service & K & p & J & Hs & -> & ->)].
    + left. auto.
    + right. rewrite terminate_trace_transitions.
      unfold has_value. rewrite Hs.
      split; [reflexivity|]. split; [reflexivity|]. discriminate.
Qed.


(** X5.  There is no cap on the attempts: a launch from an empty slot whose
    registration attempts were all refused has not returned, however many
    they were, and a terminate from an occupied slot whose unregistration
    attempts were all refused, or whose polls all reported available, has
    not returned. *)
Theorem refused_for_ever_never_returns :
  (forall this tr res,
      state this = Stopped ->
      is_trace (launch_test_service this) tr res ->
      ~ In true (registration_answers tr) -> res = None)
  /\ (forall this tr res,
         state this = Running ->
         is_trace (terminate_test_service this) tr res ->
         ~ In true (unregistration_answers tr)
         \/ ~ In false (poll_answers tr) ->
         res = None).
Proof.
  split.
  - intros this tr [this'|] Hs H Hno; [exfalso|reflexivity].
    apply returns_launch_test_service in H.
    destruct H as [(Hv & _)|(_ & h & K & p & J & -> & _)].
    + unfold state in Hs. rewrite Hv in Hs. discriminate Hs.
    + apply Hno. rewrite launch_trace_registration_answers.
      apply in_or_app. right. left. reflexivity.
  - intros this tr [this'|] Hs H Hno; [exfalso|reflexivity].
    apply returns_terminate_test_service in H.
    destruct H as [(Hn & _)|(service & K & p & J & _ & -> & _)].
    + unfold state, has_value in Hs. rewrite Hn in Hs. discriminate Hs.
    + destruct Hno as [Hno|Hno]; apply Hno.
      * rewrite terminate_trace_unregistration_answers.
        apply in_or_app. right. left. reflexivity.
      * rewrite terminate_trace_poll_answers.
        apply in_or_app. right. left. reflexivity.
Qed.

(** X6.  Every sleep of every run of the two methods lasts [RETRY_TIMEOUT],
    100 milliseconds. *)
Theorem every_sleep_is_the_retry_timeout this :
  only_performs (fun ev => forall ms, ev = Slept ms -> ms = 100)
                (launch_test_service this)
  /\ only_performs (fun ev => forall ms, ev = Slept ms -> ms = 100)
                   (terminate_test_service this).
Proof.
  split.
  - apply only_performs_returning;
      [apply can_always_return_launch_test_service|].
    intros tr this' H. apply returns_launch_test_service in H.
    destruct H as [(_ & -> & _)|(_ & h & K & p & J & -> & _)];
      unfold_traces; each_event; intros ms Heq;
      try discriminate Heq; injection Heq as <-; reflexivity.
  - apply only_performs_returning;
      [apply can_always_return_terminate_test_service|].
    intros tr this' H. apply returns_terminate_test_service in H.
    destruct H as [(_ & -> & _)|(service & K & p & J & _ & -> & _)];
      unfold_traces; each_event; intros ms Heq;
      try discriminate Heq; injection Heq as <-; reflexivity.
Qed.

(** X7.  Only the runtime keeps a call from returning: wherever a run of
    either method, or of either exported function, stands, there are answers
    of the runtime with which it returns. *)
Theorem only_the_runtime_blocks :
  (forall this, can_always_return (launch_test_service this))
  /\ (forall this, can_always_return (terminate_test_service this))
  /\ (forall static_manager,
         can_always_return (launch __PRETTY_FUNCTION__ static_manager))
  /\ (forall static_manager,
         can_always_return (terminate __PRETTY_FUNCTION__ static_manager)).
Proof.
  split; [|split; [|split]].
  - apply can_always_return_launch_test_service.
  - apply can_always_return_terminate_test_service.
  - intros static_manager. rewrite launch_under_lock.
    apply can_always_return_under_lock,
      can_always_return_launch_test_service.
  - intros static_manager. rewrite terminate_under_lock.
    apply can_always_return_under_lock,
      can_always_return_terminate_test_service.
Qed.


End Properties.

(** *** The properties at work

    The methods are run against [example_script], with GCC's texts for
    [__PRETTY_FUNCTION__]. *)

(** C1 at work: a launch from the stopped manager, refused once. *)
Lemma slot_guards_the_calls_of_a_launch :
  Forall (fun ev => (is_registration ev = true
                     -> state stopped_manager = Stopped)
                    /\ is_unregistration ev = false)
         (launch_trace gcc_pretty_function example_handle 1 example_proxy 2).
Proof.
  apply (proj1 (proj2 (proj2
           (slot_tells_the_state_and_guards_the_calls
              gcc_pretty_function stopped_manager)))
           _ (Some (running_manager (created_service example_handle)))).
  apply (runs_to_returns 100 (example_script 1 0 [false; false; true])).
  vm_compute. split; reflexivity.
Defined.

(** C2 as stated fails: when the runtime refuses the first
    registration, two launches in sequence make two registration calls. *)
Lemma two_launches_register_twice :
  runs_to 100 (example_script 1 0 [true])
    (this <- launch_test_service gcc_pretty_function stopped_manager ;;
     launch_test_service gcc_pretty_function this)
    (launch_trace gcc_pretty_function example_handle 1 example_proxy 0
     ++ ignored_launch_trace gcc_pretty_function)
    (running_manager (created_service example_handle))
  /\ count is_registration
       (launch_trace gcc_pretty_function example_handle 1 example_proxy 0
        ++ ignored_launch_trace gcc_pretty_function) = 2%nat.
Proof. split; [split|]; vm_compute; reflexivity. Qed.

(** C2, amended, at work on those two launches. *)
Lemma second_launch_is_a_no_op :
  (exists K,
      registration_answers
        (launch_trace gcc_pretty_function example_handle 1 example_proxy 0)
      = repeat false K ++ [true])
  /\ count is_runtime_call (ignored_launch_trace gcc_pretty_function) = 0%nat
  /\ registration_answers
       (launch_trace gcc_pretty_function example_handle 1 example_proxy 0
        ++ ignored_launch_trace gcc_pretty_function)
     = registration_answers
         (launch_trace gcc_pretty_function example_handle 1 example_proxy 0)
  /\ running_manager (created_service example_handle)
     = running_manager (created_service example_handle)
  /\ state (running_manager (created_service example_handle)) = Running.
Proof.
  apply (proj1 (proj2 (nothing_to_do_is_a_no_op gcc_pretty_function))
           stopped_manager).
  - reflexivity.
  - apply (runs_to_returns 100 (example_script 1 0 [true])).
    vm_compute. split; reflexivity.
  - apply (runs_to_returns 100 (example_script 1 0 [true])).
    vm_compute. split; reflexivity.
Defined.

(** C3 at work: the runtime refuses twice; the run is watched up to the
    first poll, which reports unavailable. *)
Lemma two_refusals_then_registered :
  exists handle proxy J rest' rest,
    firstn 16 (launch_trace gcc_pretty_function
                 example_handle 2 example_proxy 1)
    = launch_until_registered gcc_pretty_function handle 2 ++ rest'
    /\ firstn 16 (launch_trace gcc_pretty_function
                    example_handle 2 example_proxy 1) ++ rest
       = launch_trace gcc_pretty_function handle 2 proxy J.
Proof.
  apply (proj2 (proj1 (retries_until_the_runtime_accepts gcc_pretty_function)
                  stopped_manager 2%nat eq_refl)
           _ None).
  - apply is_trace_cut
      with (tr2 := skipn 16 (launch_trace gcc_pretty_function
                               example_handle 2 example_proxy 1))
           (res := Some (running_manager (created_service example_handle))).
    rewrite firstn_skipn.
    apply (runs_to_returns 100 (example_script 2 0 [false; true])).
    vm_compute. split; reflexivity.
  - vm_compute. reflexivity.
Defined.

(** C4 at work: the run in which the probe reports unavailable twice and
    then available returns the running manager; cut after the second poll
    and its sleep, it is not a run that has returned. *)
Lemma launch_from_stopped_returns_once_available :
  state stopped_manager = Stopped
  /\ returns record
       (launch_test_service gcc_pretty_function stopped_manager)
       (launch_trace gcc_pretty_function example_handle 0 example_proxy 2)
       (running_manager (created_service example_handle))
  /\ ~ returns record
         (launch_test_service gcc_pretty_function stopped_manager)
         (firstn 13 (launch_trace gcc_pretty_function
                       example_handle 0 example_proxy 2))
         (running_manager (created_service example_handle)).
Proof.
  destruct (launch_returns_once_available
              gcc_pretty_function stopped_manager eq_refl)
    as (Hwaits & _ & _ & Hreturns).
  split; [reflexivity|]. split; [apply Hreturns|].
  intros H. apply Hwaits in H; [discriminate H|].
  vm_compute. intros [Hpoll|[Hpoll|[]]]; discriminate Hpoll.
Defined.

(** C5 at work: the runtime refuses the unregistration once, and the probe
    reports available twice before it reports unavailable. *)
Lemma terminate_from_running_clears_the_slot :
  running_service (running_manager (created_service example_handle))
  = Some (created_service example_handle)
  /\ exists K proxy J,
      terminate_trace gcc_pretty_function
        (created_service example_handle) 1 example_proxy 2
      = [entered gcc_pretty_function Manager_terminate_test_service;
         entered gcc_pretty_function Manager_unregister_service; RuntimeGot]
        ++ rounds K (failed_unregister_round (created_service example_handle))
        ++ [unregister_call (created_service example_handle) true;
            exited gcc_pretty_function Manager_unregister_service;
            entered gcc_pretty_function Manager_wait_service; RuntimeGot;
            build_proxy_call (created_service example_handle) proxy]
        ++ rounds J [AvailabilityRead proxy true; Slept RETRY_TIMEOUT]
        ++ [AvailabilityRead proxy false;
            exited gcc_pretty_function Manager_wait_service;
            exited gcc_pretty_function Manager_terminate_test_service]
      /\ stopped_manager = stopped_manager
      /\ running_service stopped_manager = None
      /\ state stopped_manager = Stopped.
Proof.
  split; [reflexivity|].
  apply (proj1 (terminate_unregisters_waits_then_clears
                  gcc_pretty_function
                  (running_manager (created_service example_handle))
                  (created_service example_handle) eq_refl)).
  apply (runs_to_returns 100 (example_script 0 1 [true; true; false])).
  vm_compute. split; reflexivity.
Defined.

(** C7 at work: a launch in a fresh manager, refused once, and a terminate
    of a service whose four identity fields differ, refused once. *)
Lemma four_fields_routed :
  (exists h p,
      In (StubMade h)
         (launch_trace gcc_pretty_function example_handle 1 example_proxy 1)
      /\ In (Registered (str "local") (str "test.TestService") h
                        (str "test-service") true)
            (launch_trace gcc_pretty_function example_handle 1 example_proxy 1)
      /\ (forall d i h' c ok,
             In (Registered d i h' c ok)
                (launch_trace gcc_pretty_function
                   example_handle 1 example_proxy 1) ->
             h' = h)
      /\ In (ProxyBuilt (str "local") (str "test.TestService")
                        (str "test-service") p)
            (launch_trace gcc_pretty_function example_handle 1 example_proxy 1)
      /\ running_service (running_manager (created_service example_handle))
         = Some {| meta := {| domain := str "local";
                              instance := str "test.TestService";
                              interface := str "test.TestService:v0_1";
                              connection := str "test-service" |};
                   handle := h |})
  /\ (In (Unregistered (str "d") (str "f") (str "i") true)
         (terminate_trace gcc_pretty_function example_service
            1 example_proxy 1)
      /\ (exists p,
             In (ProxyBuilt (str "d") (str "i") (str "c") p)
                (terminate_trace gcc_pretty_function example_service
                   1 example_proxy 1))
      /\ running_service stopped_manager = None)
  /\ In (Registered (str "d") (str "i") example_handle (str "c") true)
        (register_service_trace gcc_pretty_function example_service 0).
Proof.
  pose proof (identity_fields_are_routed gcc_pretty_function)
    as (Hhelpers & Hlaunch & Hterminate).
  split; [|split].
  - apply (proj1 (proj2 (proj2 (Hlaunch stopped_manager) eq_refl))).
    apply (runs_to_returns 100 (example_script 1 0 [false; true])).
    vm_compute. split; reflexivity.
  - apply (proj1 (proj2 (Hterminate (running_manager example_service)
                           example_service eq_refl))).
    apply (runs_to_returns 100 (example_script 0 1 [true; false])).
    vm_compute. split; reflexivity.
  - destruct (Hhelpers example_service) as (_ & _ & _ & Hreg & _).
    apply (Hreg _ tt).
    apply (runs_to_returns 100 (example_script 0 0 [true])).
    vm_compute. split; reflexivity.
Defined.

(** C10 at work: [wait_service], watched up to its first poll, which shows
    the awaited value. *)
Lemma first_poll_shows_the_awaited_value :
  count is_poll
    [entered gcc_pretty_function Manager_wait_service; RuntimeGot;
     build_proxy_call (created_service example_handle) example_proxy;
     AvailabilityRead example_proxy true] = 1%nat
  /\ count is_sleep
       [entered gcc_pretty_function Manager_wait_service; RuntimeGot;
        build_proxy_call (created_service example_handle) example_proxy;
        AvailabilityRead example_proxy true] = 0%nat
  /\ exists proxy rest,
      [entered gcc_pretty_function Manager_wait_service; RuntimeGot;
       build_proxy_call (created_service example_handle) example_proxy;
       AvailabilityRead example_proxy true] ++ rest
      = [entered gcc_pretty_function Manager_wait_service; RuntimeGot;
         build_proxy_call (created_service example_handle) proxy;
         AvailabilityRead proxy true;
         exited gcc_pretty_function Manager_wait_service]
      /\ (@None unit <> None -> rest = []).
Proof.
  apply (proj2 (proj1 (proj2 (proj2
           (no_delay_before_the_first_attempt
              gcc_pretty_function (created_service example_handle)))) true)).
  - apply is_trace_cut
      with (tr2 := [exited gcc_pretty_function Manager_wait_service])
           (res := Some tt).
    apply (runs_to_returns 100 (example_script 0 0 [true])).
    vm_compute. split; reflexivity.
  - vm_compute. reflexivity.
Defined.

(** X2 at work: the first call of the exported [launch]. *)
Lemma first_launch_holds_the_lock :
  exists inner,
    Locked :: construction_trace None
           ++ launch_trace gcc_pretty_function example_handle 0 example_proxy 0
           ++ [Unlocked]
    = Locked :: inner ++ [Unlocked]
    /\ Forall (fun ev => is_lock_event ev = false) inner.
Proof.
  apply (proj1 (proj1 (lock_is_held_throughout gcc_pretty_function None))
           _ (Some (running_manager (created_service example_handle)))).
  apply (runs_to_returns 100 (example_script 0 0 [true])).
  vm_compute. split; reflexivity.
Defined.


(** X5 at work: three refusals in, the launch has not returned. *)
Lemma three_refusals_and_still_trying :
  ~ returns record
      (launch_test_service gcc_pretty_function stopped_manager)
      (firstn 13 (launch_trace gcc_pretty_function
                    example_handle 3 example_proxy 0))
      (running_manager (created_service example_handle)).
Proof.
  intros H.
  apply (proj1 (refused_for_ever_never_returns gcc_pretty_function)
           stopped_manager _ _ eq_refl) in H; [discriminate H|].
  vm_compute. intros [Hno|[Hno|[Hno|[]]]]; discriminate Hno.
Defined.

End Lifecycle.

(** ** manager.hpp: time asleep, and what the runtime hands out *)

Module AccountingFacts.
Import Utils ManagerImpl Shapes ShapeFacts ManagerFacts Lifecycle Accounting.

Lemma time_slept_app tr1 tr2 :
  time_slept (tr1 ++ tr2) = time_slept tr1 + time_slept tr2.
Proof.
  induction tr1 as [|ev tr1 IH]; [reflexivity|].
  cbn [app time_slept fold_right]. fold (time_slept (tr1 ++ tr2)).
  fold (time_slept tr1). destruct ev; lia.
Qed.

Lemma owed_at_end_cons b owed ev tr :
  owed_at_end b owed (ev :: tr) = owed_at_end b (owed_after b owed ev) tr.
Proof.
  unfold owed_at_end, owed_after, count.
  cbn [filter time_slept fold_right]. fold (time_slept tr).
  destruct (is_failure b ev); cbn [List.length]; destruct ev; lia.
Qed.

Lemma keeps_pace_app b owed tr1 tr2 :
  keeps_pace b owed (tr1 ++ tr2) <->
  keeps_pace b owed tr1 /\ keeps_pace b (owed_at_end b owed tr1) tr2.
Proof.
  revert owed. induction tr1 as [|ev tr1 IH]; intros owed.
  - cbn [app keeps_pace]. unfold owed_at_end, count. cbn.
    replace (owed + 0 - 0) with owed by lia. tauto.
  - cbn [app keeps_pace]. rewrite IH, owed_at_end_cons. tauto.
Qed.

Lemma keeps_pace_bounds b owed tr :
  0 <= owed <= RETRY_TIMEOUT ->
  keeps_pace b owed tr ->
  0 <= owed_at_end b owed tr <= RETRY_TIMEOUT.
Proof.
  revert owed. induction tr as [|ev tr IH]; intros owed Howed H.
  - unfold owed_at_end, count. cbn. lia.
  - cbn [keeps_pace] in H. destruct H as [Hev H].
    rewrite owed_at_end_cons. apply IH; assumption.
Qed.

Lemma settled_app b tr1 tr2 :
  settled b tr1 -> settled b tr2 -> settled b (tr1 ++ tr2).
Proof.
  intros [H1 E1] [H2 E2]. split.
  - apply keeps_pace_app. rewrite E1. auto.
  - unfold owed_at_end in *. rewrite count_app, time_slept_app. lia.
Qed.

Lemma settled_rounds b K round :
  settled b round -> settled b (rounds K round).
Proof.
  intros H. induction K as [|K IH].
  - split; [exact I|reflexivity].
  - rewrite rounds_S. apply settled_app; assumption.
Qed.

Ltac settle :=
  unfold_traces;
  repeat first [ apply settled_app | apply settled_rounds ];
  (split; [cbn; unfold owed_after; cbn; unfold RETRY_TIMEOUT; lia
          |reflexivity]).

Section Properties.

Variable __PRETTY_FUNCTION__ : Function -> std_string.

Local Abbreviation returns := (returns record).
Local Abbreviation is_trace := (is_trace record).
Local Abbreviation only_performs := (only_performs record).
Local Abbreviation launch_test_service :=
  (launch_test_service __PRETTY_FUNCTION__).
Local Abbreviation terminate_test_service :=
  (terminate_test_service __PRETTY_FUNCTION__).
Local Abbreviation launch_trace := (launch_trace __PRETTY_FUNCTION__).
Local Abbreviation terminate_trace := (terminate_trace __PRETTY_FUNCTION__).

Lemma launch_trace_settled handle K proxy J :
  settled true (launch_trace handle K proxy J).
Proof. settle. Qed.

Lemma terminate_trace_settled service K proxy J :
  settled false (terminate_trace service K proxy J).
Proof. settle. Qed.

Lemma ignored_launch_trace_settled b :
  settled b (ignored_launch_trace __PRETTY_FUNCTION__).
Proof. settle. Qed.

Lemma ignored_terminate_trace_settled b :
  settled b (ignored_terminate_trace __PRETTY_FUNCTION__).
Proof. settle. Qed.

Lemma settled_beginning b tr rest :
  settled b (tr ++ rest) ->
  0 <= owed_at_end b 0 tr <= RETRY_TIMEOUT.
Proof.
  intros [H _]. apply keeps_pace_app in H as [H _].
  apply keeps_pace_bounds; [unfold RETRY_TIMEOUT; lia|exact H].
Qed.

(** X15.  The sleeps keep pace with the failures (the attempts the
    runtime refused and the polls that did not show the awaited value).
    All along any run of either method, returning or not, the time slept
    is [RETRY_TIMEOUT] times the number of failures so far, or one
    [RETRY_TIMEOUT] less, the sleep for the last failure not yet taken:
    the methods never sleep unless an attempt has just failed, and never
    fail twice without a sleep between.  When the method returns, the time
    slept is exactly [RETRY_TIMEOUT] times the failures. *)
Theorem sleeps_keep_pace_with_failures this :
  (forall tr this',
      returns (launch_test_service this) tr this' ->
      time_slept tr
      = RETRY_TIMEOUT * Z.of_nat (count (is_failure true) tr))
  /\ (forall tr this',
         returns (terminate_test_service this) tr this' ->
         time_slept tr
         = RETRY_TIMEOUT * Z.of_nat (count (is_failure false) tr))
  /\ (forall tr res,
         is_trace (launch_test_service this) tr res ->
         RETRY_TIMEOUT * Z.of_nat (count (is_failure true) tr) - RETRY_TIMEOUT
         <= time_slept tr
         <= RETRY_TIMEOUT * Z.of_nat (count (is_failure true) tr))
  /\ (forall tr res,
         is_trace (terminate_test_service this) tr res ->
         RETRY_TIMEOUT * Z.of_nat (count (is_failure false) tr) - RETRY_TIMEOUT
         <= time_slept tr
         <= RETRY_TIMEOUT * Z.of_nat (count (is_failure false) tr)).
Proof.
  assert (Hlaunch : forall tr this',
             returns (launch_test_service this) tr this' ->
             settled true tr).
  { intros tr this' H. apply returns_launch_test_service in H.
    destruct H as [(_ & -> & _)|(_ & h & K & p & J & -> & _)].
    - apply ignored_launch_trace_settled.
    - apply launch_trace_settled. }
  assert (Hterminate : forall tr this',
             returns (terminate_test_service this) tr this' ->
             settled false tr).
  { intros tr this' H. apply returns_terminate_test_service in H.
    destruct H as [(_ & -> & _)|(service & K & p & J & _ & -> & _)].
    - apply ignored_terminate_trace_settled.
    - apply terminate_trace_settled. }
  split; [|split; [|split]].
  - intros tr this' H. apply Hlaunch in H as [_ H].
    unfold owed_at_end in H. lia.
  - intros tr this' H. apply Hterminate in H as [_ H].
    unfold owed_at_end in H. lia.
  - intros tr res H.
    destruct (is_trace_extends record _ _ _
                (can_always_return_launch_test_service
                   __PRETTY_FUNCTION__ this) H) as (rest & this' & Hr).
    apply Hlaunch, settled_beginning in Hr. unfold owed_at_end in Hr. lia.
  - intros tr res H.
    destruct (is_trace_extends record _ _ _
                (can_always_return_terminate_test_service
                   __PRETTY_FUNCTION__ this) H) as (rest & this' & Hr).
    apply Hterminate, settled_beginning in Hr. unfold owed_at_end in Hr. lia.
Qed.

Local Abbreviation entered := (entered __PRETTY_FUNCTION__).
Local Abbreviation exited := (exited __PRETTY_FUNCTION__).

Lemma count_beginning kind (tr rest : list Event) :
  (count kind tr <= count kind (tr ++ rest))%nat.
Proof. rewrite count_app. lia. Qed.

Lemma in_the_middle (pre : list Event) ev post rest l :
  (pre ++ ev :: post) ++ rest = l -> In ev l.
Proof. intros <-. rewrite <- app_assoc. apply in_elt. Qed.

(** X14.  What the allocator and the runtime hand out is what is used.
    A launch from an empty slot allocates at most one stub and builds at
    most one probe; the handle of every registration attempt is that of a
    stub allocated earlier in the run; every poll reads a probe built
    earlier in the run, for the domain, instance and connection of
    [create_service]; and the service the slot holds on return has the
    handle of a stub allocated in the run.  A launch from an occupied slot
    allocates nothing and builds no probe; a terminate allocates nothing,
    builds at most one probe, for the service in the slot, and polls only
    that one. *)
Theorem launch_uses_what_it_was_handed this :
  (state this = Stopped ->
   forall tr res,
     is_trace (launch_test_service this) tr res ->
     (count is_allocation tr <= 1)%nat
     /\ (count is_proxy_build tr <= 1)%nat
     /\ (forall pre d i h c ok post,
            tr = pre ++ Registered d i h c ok :: post ->
            In (StubMade h) pre)
     /\ (forall pre p a post,
            tr = pre ++ AvailabilityRead p a :: post ->
            In (ProxyBuilt SERVICE_DOMAIN SERVICE_INSTANCE
                           SERVICE_CONNECTION p) pre)
     /\ (forall this',
            res = Some this' ->
            exists h, In (StubMade h) tr
                      /\ running_service this' = Some (created_service h)))
  /\ (state this = Running ->
      only_performs (fun ev => is_allocation ev = false
                               /\ is_proxy_build ev = false)
                    (launch_test_service this))
  /\ only_performs (fun ev => is_allocation ev = false)
                   (terminate_test_service this)
  /\ (forall service tr res,
         running_service this = Some service ->
         is_trace (terminate_test_service this) tr res ->
         (count is_proxy_build tr <= 1)%nat
         /\ forall pre p a post,
             tr = pre ++ AvailabilityRead p a :: post ->
             In (build_proxy_call service p) pre).
Proof.
  split; [|split; [|split]].
  - intros Hs tr res H.
    assert (Hv : has_value this = false).
    { unfold state in Hs. destruct (has_value this); [discriminate Hs|].
      reflexivity. }
    destruct (launch_test_service_runs _ _ _ _ Hv H)
      as (h & K & p & J & rest & Heq).
    split; [|split; [|split; [|split]]].
    + etransitivity; [apply (count_beginning _ tr rest)|]. rewrite Heq.
      unfold_traces. rewrite !count_app, !count_rounds. cbn. lia.
    + etransitivity; [apply (count_beginning _ tr rest)|]. rewrite Heq.
      unfold_traces. rewrite !count_app, !count_rounds. cbn. lia.
    + intros pre d i h' c ok post ->.
      assert (Hh : h' = h).
      { pose proof (in_the_middle _ _ _ _ _ Heq) as Hin.
        assert (HF : Forall (fun ev => ev = Registered d i h' c ok -> h' = h)
                            (launch_trace h K p J)).
        { unfold_traces; each_event; intros Hev; try discriminate Hev;
            injection Hev; intros; subst; reflexivity. }
        rewrite Forall_forall in HF. exact (HF _ Hin eq_refl). }
      subst h'. rewrite <- app_assoc in Heq. cbn [app] in Heq.
      eapply (first_comes_first is_registration)
        with (quiet := [entered Manager_launch_test_service])
             (first := StubMade h); [exact Heq|reflexivity|reflexivity|].
      repeat constructor.
    + intros pre p' a post ->.
      assert (Hp : p' = p).
      { pose proof (in_the_middle _ _ _ _ _ Heq) as Hin.
        assert (HF : Forall (fun ev => ev = AvailabilityRead p' a -> p' = p)
                            (launch_trace h K p J)).
        { unfold_traces; each_event; intros Hev; try discriminate Hev;
            injection Hev; intros; subst; reflexivity. }
        rewrite Forall_forall in HF. exact (HF _ Hin eq_refl). }
      subst p'. rewrite <- app_assoc in Heq. cbn [app] in Heq.
      rewrite launch_trace_until_probe in Heq.
      eapply (first_comes_first is_poll); [exact Heq|reflexivity|reflexivity|].
      unfold_traces; each_event; reflexivity.
    + intros this' ->. apply returns_launch_test_service in H.
      destruct H as [(Hv' & _)|(_ & h' & K' & p' & J' & -> & ->)];
        [congruence|].
      exists h'. split; [right; left|]; reflexivity.
  - intros Hs.
    apply only_performs_returning;
      [apply can_always_return_launch_test_service|].
    intros tr this' H. apply returns_launch_test_service in H.
    destruct H as [(_ & -> & _)|(Hv & _)].
    + unfold_traces; each_event; split; reflexivity.
    + unfold state in Hs. rewrite Hv in Hs. discriminate Hs.
  - apply only_performs_returning;
      [apply can_always_return_terminate_test_service|].
    intros tr this' H. apply returns_terminate_test_service in H.
    destruct H as [(_ & -> & _)|(service & K & p & J & _ & -> & _)];
      unfold_traces; each_event; reflexivity.
  - intros service tr res Hslot H.
    destruct (terminate_test_service_runs _ _ _ _ _ Hslot H)
      as (K & p & J & rest & Heq).
    split.
    + etransitivity; [apply (count_beginning _ tr rest)|]. rewrite Heq.
      unfold_traces. rewrite !count_app, !count_rounds. cbn. lia.
    + intros pre p' a post ->.
      assert (Hp : p' = p).
      { pose proof (in_the_middle _ _ _ _ _ Heq) as Hin.
        assert (HF : Forall (fun ev => ev = AvailabilityRead p' a -> p' = p)
                            (terminate_trace service K p J)).
        { unfold_traces; each_event; intros Hev; try discriminate Hev;
            injection Hev; intros; subst; reflexivity. }
        rewrite Forall_forall in HF. exact (HF _ Hin eq_refl). }
      subst p'. rewrite <- app_assoc in Heq. cbn [app] in Heq.
      rewrite terminate_trace_until_probe in Heq.
      eapply (first_comes_first is_poll); [exact Heq|reflexivity|reflexivity|].
      unfold_traces; each_event; reflexivity.
Qed.

End Properties.

(** X15 at work: two refusals and one poll that reports unavailable. *)
Lemma three_failures_three_sleeps :
  time_slept (launch_trace gcc_pretty_function
                example_handle 2 example_proxy 1)
  = RETRY_TIMEOUT
    * Z.of_nat (count (is_failure true)
                  (launch_trace gcc_pretty_function
                     example_handle 2 example_proxy 1)).
Proof.
  apply (proj1 (sleeps_keep_pace_with_failures
                  gcc_pretty_function stopped_manager)
           _ (running_manager (created_service example_handle))).
  apply (runs_to_returns 100 (example_script 2 0 [false; true])).
  vm_compute. split; reflexivity.
Defined.

(** X14 at work: a launch refused once. *)
Lemma launch_registers_the_stub_it_allocated :
  (count is_allocation
     (launch_trace gcc_pretty_function example_handle 1 example_proxy 1)
   <= 1)%nat
  /\ (count is_proxy_build
        (launch_trace gcc_pretty_function example_handle 1 example_proxy 1)
      <= 1)%nat
  /\ (forall pre d i h c ok post,
         launch_trace gcc_pretty_function example_handle 1 example_proxy 1
         = pre ++ Registered d i h c ok :: post ->
         In (StubMade h) pre)
  /\ (forall pre p a post,
         launch_trace gcc_pretty_function example_handle 1 example_proxy 1
         = pre ++ AvailabilityRead p a :: post ->
         In (ProxyBuilt SERVICE_DOMAIN SERVICE_INSTANCE SERVICE_CONNECTION p)
            pre)
  /\ (forall this',
         Some (running_manager (created_service example_handle)) = Some this' ->
         exists h,
           In (StubMade h)
              (launch_trace gcc_pretty_function
                 example_handle 1 example_proxy 1)
           /\ running_service this' = Some (created_service h)).
Proof.
  apply (proj1 (launch_uses_what_it_was_handed
                  gcc_pretty_function stopped_manager) eq_refl).
  apply (runs_to_returns 100 (example_script 1 0 [false; true])).
  vm_compute. split; reflexivity.
Defined.

End AccountingFacts.

(** ** lib.cpp: sessions of the exported functions *)

Module CallersFacts.
Import Utils ManagerImpl Shapes ShapeFacts ManagerFacts Lifecycle Callers.

Section Properties.

Variable __PRETTY_FUNCTION__ : Function -> std_string.

Local Abbreviation returns := (returns record).
Local Abbreviation is_trace := (is_trace record).
Local Abbreviation only_performs := (only_performs record).
Local Abbreviation launch_test_service :=
  (launch_test_service __PRETTY_FUNCTION__).
Local Abbreviation terminate_test_service :=
  (terminate_test_service __PRETTY_FUNCTION__).
Local Abbreviation launch_trace := (launch_trace __PRETTY_FUNCTION__).
Local Abbreviation terminate_trace := (terminate_trace __PRETTY_FUNCTION__).
Local Abbreviation calls := (calls __PRETTY_FUNCTION__).
Local Abbreviation call := (call __PRETTY_FUNCTION__).
Local Abbreviation session := (session __PRETTY_FUNCTION__).
Local Abbreviation exported := (exported __PRETTY_FUNCTION__).

(** X16.  A launch and then a terminate, from a manager whose slot is
    empty, return exactly after a launch that registers and waits and a
    terminate that unregisters and waits for the very service the launch
    made (same identity, same handle), and leave the manager as it was. *)
Theorem launch_then_terminate_restores_the_manager this tr this' :
  state this = Stopped ->
  (returns (calls [Launch; Terminate] this) tr this' <->
   this' = this
   /\ exists handle K proxy J K' proxy' J',
       tr = launch_trace handle K proxy J
            ++ terminate_trace (created_service handle) K' proxy' J').
Proof.
  intros Hs.
  assert (Hv : has_value this = false).
  { unfold state in Hs. destruct (has_value this); [discriminate Hs|].
    reflexivity. }
  assert (Hthis : this = {| running_service := None |}).
  { apply has_value_false in Hv. destruct this as [slot]. cbn in Hv.
    rewrite Hv. reflexivity. }
  cbn [ManagerImpl.calls ManagerImpl.call]. rewrite returns_bind. split.
  - intros (this1 & tr1 & tr2 & -> & H1 & H2).
    apply returns_launch_test_service in H1.
    destruct H1 as [(Hv' & _)|(_ & h & K & p & J & -> & ->)]; [congruence|].
    apply returns_bind in H2 as (this2 & tr3 & tr4 & -> & H3 & H4).
    apply returns_Ret in H4 as [-> ->].
    apply returns_terminate_test_service in H3.
    destruct H3 as [(Hn & _)|(service & K' & p' & J' & Hslot & -> & ->)];
      [discriminate Hn|].
    injection Hslot as <-. split; [symmetry; exact Hthis|].
    exists h, K, p, J, K', p', J'. rewrite app_nil_r. reflexivity.
  - intros (-> & h & K & p & J & K' & p' & J' & ->).
    exists {| running_service := Some (created_service h) |},
      (launch_trace h K p J),
      (terminate_trace (created_service h) K' p' J').
    split; [reflexivity|]. split.
    + apply returns_launch_test_service. right. split; [exact Hv|].
      exists h, K, p, J. auto.
    + apply returns_bind.
      exists {| running_service := None |},
        (terminate_trace (created_service h) K' p' J'), [].
      split; [symmetry; apply app_nil_r|]. split.
      * apply returns_terminate_test_service. right.
        exists (created_service h), K', p', J'. auto.
      * apply returns_Ret. split; [reflexivity|exact Hthis].
Qed.

Lemma returns_exported c static_manager tr static_manager' :
  returns (exported c static_manager) tr static_manager' <->
  exists inner this',
    returns (call c (manager_of static_manager)) inner this'
    /\ tr = Locked :: construction_trace static_manager
                   ++ inner ++ [Unlocked]
    /\ static_manager' = Some this'.
Proof.
  destruct c; cbn [Callers.exported ManagerImpl.call].
  - rewrite launch_under_lock. apply returns_under_lock.
  - rewrite terminate_under_lock. apply returns_under_lock.
Qed.

Lemma call_takes_no_lock c this tr this' :
  returns (call c this) tr this' ->
  Forall (fun ev => is_lock_event ev = false) tr.
Proof.
  destruct c; cbn [ManagerImpl.call]; intros H.
  - eapply (proj1 (methods_take_no_lock __PRETTY_FUNCTION__ this)), H.
  - eapply (proj2 (methods_take_no_lock __PRETTY_FUNCTION__ this)), H.
Qed.

Lemma filter_none (kind : Event -> bool) tr :
  Forall (fun ev => kind ev = false) tr -> filter kind tr = [].
Proof.
  induction 1 as [|ev tr Hev _ IH]; [reflexivity|].
  cbn. rewrite Hev. exact IH.
Qed.

Lemma filter_all (kind : Event -> bool) tr :
  Forall (fun ev => kind ev = false) tr ->
  filter (fun ev => negb (kind ev)) tr = tr.
Proof.
  induction 1 as [|ev tr Hev _ IH]; [reflexivity|].
  cbn. rewrite Hev. cbn. f_equal. exact IH.
Qed.

(** X17.  A session of the exported functions, from any static: the lock
    events are one [Locked], [Unlocked] pair per call, in turn, so that the
    mutex is never locked twice without an unlock between; and what is left
    without them is the construction of the manager, if the static was not
    constructed and a call is made, followed by a returning run of the same
    calls of the two methods in sequence on the one manager.  After the
    first call the static holds the manager the last method returned. *)
Theorem session_is_the_calls_each_under_the_lock :
  forall cs static_manager tr static_manager',
    returns (session cs static_manager) tr static_manager' ->
    filter is_lock_event tr
    = List.concat (repeat [Locked; Unlocked] (List.length cs))
    /\ exists inner this',
        returns (calls cs (manager_of static_manager)) inner this'
        /\ filter (fun ev => negb (is_lock_event ev)) tr
           = match cs with
             | [] => []
             | _ :: _ => construction_trace static_manager
             end ++ inner
        /\ static_manager' = match cs with
                             | [] => static_manager
                             | _ :: _ => Some this'
                             end.
Proof.
  induction cs as [|c cs IH]; intros static_manager tr static_manager' H;
    cbn [Callers.session] in H.
  - apply returns_Ret in H as [-> ->]. split; [reflexivity|].
    exists [], (manager_of static_manager).
    split; [apply returns_Ret; auto|]. auto.
  - apply returns_bind in H as (static1 & tr1 & tr2 & -> & H1 & H2).
    apply returns_exported in H1 as (inner1 & this1 & Hcall & -> & ->).
    apply IH in H2 as (Hlocks & inner' & this' & Hcalls & Hrest & Hlast).
    cbn [manager_of construction_trace] in Hcalls, Hrest.
    assert (Hrest' : filter (fun ev => negb (is_lock_event ev)) tr2 = inner')
      by (rewrite Hrest; destruct cs; reflexivity).
    pose proof (call_takes_no_lock _ _ _ _ Hcall) as Hquiet.
    pose proof (construction_takes_no_lock static_manager) as Hquiet'.
    split.
    + cbn [app filter is_lock_event List.length repeat List.concat].
      rewrite !filter_app, Hlocks.
      rewrite (filter_none _ _ Hquiet), (filter_none _ _ Hquiet').
      reflexivity.
    + exists (inner1 ++ inner'),
        (match cs with [] => this1 | _ :: _ => this' end).
      split; [|split; [|destruct cs; exact Hlast]].
      * cbn [ManagerImpl.calls]. apply returns_bind.
        exists this1, inner1, inner'. split; [reflexivity|].
        split; [exact Hcall|].
        destruct cs; [|exact Hcalls].
        cbn [ManagerImpl.calls] in *. apply returns_Ret in Hcalls as [-> _].
        apply returns_Ret. auto.
      * cbn [app filter is_lock_event negb].
        rewrite !filter_app, Hrest'.
        rewrite (filter_all _ _ Hquiet), (filter_all _ _ Hquiet').
        cbn. rewrite app_nil_r, <- app_assoc. reflexivity.
Qed.

End Properties.

(** X16 at work. *)
Lemma launch_and_terminate_from_stopped :
  stopped_manager = stopped_manager
  /\ exists handle K proxy J K' proxy' J',
      launch_trace gcc_pretty_function example_handle 1 example_proxy 0
      ++ terminate_trace gcc_pretty_function
           (created_service example_handle) 0 example_proxy 1
      = launch_trace gcc_pretty_function handle K proxy J
        ++ terminate_trace gcc_pretty_function
             (created_service handle) K' proxy' J'.
Proof.
  apply (proj1 (launch_then_terminate_restores_the_manager
                  gcc_pretty_function stopped_manager _ _ eq_refl)).
  apply (runs_to_returns 200 (example_script 1 0 [true; true; false])).
  vm_compute. split; reflexivity.
Defined.

(** X17 at work: launch, launch, terminate in a fresh process. *)
Lemma three_exported_calls_in_a_fresh_process :
  filter is_lock_event
    (Locked :: construction_trace None
       ++ launch_trace gcc_pretty_function example_handle 0 example_proxy 0
       ++ [Unlocked]
       ++ Locked :: ignored_launch_trace gcc_pretty_function
       ++ [Unlocked]
       ++ Locked :: terminate_trace gcc_pretty_function
                      (created_service example_handle) 0 example_proxy 0
       ++ [Unlocked])
  = List.concat (repeat [Locked; Unlocked] 3)
  /\ exists inner this',
      returns record
        (calls gcc_pretty_function [Launch; Launch; Terminate]
           (manager_of None)) inner this'
      /\ filter (fun ev => negb (is_lock_event ev))
           (Locked :: construction_trace None
              ++ launch_trace gcc_pretty_function
                   example_handle 0 example_proxy 0
              ++ [Unlocked]
              ++ Locked :: ignored_launch_trace gcc_pretty_function
              ++ [Unlocked]
              ++ Locked :: terminate_trace gcc_pretty_function
                             (created_service example_handle)
                             0 example_proxy 0
              ++ [Unlocked])
         = construction_trace None ++ inner
      /\ Some stopped_manager = Some this'.
Proof.
  apply (session_is_the_calls_each_under_the_lock gcc_pretty_function
           [Launch; Launch; Terminate] None).
  apply (runs_to_returns 300 (example_script 0 0 [true; false])).
  vm_compute. split; reflexivity.
Defined.

End CallersFacts.

(** ** lib.cpp: two threads *)

Module ThreadsFacts.
Import Utils ManagerImpl Shapes ShapeFacts ManagerFacts Lifecycle.
Import Callers CallersFacts Threads.

Lemma update_same phases tid p : update phases tid p tid = p.
Proof. unfold update. rewrite Bool.eqb_reflx. reflexivity. Qed.

Lemma update_other phases tid p i : i <> tid -> update phases tid p i = phases i.
Proof.
  intros Hi. unfold update. destruct (Bool.eqb_spec i tid); [contradiction|].
  reflexivity.
Qed.

Lemma negb_other (tid : ThreadId) : negb tid <> tid.
Proof. destruct tid; discriminate. Qed.

Lemma other_negb (tid : ThreadId) : tid <> negb tid.
Proof. destruct tid; discriminate. Qed.

Lemma one_or_other (tid first : ThreadId) : tid = first \/ tid = negb first.
Proof. destruct tid, first; auto. Qed.

Lemma tag_app tid tr1 tr2 : tag tid (tr1 ++ tr2) = tag tid tr1 ++ tag tid tr2.
Proof. apply map_app. Qed.

Lemma untag tid tr : map snd (tag tid tr) = tr.
Proof.
  unfold tag. rewrite map_map. cbn. apply map_id.
Qed.

(** An event that is no lock event is always allowed, and leaves the mutex
    as it is. *)
Lemma quiet_event_allowed holder tid {X} (e : runtimeE X) (x : X) :
  is_lock_event (record X e x) = false ->
  allowed holder tid e /\ holder_after holder tid e = holder.
Proof. destruct e; cbn; intros H; try discriminate H; auto. Qed.

Section Facts.

Variable __PRETTY_FUNCTION__ : Function -> std_string.

Local Abbreviation returns := (returns record).
Local Abbreviation is_trace := (is_trace record).
Local Abbreviation exported := (exported __PRETTY_FUNCTION__).
Local Abbreviation call := (call __PRETTY_FUNCTION__).
Local Abbreviation session := (session __PRETTY_FUNCTION__).
Local Abbreviation thread_step := (thread_step __PRETTY_FUNCTION__).
Local Abbreviation reaches := (reaches __PRETTY_FUNCTION__).
Local Abbreviation within_call := (within_call __PRETTY_FUNCTION__).

Lemma instance_takes_no_lock static_manager tr res :
  is_trace (instance_ static_manager) tr res ->
  Forall (fun ev => is_lock_event ev = false) tr.
Proof.
  revert tr res. apply only_performs_returning;
    [apply can_always_return_instance_|].
  intros tr m H. apply returns_instance_ in H as [-> _].
  apply construction_takes_no_lock.
Qed.

Lemma call_never_locks c this tr res :
  is_trace (call c this) tr res ->
  Forall (fun ev => is_lock_event ev = false) tr.
Proof.
  destruct c; cbn [ManagerImpl.call].
  - apply (proj1 (methods_take_no_lock __PRETTY_FUNCTION__ this)).
  - apply (proj2 (methods_take_no_lock __PRETTY_FUNCTION__ this)).
Qed.

Lemma exported_is_under_lock c static_manager :
  exported c static_manager = under_lock (call c) static_manager.
Proof. destruct c; reflexivity. Qed.

(** The beginnings of a run of an exported function. *)
Lemma exported_within_instance c s tri :
  is_trace (instance_ s) tri None ->
  is_trace (exported c s) (Locked :: tri) None.
Proof.
  intros H. rewrite exported_is_under_lock. unfold under_lock.
  apply is_trace_bind. right. exists tt, [Locked], tri.
  split; [reflexivity|]. split; [apply returns_trigger; reflexivity|].
  apply is_trace_bind. left. auto.
Qed.

Lemma exported_within_method c s tri m trm :
  returns (instance_ s) tri m ->
  is_trace (call c m) trm None ->
  is_trace (exported c s) (Locked :: tri ++ trm) None.
Proof.
  intros Hi Hm. rewrite exported_is_under_lock. unfold under_lock.
  apply is_trace_bind. right. exists tt, [Locked], (tri ++ trm).
  split; [reflexivity|]. split; [apply returns_trigger; reflexivity|].
  apply is_trace_bind. right. exists m, tri, trm.
  split; [reflexivity|]. split; [exact Hi|].
  apply is_trace_bind. left. auto.
Qed.

Lemma exported_returned c s tri m trm m' :
  returns (instance_ s) tri m ->
  returns (call c m) trm m' ->
  returns (exported c s) ((Locked :: tri ++ trm) ++ [Unlocked]) (Some m').
Proof.
  intros Hi Hm. apply returns_instance_ in Hi as [-> ->].
  apply returns_exported. exists trm, m'.
  split; [exact Hm|]. split; [|reflexivity].
  cbn [app]. rewrite <- !app_assoc. reflexivity.
Qed.

Lemma within_call_is_trace c s p tr static_manager :
  within_call c s p tr static_manager ->
  is_trace (exported c s) tr None.
Proof.
  intros [t tri Ht|m t tri trm Hi Ht|m m' tri trm Hi Hm].
  - apply exported_within_instance.
    rewrite <- (app_nil_r tri). apply Ht, is_trace_start.
  - apply exported_within_method with (m := m); [exact Hi|].
    rewrite <- (app_nil_r trm). apply Ht, is_trace_start.
  - apply exported_within_method with (m := m); [exact Hi|].
    eapply returns_cut, Hm.
Qed.

Lemma within_call_in_transition c s p tr static_manager :
  within_call c s p tr static_manager -> in_transition p = true.
Proof. intros []; reflexivity. Qed.

Lemma tag_tagged tid label :
  tag tid (map snd (tagged tid label)) = tagged tid label.
Proof. destruct label; reflexivity. Qed.

(** One step of the thread that is within its call: it is still within its
    call, holding the lock, or it has just unlocked and is done. *)
Lemma within_call_step c s tid M tr label M' :
  within_call c s (phase M tid) tr (shared_static M) ->
  lock_holder M = Some tid ->
  thread_step tid M label M' ->
  (forall i, i <> tid -> phase M' i = phase M i)
  /\ ((within_call c s (phase M' tid) (tr ++ map snd (tagged tid label))
                   (shared_static M')
       /\ lock_holder M' = Some tid)
      \/ (phase M' tid = Finished
          /\ lock_holder M' = None
          /\ returns (exported c s) (tr ++ map snd (tagged tid label))
                     (shared_static M'))).
Proof.
  intros Hw Hh Hstep.
  destruct Hstep as [c0 Hp Hl|st t t' Hp Hobs|st t X e k x Hp Hobs Hallowed
                    |st t m Hp Hobs|Hp Hl|Hp];
    cbn [phase shared_static lock_holder tagged map snd];
    (split; [intros i Hi; apply update_other; exact Hi|]);
    rewrite update_same; rewrite Hp in Hw.
  - inversion Hw.
  - left. rewrite app_nil_r. split; [|exact Hh].
    inversion Hw as [t0 tri Ht|m t0 tri trm Hi Ht|]; subst.
    + constructor. intros tr' res H'. apply Ht.
      apply is_trace_step. right. rewrite Hobs. exact H'.
    + econstructor; [exact Hi|]. intros tr' res H'. apply Ht.
      apply is_trace_step. right. rewrite Hobs. exact H'.
  - left.
    assert (Hone : is_trace t [record X e x] None).
    { apply is_trace_step. right. rewrite Hobs.
      exists x, []. split; [reflexivity|apply is_trace_start]. }
    assert (Hnext : forall tr' res,
               is_trace (k x) tr' res ->
               is_trace t (record X e x :: tr') res).
    { intros tr' res H'. apply is_trace_step. right. rewrite Hobs.
      exists x, tr'. auto. }
    inversion Hw as [t0 tri Ht|m t0 tri trm Hi Ht|]; subst.
    + assert (Hquiet : is_lock_event (record X e x) = false).
      { apply Ht, instance_takes_no_lock, Forall_app in Hone as [_ Hone].
        inversion Hone; assumption. }
      destruct (quiet_event_allowed (lock_holder M) tid e x Hquiet) as [_ ->].
      split; [|exact Hh].
      change ((Locked :: tri) ++ [record X e x])
        with (Locked :: (tri ++ [record X e x])).
      constructor. intros tr' res H'. rewrite <- app_assoc.
      apply Ht, Hnext, H'.
    + assert (Hquiet : is_lock_event (record X e x) = false).
      { apply Ht, call_never_locks, Forall_app in Hone as [_ Hone].
        inversion Hone; assumption. }
      destruct (quiet_event_allowed (lock_holder M) tid e x Hquiet) as [_ ->].
      split; [|exact Hh].
      replace ((Locked :: tri ++ trm) ++ [record X e x])
        with (Locked :: tri ++ (trm ++ [record X e x]))
        by (cbn [app]; rewrite <- app_assoc; reflexivity).
      econstructor; [exact Hi|]. intros tr' res H'. rewrite <- app_assoc.
      apply Ht, Hnext, H'.
  - left. rewrite app_nil_r. split; [|exact Hh].
    assert (Hret : is_trace t [] (Some m)).
    { apply is_trace_step. right. rewrite Hobs. auto. }
    inversion Hw as [t0 tri Ht|m0 t0 tri trm Hi Ht|]; subst; cbn [next].
    + replace (Locked :: tri) with (Locked :: tri ++ [])
        by (rewrite app_nil_r; reflexivity).
      apply within_method.
      * apply Ht in Hret. rewrite app_nil_r in Hret. exact Hret.
      * intros tr' res H'. exact H'.
    + apply within_unlock with (m := m0); [exact Hi|].
      apply Ht in Hret. rewrite app_nil_r in Hret. exact Hret.
  - right. split; [reflexivity|]. split; [reflexivity|].
    inversion Hw as [| |m m' tri trm Hi Hm]; subst.
    apply exported_returned with (m := m); assumption.
  - inversion Hw.
Qed.

(** A thread that has not begun can only take the lock, when it is free; a
    thread that is done does nothing more. *)
Lemma at_lock_step c tid M label M' :
  phase M tid = AtLock c ->
  thread_step tid M label M' ->
  label = Some Locked
  /\ lock_holder M = None
  /\ lock_holder M' = Some tid
  /\ shared_static M' = shared_static M
  /\ phase M' tid = Running (InInstance c) (instance_ (shared_static M))
  /\ (forall i, i <> tid -> phase M' i = phase M i).
Proof.
  intros Hp Hstep.
  destruct Hstep as [c0 Hp' Hl|st t t' Hp' Hobs|st t X e k x Hp' Hobs Hallowed
                    |st t m Hp' Hobs|Hp' Hl|Hp'];
    rewrite Hp in Hp'; try discriminate Hp'.
  injection Hp' as <-. cbn [phase shared_static lock_holder].
  rewrite update_same. repeat split; auto.
  intros i Hi. apply update_other, Hi.
Qed.

Lemma finished_step tid M label M' :
  phase M tid = Finished -> thread_step tid M label M' -> False.
Proof.
  intros Hp Hstep.
  destruct Hstep as [c0 Hp' Hl|st t t' Hp' Hobs|st t X e k x Hp' Hobs Hallowed
                    |st t m Hp' Hobs|Hp' Hl|Hp'];
    rewrite Hp in Hp'; discriminate Hp'.
Qed.

Lemma within_call_begins c s :
  within_call c s (Running (InInstance c) (instance_ s)) [Locked] s.
Proof. apply (within_instance __PRETTY_FUNCTION__ c s _ []). auto. Qed.

Section TwoCallers.

Variable c : ThreadId -> Call.
Variable s0 : option Manager.

Local Abbreviation serialized := (serialized __PRETTY_FUNCTION__ c s0).

Lemma serialized_step g M tid label M' :
  serialized g M ->
  thread_step tid M label M' ->
  serialized (g ++ tagged tid label) M'.
Proof.
  intros Hinv Hstep.
  destruct Hinv as [M Hp Hl Hs|first tr1 M Hw Hp Hl|first tr1 M Hr Hp1 Hp2 Hl
                   |first tr1 s1 tr2 M Hr Hp1 Hw Hl|first tr1 s1 tr2 M Hr1 Hr2 Hp Hl].
  - destruct (at_lock_step _ _ _ _ _ (Hp tid) Hstep)
      as (-> & _ & Hl' & Hs' & Hp' & Hothers).
    apply (first_within __PRETTY_FUNCTION__ c s0 tid [Locked]).
    + rewrite Hp', Hs', Hs. apply within_call_begins.
    + rewrite Hothers by apply negb_other. apply Hp.
    + exact Hl'.
  - destruct (one_or_other tid first) as [->| ->].
    + destruct (within_call_step _ _ _ _ _ _ _ Hw Hl Hstep)
        as [Hothers [[Hw' Hl']|(Hp' & Hl' & Hr)]];
        rewrite <- tag_tagged, <- tag_app.
      * apply first_within; [exact Hw'| |exact Hl'].
        rewrite Hothers by apply negb_other. exact Hp.
      * apply first_done; [exact Hr|exact Hp'| |exact Hl'].
        rewrite Hothers by apply negb_other. exact Hp.
    + destruct (at_lock_step _ _ _ _ _ Hp Hstep) as (_ & Hl' & _).
      rewrite Hl in Hl'. discriminate Hl'.
  - destruct (one_or_other tid first) as [->| ->].
    + destruct (finished_step _ _ _ _ Hp1 Hstep).
    + destruct (at_lock_step _ _ _ _ _ Hp2 Hstep)
        as (-> & _ & Hl' & Hs' & Hp' & Hothers).
      apply (second_within __PRETTY_FUNCTION__ c s0 first tr1
               (shared_static M) [Locked]).
      * exact Hr.
      * rewrite Hothers by apply other_negb. exact Hp1.
      * rewrite Hp', Hs'. apply within_call_begins.
      * exact Hl'.
  - destruct (one_or_other tid first) as [->| ->].
    + destruct (finished_step _ _ _ _ Hp1 Hstep).
    + destruct (within_call_step _ _ _ _ _ _ _ Hw Hl Hstep)
        as [Hothers [[Hw' Hl']|(Hp' & Hl' & Hr')]];
        rewrite <- tag_tagged, <- app_assoc, <- tag_app.
      * apply second_within with (s1 := s1); [exact Hr| |exact Hw'|exact Hl'].
        rewrite Hothers by apply other_negb. exact Hp1.
      * apply both_done with (s1 := s1); [exact Hr|exact Hr'| |exact Hl'].
        intros i. destruct (one_or_other i first) as [->| ->].
        -- rewrite Hothers by apply other_negb. exact Hp1.
        -- exact Hp'.
  - destruct (finished_step _ _ _ _ (Hp tid) Hstep).
Qed.

Lemma reaches_serialized g M :
  reaches (start (fun tid => Exported (c tid)) s0) g M -> serialized g M.
Proof.
  induction 1 as [|g M tid label M' _ IH Hstep].
  - apply neither_begun; reflexivity.
  - eapply serialized_step; eassumption.
Qed.

End TwoCallers.

(** *** Two calls in sequence *)

Lemma session_first a b s tr1 :
  is_trace (exported a s) tr1 None ->
  is_trace (session [a; b] s) tr1 None.
Proof.
  intros H. cbn [Callers.session]. apply is_trace_bind. left. auto.
Qed.

Lemma session_second a b s tr1 s1 tr2 :
  returns (exported a s) tr1 s1 ->
  is_trace (exported b s1) tr2 None ->
  is_trace (session [a; b] s) (tr1 ++ tr2) None.
Proof.
  intros H1 H2. cbn [Callers.session]. apply is_trace_bind. right.
  exists s1, tr1, tr2. split; [reflexivity|]. split; [exact H1|].
  apply is_trace_bind. left. auto.
Qed.

Lemma session_both a b s tr1 s1 tr2 s2 :
  returns (exported a s) tr1 s1 ->
  returns (exported b s1) tr2 s2 ->
  returns (session [a; b] s) (tr1 ++ tr2) s2.
Proof.
  intros H1 H2. cbn [Callers.session]. apply returns_bind.
  exists s1, tr1, tr2. split; [reflexivity|]. split; [exact H1|].
  apply returns_bind. exists s2, tr2, [].
  split; [symmetry; apply app_nil_r|]. split; [exact H2|].
  apply returns_Ret. auto.
Qed.

(** What [serialized] says of the events and of the machine. *)
Lemma serialized_means c s0 g M :
  serialized __PRETTY_FUNCTION__ c s0 g M ->
  exists first tr1 tr2,
    g = tag first tr1 ++ tag (negb first) tr2
    /\ is_trace (exported (c first) s0) tr1 None
    /\ (tr2 <> [] ->
        exists s1,
          returns (exported (c first) s0) tr1 s1
          /\ is_trace (exported (c (negb first)) s1) tr2 None)
    /\ is_trace (session [c first; c (negb first)] s0) (tr1 ++ tr2) None
    /\ (forall tid, in_transition (phase M tid) = true ->
                    lock_holder M = Some tid)
    /\ ((forall tid, phase M tid = Finished) ->
        returns (session [c first; c (negb first)] s0) (tr1 ++ tr2)
                (shared_static M)).
Proof.
  intros [M' Hp Hl Hs|first tr1 M' Hw Hp Hl|first tr1 M' Hr Hp1 Hp2 Hl
         |first tr1 s1 tr2 M' Hr Hp1 Hw Hl|first tr1 s1 tr2 M' Hr1 Hr2 Hp Hl].
  - exists false, [], []. split; [reflexivity|].
    split; [apply is_trace_start|]. split; [congruence|].
    split; [apply is_trace_start|]. split.
    + intros tid. rewrite Hp. discriminate.
    + intros Hdone. specialize (Hdone false). rewrite Hp in Hdone.
      discriminate Hdone.
  - exists first, tr1, []. rewrite !app_nil_r. split; [reflexivity|].
    pose proof (within_call_is_trace _ _ _ _ _ Hw) as Ht.
    split; [exact Ht|]. split; [congruence|].
    split; [apply session_first, Ht|]. split.
    + intros tid. destruct (one_or_other tid first) as [->| ->].
      * auto.
      * rewrite Hp. discriminate.
    + intros Hdone. specialize (Hdone (negb first)). rewrite Hp in Hdone.
      discriminate Hdone.
  - exists first, tr1, []. rewrite !app_nil_r. split; [reflexivity|].
    pose proof (returns_cut record _ _ _ Hr) as Ht.
    split; [exact Ht|]. split; [congruence|].
    split; [apply session_first, Ht|]. split.
    + intros tid. destruct (one_or_other tid first) as [->| ->].
      * rewrite Hp1. discriminate.
      * rewrite Hp2. discriminate.
    + intros Hdone. specialize (Hdone (negb first)). rewrite Hp2 in Hdone.
      discriminate Hdone.
  - exists first, tr1, tr2. split; [reflexivity|].
    pose proof (within_call_is_trace _ _ _ _ _ Hw) as Ht.
    split; [eapply returns_cut, Hr|]. split; [eauto|].
    split; [eapply session_second; eassumption|]. split.
    + intros tid. destruct (one_or_other tid first) as [->| ->].
      * rewrite Hp1. discriminate.
      * auto.
    + intros Hdone. specialize (Hdone (negb first)).
      rewrite Hdone in Hw. inversion Hw.
  - exists first, tr1, tr2. split; [reflexivity|].
    split; [eapply returns_cut, Hr1|].
    split; [intros _; exists s1; split; [exact Hr1|eapply returns_cut, Hr2]|].
    split; [eapply returns_cut, session_both; eassumption|]. split.
    + intros tid. rewrite Hp. discriminate.
    + intros _. eapply session_both; eassumption.
Qed.

(** *** Steps in general *)

Lemma step_others tid M label M' i :
  thread_step tid M label M' -> i <> tid -> phase M' i = phase M i.
Proof.
  intros Hstep Hi. destruct Hstep; cbn [phase]; apply update_other, Hi.
Qed.

Lemma step_holder tid M label M' :
  thread_step tid M label M' ->
  lock_holder M' = lock_holder M
  \/ lock_holder M' = Some tid
  \/ lock_holder M' = None.
Proof.
  intros Hstep.
  destruct Hstep as [c0 Hp Hl|st t t' Hp Hobs|st t X e k x Hp Hobs Hallowed
                    |st t m Hp Hobs|Hp Hl|Hp];
    cbn [lock_holder]; auto.
  destruct e; cbn; auto.
Qed.

Lemma reaches_one tid M label M' :
  thread_step tid M label M' -> reaches M (tagged tid label) M'.
Proof.
  intros Hstep. apply (reaches_step _ M [] M tid label M');
    [apply reaches_start|exact Hstep].
Qed.

Lemma reaches_trans M0 g1 M1 g2 M2 :
  reaches M0 g1 M1 -> reaches M1 g2 M2 -> reaches M0 (g1 ++ g2) M2.
Proof.
  intros H1 H2. induction H2 as [|g M tid label M' _ IH Hstep].
  - rewrite app_nil_r. exact H1.
  - rewrite app_assoc. eapply reaches_step; eassumption.
Qed.

(** *** The destructor *)

(** Where a thread that runs the destructor can be. *)
Lemma destructor_takes_no_lock jobs s0 g M tid :
  jobs tid = Destructor ->
  reaches (start jobs s0) g M ->
  (phase M tid = AtDestructor
   \/ phase M tid = Finished
   \/ exists t m trd,
        phase M tid = Running InDestructor t
        /\ forall tr' res,
            is_trace t tr' res ->
            is_trace (Manager_dtor __PRETTY_FUNCTION__ m) (trd ++ tr') res)
  /\ lock_holder M <> Some tid
  /\ Forall (fun entry => fst entry = tid ->
                          is_lock_event (snd entry) = false) g.
Proof.
  intros Hjob Hreach.
  induction Hreach as [|g M i label M' _ IH Hstep].
  - cbn. rewrite Hjob. split; [left; reflexivity|].
    split; [discriminate|constructor].
  - destruct IH as (Hphase & Hholder & Hquiet).
    destruct (Bool.eqb_spec i tid) as [->|Hi].
    + destruct Hstep as [c0 Hp Hl|st t t' Hp Hobs
                        |st t X e k x Hp Hobs Hallowed
                        |st t m Hp Hobs|Hp Hl|Hp];
        cbn [phase shared_static lock_holder tagged];
        rewrite ?update_same, ?app_nil_r.
      * destruct Hphase as [H|[H|(t & m & trd & H & _)]];
          rewrite Hp in H; discriminate H.
      * destruct Hphase as [H|[H|(t0 & m & trd & H & Ht)]];
          rewrite Hp in H; try discriminate H. injection H as -> <-.
        split; [|auto]. right. right. exists t', m, trd.
        split; [reflexivity|]. intros tr' res H'. apply Ht.
        apply is_trace_step. right. rewrite Hobs. exact H'.
      * destruct Hphase as [H|[H|(t0 & m & trd & H & Ht)]];
          rewrite Hp in H; try discriminate H. injection H as -> <-.
        assert (Hq : is_lock_event (record X e x) = false).
        { assert (Hone : is_trace t [record X e x] None).
          { apply is_trace_step. right. rewrite Hobs.
            exists x, []. split; [reflexivity|apply is_trace_start]. }
          apply Ht in Hone. unfold Manager_dtor in Hone.
          apply (proj2 (methods_take_no_lock __PRETTY_FUNCTION__ m)),
            Forall_app in Hone as [_ Hone].
          inversion Hone; assumption. }
        destruct (quiet_event_allowed (lock_holder M) tid e x Hq) as [_ ->].
        split; [|split; [exact Hholder|]].
        -- right. right. exists (k x), m, (trd ++ [record X e x]).
           split; [reflexivity|]. intros tr' res H'.
           rewrite <- app_assoc. apply Ht.
           apply is_trace_step. right. rewrite Hobs. exists x, tr'. auto.
        -- apply Forall_app. split; [exact Hquiet|].
           constructor; [intros _; exact Hq|constructor].
      * destruct Hphase as [H|[H|(t0 & m0 & trd & H & Ht)]];
          rewrite Hp in H; try discriminate H. injection H as -> <-.
        cbn [next]. auto.
      * destruct Hphase as [H|[H|(t & m & trd & H & _)]];
          rewrite Hp in H; discriminate H.
      * split; [|auto]. destruct (shared_static M) as [m|]; [|auto].
        right. right. exists (Manager_dtor __PRETTY_FUNCTION__ m), m, [].
        split; [reflexivity|]. intros tr' res H'. exact H'.
    + rewrite (step_others _ _ _ _ _ Hstep) by congruence.
      split; [exact Hphase|]. split.
      * destruct (step_holder _ _ _ _ Hstep) as [->|[->| ->]];
          [exact Hholder|congruence|discriminate].
      * apply Forall_app. split; [exact Hquiet|].
        destruct label; cbn; repeat constructor. cbn. congruence.
Qed.

(** *** Running a statement to its end, or part of the way *)

Lemma run_statement n :
  forall M tid st t tr res,
    phase M tid = Running st t ->
    trace_n record n t tr res ->
    Forall (fun ev => is_lock_event ev = false) tr ->
    exists M',
      reaches M (tag tid tr) M'
      /\ lock_holder M' = lock_holder M
      /\ (forall i, i <> tid -> phase M' i = phase M i)
      /\ match res with
         | Some m => phase M' tid = next __PRETTY_FUNCTION__ st m
                     /\ shared_static M' = Some m
         | None => (exists t', phase M' tid = Running st t')
                   /\ shared_static M' = shared_static M
         end.
Proof.
  induction n as [|n IH]; intros M tid st t tr res Hp H Hquiet.
  - destruct H as [[-> ->]|[]].
    exists M. split; [apply reaches_start|]. eauto.
  - destruct H as [[-> ->]|H].
    { exists M. split; [apply reaches_start|]. eauto. }
    destruct (observe t) as [m|t'|X e k] eqn:Hobs.
    + destruct H as [-> ->].
      eexists. split; [apply (reaches_one tid M None)|].
      * eapply step_return; eassumption.
      * cbn [phase shared_static lock_holder]. rewrite update_same.
        split; [reflexivity|]. split; [|auto].
        intros i Hi. apply update_other, Hi.
    + pose proof (step_tau __PRETTY_FUNCTION__ tid M st t t' Hp Hobs) as Hstep.
      match type of Hstep with
      | Threads.thread_step _ _ _ _ ?M1 => set (M1' := M1) in *
      end.
      destruct (IH M1' tid st t' tr res) as (M' & Hr & Hl & Ho & Hres);
        [apply update_same|exact H|exact Hquiet|].
      exists M'. split; [apply (reaches_trans M [] M1'); [|exact Hr]|].
      * apply (reaches_one tid M None), Hstep.
      * split; [exact Hl|]. split; [|exact Hres].
        intros i Hi. rewrite (Ho i Hi). apply update_other, Hi.
    + destruct H as (x & tr' & -> & H).
      inversion Hquiet as [|ev l Hev Hquiet' Heq]; subst.
      destruct (quiet_event_allowed (lock_holder M) tid e x Hev)
        as [Hallowed Hafter].
      pose proof (step_call __PRETTY_FUNCTION__ tid M st t X e k x
                    Hp Hobs Hallowed) as Hstep.
      match type of Hstep with
      | Threads.thread_step _ _ _ _ ?M1 => set (M1' := M1) in *
      end.
      destruct (IH M1' tid st (k x) tr' res) as (M' & Hr & Hl & Ho & Hres);
        [apply update_same|exact H|exact Hquiet'|].
      exists M'. split.
      * apply (reaches_trans M [(tid, record X e x)] M1'); [|exact Hr].
        apply (reaches_one tid M (Some (record X e x))), Hstep.
      * split; [rewrite Hl; exact Hafter|]. split; [|exact Hres].
        intros i Hi. rewrite (Ho i Hi). apply update_other, Hi.
Qed.

(** A thread that finds the lock free can run its call of an exported
    function from beginning to end. *)
Lemma run_exported M tid c tr s' :
  phase M tid = AtLock c ->
  lock_holder M = None ->
  returns (exported c (shared_static M)) tr s' ->
  exists M',
    reaches M (tag tid tr) M'
    /\ phase M' tid = Finished
    /\ shared_static M' = s'
    /\ lock_holder M' = None
    /\ (forall i, i <> tid -> phase M' i = phase M i).
Proof.
  intros Hp Hl H.
  apply returns_exported in H as (inner & this' & Hinner & -> & ->).
  pose proof (step_lock __PRETTY_FUNCTION__ tid M c Hp Hl) as Hstep1.
  match type of Hstep1 with
  | Threads.thread_step _ _ _ _ ?next_machine => set (M1 := next_machine) in *
  end.
  assert (Hi : returns (instance_ (shared_static M))
                       (construction_trace (shared_static M))
                       (manager_of (shared_static M)))
    by (apply returns_instance_; auto).
  destruct Hi as [n1 Hi].
  destruct (run_statement n1 M1 tid (InInstance c) _ _ _
              (update_same _ _ _) Hi (construction_takes_no_lock _))
    as (M2 & Hr2 & Hl2 & Ho2 & Hp2 & Hs2).
  cbn [next] in Hp2.
  pose proof (call_never_locks _ _ _ _ Hinner) as Hquiet.
  destruct Hinner as [n2 Hinner].
  destruct (run_statement n2 M2 tid InMethod _ _ _ Hp2 Hinner Hquiet)
    as (M3 & Hr3 & Hl3 & Ho3 & Hp3 & Hs3).
  cbn [next] in Hp3.
  assert (Hl3' : lock_holder M3 = Some tid)
    by (rewrite Hl3, Hl2; reflexivity).
  pose proof (step_unlock __PRETTY_FUNCTION__ tid M3 Hp3 Hl3') as Hstep4.
  match type of Hstep4 with
  | Threads.thread_step _ _ _ _ ?next_machine => set (M4 := next_machine) in *
  end.
  exists M4. split.
  - change (tag tid (Locked :: construction_trace (shared_static M)
                            ++ inner ++ [Unlocked]))
      with ([(tid, Locked)]
            ++ tag tid (construction_trace (shared_static M)
                        ++ inner ++ [Unlocked])).
    rewrite !tag_app.
    apply (reaches_trans M _ M1); [apply (reaches_one _ _ _ _ Hstep1)|].
    apply (reaches_trans M1 _ M2); [exact Hr2|].
    apply (reaches_trans M2 _ M3); [exact Hr3|].
    apply (reaches_one _ _ _ _ Hstep4).
  - unfold M4. cbn [phase shared_static lock_holder]. rewrite update_same.
    split; [reflexivity|]. split; [exact Hs3|]. split; [reflexivity|].
    intros i Hother.
    rewrite update_other, (Ho3 i Hother), (Ho2 i Hother) by exact Hother.
    unfold M1. cbn [phase]. apply update_other, Hother.
Qed.

(** *** The destructor beside a call that holds the lock *)

(** While a thread that called [terminate] holds the lock, its
    unregistration accepted, the destructor on another thread finds the
    slot still occupied and unregisters the service once more. *)
Lemma destructor_overlaps service :
  exists M,
    reaches (start (fun tid : ThreadId =>
                      if tid then Destructor else Exported Terminate)
                   (Some (running_manager service)))
            (tag false
               [Locked;
                entered __PRETTY_FUNCTION__ Manager_terminate_test_service;
                entered __PRETTY_FUNCTION__ Manager_unregister_service;
                RuntimeGot; unregister_call service true]
             ++ tag true
                  [entered __PRETTY_FUNCTION__ Manager_terminate_test_service;
                   entered __PRETTY_FUNCTION__ Manager_unregister_service;
                   RuntimeGot; unregister_call service true])
            M
    /\ lock_holder M = Some false
    /\ in_transition (phase M false) = true
    /\ in_transition (phase M true) = true.
Proof.
  set (jobs := fun tid : ThreadId =>
                 if tid then Destructor else Exported Terminate).
  set (m := running_manager service).
  set (M0 := start jobs (Some m)).
  set (tr := [entered __PRETTY_FUNCTION__ Manager_terminate_test_service;
              entered __PRETTY_FUNCTION__ Manager_unregister_service;
              RuntimeGot; unregister_call service true]).
  assert (Htr : is_trace (terminate_test_service __PRETTY_FUNCTION__ m)
                         tr None).
  { apply is_trace_cut
      with (tr2 := exited __PRETTY_FUNCTION__ Manager_unregister_service
                   :: wait_service_trace __PRETTY_FUNCTION__ service false
                        example_proxy 0
                   ++ [exited __PRETTY_FUNCTION__
                         Manager_terminate_test_service])
           (res := Some {| running_service := None |}).
    apply returns_terminate_test_service. right.
    exists service, O, example_proxy, O.
    split; [reflexivity|]. split; [|reflexivity].
    rewrite terminate_trace_cut. reflexivity. }
  assert (Hquiet : Forall (fun ev => is_lock_event ev = false) tr)
    by (repeat constructor).
  destruct Htr as [n Htr].
  (* thread false: the lock, the instance, the method up to the accepted
     unregistration *)
  pose proof (step_lock __PRETTY_FUNCTION__ false M0 Terminate
                eq_refl eq_refl) as Hstep1.
  match type of Hstep1 with
  | Threads.thread_step _ _ _ _ ?next_machine => set (M1 := next_machine) in *
  end.
  destruct (run_statement 1 M1 false (InInstance Terminate)
              (instance_ (Some m)) [] (Some m) eq_refl)
    as (M2 & Hr2 & Hl2 & Ho2 & Hp2 & Hs2);
    [right; cbn; auto|constructor|].
  cbn [next ManagerImpl.call] in Hp2.
  destruct (run_statement n M2 false InMethod _ tr None Hp2 Htr Hquiet)
    as (M3 & Hr3 & Hl3 & Ho3 & [t3 Hp3] & Hs3).
  (* thread true: the destructor, up to its accepted unregistration *)
  assert (Hp3' : phase M3 true = AtDestructor).
  { rewrite Ho3, Ho2 by discriminate. reflexivity. }
  pose proof (step_destroy __PRETTY_FUNCTION__ true M3 Hp3') as Hstep4.
  rewrite Hs3, Hs2 in Hstep4.
  match type of Hstep4 with
  | Threads.thread_step _ _ _ _ ?next_machine => set (M4 := next_machine) in *
  end.
  destruct (run_statement n M4 true InDestructor
              (Manager_dtor __PRETTY_FUNCTION__ m) tr None
              (update_same _ _ _) Htr Hquiet)
    as (M5 & Hr5 & Hl5 & Ho5 & [t5 Hp5] & Hs5).
  exists M5.
  split; [|split; [|split]].
  - change (reaches M0
              ([(false, Locked)] ++ tag false [] ++ tag false tr
               ++ [] ++ tag true tr) M5).
    apply (reaches_trans M0 _ M1); [apply (reaches_one _ _ _ _ Hstep1)|].
    apply (reaches_trans M1 _ M2); [exact Hr2|].
    apply (reaches_trans M2 _ M3); [exact Hr3|].
    apply (reaches_trans M3 _ M4); [apply (reaches_one _ _ _ _ Hstep4)|].
    exact Hr5.
  - rewrite Hl5. unfold M4. cbn [lock_holder]. rewrite Hl3, Hl2. reflexivity.
  - rewrite Ho5 by discriminate. unfold M4. cbn [phase].
    rewrite update_other by discriminate. rewrite Hp3. reflexivity.
  - rewrite Hp5. reflexivity.
Qed.


End Facts.



End ThreadsFacts.

(** ** service.hpp: the echo *)

Module StubFacts.
Import Utils StubImpl.

Section Echo.

Variable __PRETTY_FUNCTION__ : Function -> std_string.

Local Abbreviation entered := (stub_entered __PRETTY_FUNCTION__).
Local Abbreviation exited := (stub_exited __PRETTY_FUNCTION__).

(** The body all two-way methods share: between the two log lines, the
    parameter goes to the reply callback. *)
Lemma returns_echo {T} f (x : T) tr u :
  returns (record_stub T)
    (LOG_FUNCTION_CALL __PRETTY_FUNCTION__ f (reply_callback T x)) tr u <->
  tr = [entered f; Replied x; exited f].
Proof.
  rewrite returns_LOG_FUNCTION_CALL. unfold reply_callback. split.
  - intros (tr' & -> & H). apply returns_trigger in H as ->. reflexivity.
  - intros ->. exists [Replied x]. split; [reflexivity|].
    apply returns_trigger. destruct u. reflexivity.
Qed.

Lemma can_always_return_echo {T} f (x : T) :
  can_always_return (record_stub T)
    (LOG_FUNCTION_CALL __PRETTY_FUNCTION__ f (reply_callback T x)).
Proof.
  apply can_always_return_LOG_FUNCTION_CALL.
  apply can_always_return_trigger. exact tt.
Qed.

Lemma dispatch_echo m _client (x : parameter_type m) :
  dispatch __PRETTY_FUNCTION__ m _client x
  = LOG_FUNCTION_CALL __PRETTY_FUNCTION__ (method_id m)
      (reply_callback (parameter_type m) x).
Proof. destruct m; reflexivity. Qed.

(** C8.  A call of any two-way method with any value [x] of its parameter
    type returns after exactly: the ENTER line, one reply, which is [x],
    and the EXIT line; and no run of it, returning or not, replies anything
    but [x].  The one-way method returns after the ENTER line, a log line
    that holds its parameter, and the EXIT line, and no run of it replies. *)
Theorem echo_replies_its_input :
  (forall (m : TwoWayMethod) _client (x : parameter_type m),
      (forall tr u,
          returns (record_stub _)
                  (dispatch __PRETTY_FUNCTION__ m _client x) tr u <->
          tr = [entered (method_id m); Replied x; exited (method_id m)])
      /\ only_performs (record_stub _)
           (fun ev => forall v, ev = Replied v -> v = x)
           (dispatch __PRETTY_FUNCTION__ m _client x))
  /\ (forall (T : Type) _client (x : uint64_t),
        (forall tr u,
            returns (record_stub T)
                    (test_fire_and_forget_uint64 __PRETTY_FUNCTION__
                                                 _client x) tr u <->
            tr = [entered (Stub_method (str "test_fire_and_forget_uint64"));
                  StubLogged (LogUInt64 x);
                  exited (Stub_method (str "test_fire_and_forget_uint64"))])
        /\ only_performs (record_stub T)
             (fun ev => forall v, ev <> Replied v)
             (test_fire_and_forget_uint64 __PRETTY_FUNCTION__ _client x)).
Proof.
  split.
  - intros m _client x. rewrite dispatch_echo. split.
    + intros tr u. apply returns_echo.
    + apply only_performs_returning; [apply can_always_return_echo|].
      intros tr u H. apply returns_echo in H as ->.
      repeat constructor; intros v Heq; try discriminate Heq.
      injection Heq as ->. reflexivity.
  - intros T _client x. unfold test_fire_and_forget_uint64.
    assert (Hreturns : forall tr u,
      returns (record_stub T)
        (LOG_FUNCTION_CALL __PRETTY_FUNCTION__
           (Stub_method (str "test_fire_and_forget_uint64"))
           (LOG (LogUInt64 x))) tr u <->
      tr = [entered (Stub_method (str "test_fire_and_forget_uint64"));
            StubLogged (LogUInt64 x);
            exited (Stub_method (str "test_fire_and_forget_uint64"))]).
    { intros tr u. rewrite returns_LOG_FUNCTION_CALL. split.
      - intros (tr' & -> & H). apply returns_LOG in H as ->. reflexivity.
      - intros ->. exists [StubLogged (LogUInt64 x)]. split; [reflexivity|].
        apply returns_LOG. reflexivity. }
    split; [exact Hreturns|].
    apply only_performs_returning.
    + apply can_always_return_LOG_FUNCTION_CALL, can_always_return_LOG.
    + intros tr u H. apply Hreturns in H as ->.
      repeat constructor; intros v Heq; discriminate Heq.
Qed.

End Echo.

(** C8 at work: [test_uint32(4294967295)]. *)
Lemma test_uint32_echoes_max :
  returns (record_stub uint32_t)
    (test_uint32 Shapes.gcc_pretty_function 1%nat 4294967295 (reply_callback _))
    [stub_entered Shapes.gcc_pretty_function (Stub_method (str "test_uint32"));
     Replied 4294967295;
     stub_exited Shapes.gcc_pretty_function (Stub_method (str "test_uint32"))]
    tt.
Proof.
  apply (proj1 (proj1 (echo_replies_its_input Shapes.gcc_pretty_function)
                  M_test_uint32 1%nat 4294967295) _ tt).
  reflexivity.
Defined.

End StubFacts.

(** ** utils.hpp: the scoped logger and the nesting of the log *)

Module LogReadingFacts.
Import Utils ManagerImpl StubImpl Shapes ShapeFacts LogReading.

Lemma strip_prefix_app prefix rest :
  strip_prefix prefix (prefix ++ rest) = Some rest.
Proof.
  induction prefix as [|a prefix IH]; cbn; [reflexivity|].
  rewrite Ascii.eqb_refl. exact IH.
Qed.

Lemma strip_suffix_app suffix rest :
  strip_suffix suffix (rest ++ suffix) = Some rest.
Proof.
  unfold strip_suffix. rewrite rev_app_distr, strip_prefix_app. cbn.
  rewrite rev_involutive. reflexivity.
Qed.

Lemma line_kind_enter name :
  line_kind (LogText (str "[" ++ name ++ str "] ENTER")) = EnterLine name.
Proof.
  unfold line_kind. rewrite strip_prefix_app, strip_suffix_app. reflexivity.
Qed.

Lemma line_kind_exit name :
  line_kind (LogText (str "[" ++ name ++ str "] EXIT")) = ExitLine name.
Proof.
  unfold line_kind. rewrite strip_prefix_app, strip_suffix_app.
  unfold strip_suffix. rewrite rev_app_distr. reflexivity.
Qed.

Lemma open_scopes_app stack log1 log2 :
  open_scopes stack (log1 ++ log2)
  = match open_scopes stack log1 with
    | Some stack' => open_scopes stack' log2
    | None => None
    end.
Proof.
  revert stack. induction log1 as [|message log1 IH]; intros stack;
    [reflexivity|].
  cbn [app open_scopes]. destruct (line_kind message) as [name|name|].
  - apply IH.
  - destruct stack as [|innermost stack]; [reflexivity|].
    destruct (list_eq_dec ascii_dec name innermost); [apply IH|reflexivity].
  - apply IH.
Qed.

(** A log that reads well so far read well up to any earlier point. *)
Lemma open_scopes_beginning stack log1 log2 stack' :
  open_scopes stack (log1 ++ log2) = Some stack' ->
  exists stack1, open_scopes stack log1 = Some stack1.
Proof.
  rewrite open_scopes_app.
  destruct (open_scopes stack log1) as [stack1|]; [eauto|discriminate].
Qed.

Lemma open_scopes_enter stack name log :
  open_scopes stack (LogText (str "[" ++ name ++ str "] ENTER") :: log)
  = open_scopes (name :: stack) log.
Proof. cbn [open_scopes]. rewrite line_kind_enter. reflexivity. Qed.

Lemma open_scopes_exit stack name log :
  open_scopes (name :: stack) (LogText (str "[" ++ name ++ str "] EXIT") :: log)
  = open_scopes stack log.
Proof.
  cbn [open_scopes]. rewrite line_kind_exit.
  destruct (list_eq_dec ascii_dec name name); [reflexivity|congruence].
Qed.

Lemma open_scopes_other stack message log :
  line_kind message = OtherLine ->
  open_scopes stack (message :: log) = open_scopes stack log.
Proof. intros H. cbn [open_scopes]. rewrite H. reflexivity. Qed.

Lemma log_of_app tr1 tr2 : log_of (tr1 ++ tr2) = log_of tr1 ++ log_of tr2.
Proof. apply flat_map_app. Qed.

Lemma stub_log_of_app {T} (tr1 tr2 : list (StubEvent T)) :
  stub_log_of (tr1 ++ tr2) = stub_log_of tr1 ++ stub_log_of tr2.
Proof. apply flat_map_app. Qed.

(** What a log does to the scopes it finds open: it leaves them alone. *)
Lemma open_scopes_above stack0 stack log scopes :
  open_scopes stack0 log = Some scopes ->
  open_scopes (stack0 ++ stack) log = Some (scopes ++ stack).
Proof.
  revert stack0. induction log as [|message log IH]; intros stack0 H;
    cbn [open_scopes] in *.
  - injection H as <-. reflexivity.
  - destruct (line_kind message) as [name|name|].
    + apply (IH (name :: stack0)), H.
    + destruct stack0 as [|innermost stack0]; [discriminate H|].
      cbn [app].
      destruct (list_eq_dec ascii_dec name innermost); [|discriminate H].
      apply IH, H.
    + apply IH, H.
Qed.

(** Rounds that leave the open scopes as they are, do so however many. *)
Lemma open_scopes_rounds stack K round log :
  (forall log', open_scopes stack (log_of round ++ log')
                = open_scopes stack log') ->
  open_scopes stack (log_of (rounds K round) ++ log) = open_scopes stack log.
Proof.
  intros Hround. induction K as [|K IH]; [reflexivity|].
  rewrite rounds_S, log_of_app, <- app_assoc, Hround. exact IH.
Qed.

Section Scoped.

Variable __PRETTY_FUNCTION__ : Function -> std_string.

Local Abbreviation entered := (entered __PRETTY_FUNCTION__).
Local Abbreviation exited := (exited __PRETTY_FUNCTION__).
Local Abbreviation name_of := (__METHOD_NAME__ __PRETTY_FUNCTION__).

Lemma open_scopes_failed_register_round stack service log :
  open_scopes stack (log_of (failed_register_round service) ++ log)
  = open_scopes stack log.
Proof. reflexivity. Qed.

Lemma open_scopes_failed_unregister_round stack service log :
  open_scopes stack (log_of (failed_unregister_round service) ++ log)
  = open_scopes stack log.
Proof. reflexivity. Qed.

Lemma open_scopes_failed_poll_round stack proxy b log :
  open_scopes stack (log_of (failed_poll_round proxy b) ++ log)
  = open_scopes stack log.
Proof. reflexivity. Qed.

Lemma register_service_trace_scopes stack service K log :
  open_scopes stack
    (log_of (register_service_trace __PRETTY_FUNCTION__ service K) ++ log)
  = open_scopes stack log.
Proof.
  unfold register_service_trace. rewrite !log_of_app, <- !app_assoc.
  cbn [log_of flat_map Shapes.entered Shapes.exited register_call app].
  rewrite open_scopes_enter, open_scopes_rounds
    by apply open_scopes_failed_register_round.
  apply open_scopes_exit.
Qed.

Lemma unregister_service_trace_scopes stack service K log :
  open_scopes stack
    (log_of (unregister_service_trace __PRETTY_FUNCTION__ service K) ++ log)
  = open_scopes stack log.
Proof.
  unfold unregister_service_trace. rewrite !log_of_app, <- !app_assoc.
  cbn [log_of flat_map Shapes.entered Shapes.exited unregister_call app].
  rewrite open_scopes_enter, open_scopes_rounds
    by apply open_scopes_failed_unregister_round.
  apply open_scopes_exit.
Qed.

Lemma wait_service_trace_scopes stack service b proxy J log :
  open_scopes stack
    (log_of (wait_service_trace __PRETTY_FUNCTION__ service b proxy J) ++ log)
  = open_scopes stack log.
Proof.
  unfold wait_service_trace. rewrite !log_of_app, <- !app_assoc.
  cbn [log_of flat_map Shapes.entered Shapes.exited build_proxy_call app].
  rewrite open_scopes_enter, open_scopes_rounds
    by apply open_scopes_failed_poll_round.
  apply open_scopes_exit.
Qed.

Lemma launch_trace_scopes stack handle K proxy J :
  open_scopes stack
    (log_of (launch_trace __PRETTY_FUNCTION__ handle K proxy J))
  = Some stack.
Proof.
  unfold launch_trace. rewrite !log_of_app.
  cbn [log_of flat_map Shapes.entered Shapes.exited app].
  rewrite open_scopes_enter, register_service_trace_scopes,
    wait_service_trace_scopes.
  apply open_scopes_exit.
Qed.

Lemma terminate_trace_scopes stack service K proxy J :
  open_scopes stack
    (log_of (terminate_trace __PRETTY_FUNCTION__ service K proxy J))
  = Some stack.
Proof.
  unfold terminate_trace. rewrite !log_of_app.
  cbn [log_of flat_map Shapes.entered Shapes.exited app].
  rewrite open_scopes_enter, unregister_service_trace_scopes,
    wait_service_trace_scopes.
  apply open_scopes_exit.
Qed.

Lemma ignored_launch_trace_scopes stack :
  open_scopes stack (log_of (ignored_launch_trace __PRETTY_FUNCTION__))
  = Some stack.
Proof.
  unfold ignored_launch_trace.
  cbn [log_of flat_map Shapes.entered Shapes.exited app].
  rewrite open_scopes_enter, open_scopes_other by reflexivity.
  apply open_scopes_exit.
Qed.

Lemma ignored_terminate_trace_scopes stack :
  open_scopes stack (log_of (ignored_terminate_trace __PRETTY_FUNCTION__))
  = Some stack.
Proof.
  unfold ignored_terminate_trace.
  cbn [log_of flat_map Shapes.entered Shapes.exited app].
  rewrite open_scopes_enter, open_scopes_other by reflexivity.
  apply open_scopes_exit.
Qed.

End Scoped.

End LogReadingFacts.

Module LogNesting.
Import Utils ManagerImpl StubImpl Shapes ShapeFacts ManagerFacts StubFacts.
Import Lifecycle LogReading LogReadingFacts.

Section Properties.

Variable __PRETTY_FUNCTION__ : Function -> std_string.

Local Abbreviation launch_test_service :=
  (launch_test_service __PRETTY_FUNCTION__).
Local Abbreviation terminate_test_service :=
  (terminate_test_service __PRETTY_FUNCTION__).

Lemma returned_log_is_closed this tr this' :
  returns record (launch_test_service this) tr this'
  \/ returns record (terminate_test_service this) tr this' ->
  forall stack, open_scopes stack (log_of tr) = Some stack.
Proof.
  intros [H|H] stack.
  - apply returns_launch_test_service in H.
    destruct H as [(_ & -> & _)|(_ & h & K & p & J & -> & _)].
    + apply ignored_launch_trace_scopes.
    + apply launch_trace_scopes.
  - apply returns_terminate_test_service in H.
    destruct H as [(_ & -> & _)|(service & K & p & J & _ & -> & _)].
    + apply ignored_terminate_trace_scopes.
    + apply terminate_trace_scopes.
Qed.

Lemma stub_log_is_closed {T} f (body : StubEvent T) stack :
  (forall log, open_scopes (__METHOD_NAME__ __PRETTY_FUNCTION__ f :: stack)
                 (stub_log_of [body] ++ log)
               = open_scopes (__METHOD_NAME__ __PRETTY_FUNCTION__ f :: stack)
                   log) ->
  open_scopes stack
    (stub_log_of [stub_entered __PRETTY_FUNCTION__ f; body;
                  stub_exited __PRETTY_FUNCTION__ f])
  = Some stack.
Proof.
  intros Hbody.
  change [stub_entered __PRETTY_FUNCTION__ f; body;
          stub_exited __PRETTY_FUNCTION__ f]
    with ([stub_entered __PRETTY_FUNCTION__ f (T := T)] ++ [body]
          ++ [stub_exited __PRETTY_FUNCTION__ f]).
  rewrite !stub_log_of_app.
  cbn [stub_log_of flat_map stub_entered stub_exited app] in *.
  rewrite open_scopes_enter, Hbody. apply open_scopes_exit.
Qed.

(** X13.  The ENTER and EXIT lines of the scoped loggers nest.  Read from
    any stack of open scopes, the log of any run of either method of the
    manager, and of any method of the stub, never shows an EXIT line that
    does not close the innermost open scope, closes no scope it did not
    open, and, when the call returns, has closed every scope it opened. *)
Theorem log_scopes_are_well_nested :
  (forall this tr res stack,
      is_trace record (launch_test_service this) tr res
      \/ is_trace record (terminate_test_service this) tr res ->
      exists scopes,
        open_scopes stack (log_of tr) = Some (scopes ++ stack)
        /\ (res <> None -> scopes = []))
  /\ (forall (m : TwoWayMethod) _client (x : parameter_type m) tr res stack,
         is_trace (record_stub _)
                  (dispatch __PRETTY_FUNCTION__ m _client x) tr res ->
         exists scopes,
           open_scopes stack (stub_log_of tr) = Some (scopes ++ stack)
           /\ (res <> None -> scopes = []))
  /\ (forall (T : Type) _client (x : uint64_t) tr res stack,
         is_trace (record_stub T)
                  (test_fire_and_forget_uint64 __PRETTY_FUNCTION__ _client x)
                  tr res ->
         exists scopes,
           open_scopes stack (stub_log_of tr) = Some (scopes ++ stack)
           /\ (res <> None -> scopes = [])).
Proof.
  split; [|split].
  - intros this tr [this'|] stack H.
    + exists []. split; [|reflexivity].
      eapply returned_log_is_closed, H.
    + assert (Hext : exists rest this',
                 returns record (launch_test_service this) (tr ++ rest) this'
                 \/ returns record (terminate_test_service this)
                            (tr ++ rest) this').
      { destruct H as [H|H].
        - destruct (is_trace_extends record _ _ _
                      (can_always_return_launch_test_service
                         __PRETTY_FUNCTION__ this) H) as (rest & this' & Hr).
          eauto.
        - destruct (is_trace_extends record _ _ _
                      (can_always_return_terminate_test_service
                         __PRETTY_FUNCTION__ this) H) as (rest & this' & Hr).
          eauto. }
      destruct Hext as (rest & this' & Hr).
      pose proof (returned_log_is_closed _ _ _ Hr []) as Hclosed.
      rewrite log_of_app in Hclosed.
      apply open_scopes_beginning in Hclosed as [scopes Hscopes].
      exists scopes. split; [|congruence].
      apply (open_scopes_above [] stack), Hscopes.
  - intros m _client x tr res stack H. rewrite dispatch_echo in H.
    assert (Hclosed : forall tr' u,
               returns (record_stub _)
                 (LOG_FUNCTION_CALL __PRETTY_FUNCTION__ (method_id m)
                    (reply_callback (parameter_type m) x)) tr' u ->
               forall stack', open_scopes stack' (stub_log_of tr')
                              = Some stack').
    { intros tr' u Hr stack'. apply returns_echo in Hr as ->.
      apply stub_log_is_closed. reflexivity. }
    destruct res as [u|].
    + exists []. split; [eapply Hclosed, H|reflexivity].
    + destruct (is_trace_extends (record_stub _) _ _ _
                  (can_always_return_echo __PRETTY_FUNCTION__
                     (method_id m) x) H) as (rest & u & Hr).
      pose proof (Hclosed _ _ Hr []) as Hnil. rewrite stub_log_of_app in Hnil.
      apply open_scopes_beginning in Hnil as [scopes Hscopes].
      exists scopes. split; [|congruence].
      apply (open_scopes_above [] stack), Hscopes.
  - intros T _client x tr res stack H.
    unfold test_fire_and_forget_uint64 in H.
    assert (Hclosed : forall tr' u,
               returns (record_stub T)
                 (LOG_FUNCTION_CALL __PRETTY_FUNCTION__
                    (Stub_method (str "test_fire_and_forget_uint64"))
                    (LOG (LogUInt64 x))) tr' u ->
               forall stack', open_scopes stack' (stub_log_of tr')
                              = Some stack').
    { intros tr' u Hr stack'. apply returns_LOG_FUNCTION_CALL in Hr
        as (body & -> & Hbody).
      apply returns_LOG in Hbody as ->.
      apply (stub_log_is_closed
               (Stub_method (str "test_fire_and_forget_uint64"))
               (StubLogged (LogUInt64 x))).
      reflexivity. }
    destruct res as [u|].
    + exists []. split; [eapply Hclosed, H|reflexivity].
    + destruct (is_trace_extends (record_stub T) _ _ _
                  (can_always_return_LOG_FUNCTION_CALL _ _ _ _
                     (can_always_return_LOG _ _)) H) as (rest & u & Hr).
      pose proof (Hclosed _ _ Hr []) as Hnil. rewrite stub_log_of_app in Hnil.
      apply open_scopes_beginning in Hnil as [scopes Hscopes].
      exists scopes. split; [|congruence].
      apply (open_scopes_above [] stack), Hscopes.
Qed.

End Properties.

(** X13 at work: a launch watched up to its first registration attempt has
    two scopes open. *)
Lemma launch_cut_in_its_first_attempt_has_two_scopes_open :
  exists scopes,
    open_scopes []
      (log_of (firstn 5 (launch_trace gcc_pretty_function
                           example_handle 1 example_proxy 0)))
    = Some (scopes ++ [])
    /\ (@None Manager <> None -> scopes = []).
Proof.
  apply (proj1 (log_scopes_are_well_nested gcc_pretty_function)
           stopped_manager _ None []).
  left.
  apply is_trace_cut
    with (tr2 := skipn 5 (launch_trace gcc_pretty_function
                            example_handle 1 example_proxy 0))
         (res := Some (running_manager (created_service example_handle))).
  rewrite firstn_skipn.
  apply (runs_to_returns 100 (example_script 1 0 [true])).
  vm_compute. split; reflexivity.
Defined.

End LogNesting.
